(** * Target assignment, IoU, NMS and AP of utils/general.py

    A shallow embedding of the numeric core of [utils/general.py]
    (box conversions, the IoU family, [compute_ap], [build_targets],
    [non_max_suppression] and the bookkeeping of [compute_loss]) together
    with the properties stated about it.

    Numbers.  Tensor elements are IEEE floats in the source.  Here a finite
    float is an exact rational ([Q]): rounding, overflow and the sign of zero
    are abstracted away, nothing else is.  What a float division does when
    the divisor is zero is kept: the result of a division lives in [fl],
    rationals extended with the two infinities and NaN. *)

From Stdlib Require Import QArith Qround Qminmax Qabs Qpower ZArith List Sorted Lia Lqa Bool.
Import ListNotations.

Local Open Scope Q_scope.

(** ** Extended rationals: the values a float computation can produce *)

Inductive fl : Type :=
| Fin (q : Q)
| PInf
| NInf
| NaN.

Definition Qlt_bool (a b : Q) : bool := negb (Qle_bool b a).

Definition fopp (a : fl) : fl :=
  match a with
  | Fin q => Fin (- q)
  | PInf => NInf
  | NInf => PInf
  | NaN => NaN
  end.

Definition fadd (a b : fl) : fl :=
  match a, b with
  | NaN, _ | _, NaN => NaN
  | Fin x, Fin y => Fin (x + y)
  | PInf, NInf | NInf, PInf => NaN
  | PInf, _ | _, PInf => PInf
  | NInf, _ | _, NInf => NInf
  end.

Definition fsub (a b : fl) : fl := fadd a (fopp b).

(** [inf_signed c] is the infinity (or NaN) obtained from a quantity whose
    sign is given by comparing it with zero. *)
Definition inf_signed (c : comparison) : fl :=
  match c with
  | Eq => NaN
  | Gt => PInf
  | Lt => NInf
  end.

Definition fmul (a b : fl) : fl :=
  match a, b with
  | NaN, _ | _, NaN => NaN
  | Fin x, Fin y => Fin (x * y)
  | Fin x, PInf | PInf, Fin x => inf_signed (x ?= 0)
  | Fin x, NInf | NInf, Fin x => inf_signed (0 ?= x)
  | PInf, PInf | NInf, NInf => PInf
  | PInf, NInf | NInf, PInf => NInf
  end.

(** Division of finite floats: a zero divisor gives an infinity of the sign
    of the dividend, and 0/0 gives NaN; no exception is raised. *)
Definition qdiv (x y : Q) : fl :=
  if Qeq_bool y 0 then inf_signed (x ?= 0) else Fin (x / y).

Definition fdiv (a b : fl) : fl :=
  match a, b with
  | NaN, _ | _, NaN => NaN
  | Fin x, Fin y => qdiv x y
  | Fin _, PInf | Fin _, NInf => Fin 0
  | PInf, Fin y => if Qlt_bool y 0 then NInf else PInf
  | NInf, Fin y => if Qlt_bool y 0 then PInf else NInf
  | _, _ => NaN
  end.

(** [torch.max(a, b)] and [torch.min(a, b)]: elementwise, NaN wins. *)
Definition fmax (a b : fl) : fl :=
  match a, b with
  | NaN, _ | _, NaN => NaN
  | PInf, _ | _, PInf => PInf
  | NInf, x | x, NInf => x
  | Fin x, Fin y => Fin (Qmax x y)
  end.

Definition fmin (a b : fl) : fl :=
  match a, b with
  | NaN, _ | _, NaN => NaN
  | NInf, _ | _, NInf => NInf
  | PInf, x | x, PInf => x
  | Fin x, Fin y => Fin (Qmin x y)
  end.

(** Comparisons: anything compared with NaN is false. *)
Definition flt (a b : fl) : bool :=
  match a, b with
  | Fin x, Fin y => Qlt_bool x y
  | Fin _, PInf | NInf, Fin _ | NInf, PInf => true
  | _, _ => false
  end.

Definition fgt (a b : fl) : bool := flt b a.

Definition is_finite (a : fl) : bool :=
  match a with Fin _ => true | _ => false end.

(** Equality of float values up to the representation of the rational. *)
Definition feq (a b : fl) : Prop :=
  match a, b with
  | Fin x, Fin y => x == y
  | PInf, PInf | NInf, NInf | NaN, NaN => True
  | _, _ => False
  end.

(** [x.long()]: conversion to integer truncates toward zero. *)
Definition Qtrunc (q : Q) : Z :=
  if Qle_bool 0 q then Qfloor q else Qceiling q.

(** [x % 1.]: remainder with the sign of the divisor, x - floor(x). *)
Definition Qmod1 (q : Q) : Q := q - inject_Z (Qfloor q).

(** The constant 1e-16 added to denominators. *)
Definition eps16 : Q := 1 # 10000000000000000.

(** ** Boxes: rows of an n x 4 tensor *)

Record box : Type := mkbox { c0 : Q; c1 : Q; c2 : Q; c3 : Q }.

Definition box_eq (a b : box) : Prop :=
  c0 a == c0 b /\ c1 a == c1 b /\ c2 a == c2 b /\ c3 a == c3 b.

(** [xyxy2xywh]: [x1, y1, x2, y2] to [x, y, w, h], row by row. *)
Definition xyxy2xywh_row (x : box) : box :=
  {| c0 := (c0 x + c2 x) / 2;
     c1 := (c1 x + c3 x) / 2;
     c2 := c2 x - c0 x;
     c3 := c3 x - c1 x |}.

Definition xyxy2xywh (x : list box) : list box := map xyxy2xywh_row x.

(** [xywh2xyxy]: [x, y, w, h] to [x1, y1, x2, y2], row by row. *)
Definition xywh2xyxy_row (x : box) : box :=
  {| c0 := c0 x - c2 x / 2;
     c1 := c1 x - c3 x / 2;
     c2 := c0 x + c2 x / 2;
     c3 := c1 x + c3 x / 2 |}.

Definition xywh2xyxy (x : list box) : list box := map xywh2xyxy_row x.


(** ** The IoU family *)

Definition Qsqr (q : Q) : Q := q * q.

(** [(min(a2, b2) - max(a1, b1)).clamp(0)]: overlap of two intervals. *)
Definition overlap (a1 a2 b1 b2 : Q) : Q := Qmax (Qmin a2 b2 - Qmax a1 b1) 0.

Section BboxIou.

(** [torch.atan] and [math.pi] are library values; both are floats. *)
Variable atan : fl -> fl.
Variable pi : Q.

(** Corners of a box given either as corners or as centre and size. *)
Definition corners (x1y1x2y2 : bool) (b : box) : box :=
  if x1y1x2y2 then b
  else {| c0 := c0 b - c2 b / 2; c1 := c1 b - c3 b / 2;
          c2 := c0 b + c2 b / 2; c3 := c1 b + c3 b / 2 |}.

Definition bbox_inter (b1 b2 : box) : Q :=
  overlap (c0 b1) (c2 b1) (c0 b2) (c2 b2) *
  overlap (c1 b1) (c3 b1) (c1 b2) (c3 b2).

(** [union = (w1 * h1 + 1e-16) + w2 * h2 - inter], on corner boxes.  The
    epsilon is kept as the number it is; as a float it is absorbed by areas
    that are large against it, so what is stated about the quotients below
    uses it only to keep the denominators away from zero. *)
Definition bbox_union (b1 b2 : box) : Q :=
  let w1 := c2 b1 - c0 b1 in let h1 := c3 b1 - c1 b1 in
  let w2 := c2 b2 - c0 b2 in let h2 := c3 b2 - c1 b2 in
  (w1 * h1 + eps16) + w2 * h2 - bbox_inter b1 b2.

(** The aspect-ratio term [v] and the weight [alpha] of CIoU. *)
Definition ciou_v (w1 h1 w2 h2 : Q) : fl :=
  let d := fsub (atan (qdiv w2 h2)) (atan (qdiv w1 h1)) in
  fmul (qdiv 4 (Qsqr pi)) (fmul d d).

Definition ciou_alpha (v iou : fl) : fl :=
  fdiv v (fadd (fadd (fsub (Fin 1) iou) v) (Fin eps16)).

(** One element of [bbox_iou(box1, box2, x1y1x2y2, GIoU, DIoU, CIoU)]. *)
Definition bbox_iou1 (x1y1x2y2 GIoU DIoU CIoU : bool) (box1 box2 : box) : fl :=
  let b1 := corners x1y1x2y2 box1 in
  let b2 := corners x1y1x2y2 box2 in
  let inter := bbox_inter b1 b2 in
  let w1 := c2 b1 - c0 b1 in let h1 := c3 b1 - c1 b1 in
  let w2 := c2 b2 - c0 b2 in let h2 := c3 b2 - c1 b2 in
  let union := bbox_union b1 b2 in
  let iou := qdiv inter union in
  if GIoU || DIoU || CIoU then
    let cw := Qmax (c2 b1) (c2 b2) - Qmin (c0 b1) (c0 b2) in
    let ch := Qmax (c3 b1) (c3 b2) - Qmin (c1 b1) (c1 b2) in
    if GIoU then
      let c_area := cw * ch + eps16 in
      fsub iou (qdiv (c_area - union) c_area)
    else
      let c2' := Qsqr cw + Qsqr ch + eps16 in
      let rho2 := Qsqr ((c0 b2 + c2 b2) - (c0 b1 + c2 b1)) / 4 +
                  Qsqr ((c1 b2 + c3 b2) - (c1 b1 + c3 b1)) / 4 in
      if DIoU then fsub iou (qdiv rho2 c2')
      else
        let v := ciou_v w1 h1 w2 h2 in
        let alpha := ciou_alpha v iou in
        fsub iou (fadd (qdiv rho2 c2') (fmul v alpha))
  else iou.

(** [box1] is one box, [box2] is n x 4: one value per row of [box2]. *)
Definition bbox_iou (box1 : box) (box2 : list box)
           (x1y1x2y2 GIoU DIoU CIoU : bool) : list fl :=
  map (bbox_iou1 x1y1x2y2 GIoU DIoU CIoU box1) box2.

(** [box1] is 4 x n (a transposed n x 4 tensor): rows are paired. *)
Definition bbox_iou_rows (box1 box2 : list box)
           (x1y1x2y2 GIoU DIoU CIoU : bool) : list fl :=
  map (fun bb => bbox_iou1 x1y1x2y2 GIoU DIoU CIoU (fst bb) (snd bb))
      (combine box1 box2).

End BboxIou.

(** [box_iou]: the N x M matrix of pairwise IoU of corner boxes. *)
Definition box_area (b : box) : Q := (c2 b - c0 b) * (c3 b - c1 b).

Definition box_iou_den (a b : box) : Q :=
  box_area a + box_area b - bbox_inter a b.

Definition box_iou1 (a b : box) : fl := qdiv (bbox_inter a b) (box_iou_den a b).

Definition box_iou (box1 box2 : list box) : list (list fl) :=
  map (fun a => map (box_iou1 a) box2) box1.

(** [wh_iou]: IoU of shapes, position ignored. *)
Definition wh_inter (wh1 wh2 : Q * Q) : Q :=
  Qmin (fst wh1) (fst wh2) * Qmin (snd wh1) (snd wh2).

Definition wh_iou_den (wh1 wh2 : Q * Q) : Q :=
  fst wh1 * snd wh1 + fst wh2 * snd wh2 - wh_inter wh1 wh2.

Definition wh_iou1 (wh1 wh2 : Q * Q) : fl :=
  qdiv (wh_inter wh1 wh2) (wh_iou_den wh1 wh2).

Definition wh_iou (wh1 wh2 : list (Q * Q)) : list (list fl) :=
  map (fun a => map (wh_iou1 a) wh2) wh1.

(** ** Average precision *)

(** [np.maximum.accumulate]: running maximum from the left. *)
Fixpoint maximum_accumulate_from (m : Q) (l : list Q) : list Q :=
  match l with
  | [] => []
  | x :: l' => Qmax m x :: maximum_accumulate_from (Qmax m x) l'
  end.

Definition maximum_accumulate (l : list Q) : list Q :=
  match l with
  | [] => []
  | x :: l' => x :: maximum_accumulate_from x l'
  end.

(** The precision envelope: [np.flip(np.maximum.accumulate(np.flip(mpre)))]. *)
Definition envelope (mpre : list Q) : list Q :=
  rev (maximum_accumulate (rev mpre)).

(** [np.linspace(0, 1, 101)]. *)
Definition linspace101 : list Q :=
  map (fun k => inject_Z (Z.of_nat k) / 100) (seq 0 101).

(** [np.interp(x, xp, fp)] at one point, for increasing [xp]: the segment
    that starts at the last sample not above [x] is used; at and beyond the
    last sample the value is the last [fp]. *)
Fixpoint interp_from (x x0 y0 : Q) (rest : list (Q * Q)) : Q :=
  match rest with
  | [] => y0
  | (x1, y1) :: rest' =>
      if Qle_bool x1 x then interp_from x x1 y1 rest'
      else if Qeq_bool x0 x then y0
      else (y1 - y0) / (x1 - x0) * (x - x0) + y0
  end.

Definition interp1 (x : Q) (pts : list (Q * Q)) : Q :=
  match pts with
  | [] => 0
  | (x0, y0) :: rest => if Qlt_bool x x0 then y0 else interp_from x x0 y0 rest
  end.

Definition interp (x xp fp : list Q) : list Q :=
  map (fun v => interp1 v (combine xp fp)) x.

(** [np.trapz(y, x)]. *)
Fixpoint trapz (y x : list Q) : Q :=
  match y, x with
  | y0 :: ((y1 :: _) as y'), x0 :: ((x1 :: _) as x') =>
      (x1 - x0) * (y1 + y0) / 2 + trapz y' x'
  | _, _ => 0
  end.

(** [compute_ap(recall, precision)].  [recall[-1]] raises on an empty curve,
    and [np.interp] rejects curves of different lengths: [None]. *)
Definition compute_ap (recall precision : list Q) : option Q :=
  match rev recall with
  | [] => None
  | rlast :: _ =>
      if negb (Nat.eqb (length recall) (length precision)) then None
      else
        let mrec := [0] ++ recall ++ [Qmin (rlast + (1 # 1000)) 1] in
        let mpre := [0] ++ precision ++ [0] in
        let mpre := envelope mpre in
        let x := linspace101 in
        Some (trapz (interp x mrec mpre) x)
  end.

(** The branch [method == 'continuous'] of [compute_ap], which the source
    keeps but never takes: the area under the step curve. *)
Fixpoint continuous_area (mrec mpre : list Q) : Q :=
  match mrec, mpre with
  | r0 :: ((r1 :: _) as mrec'), _ :: ((p1 :: _) as mpre') =>
      (if Qeq_bool r1 r0 then 0 else (r1 - r0) * p1) + continuous_area mrec' mpre'
  | _, _ => 0
  end.

Definition compute_ap_continuous (recall precision : list Q) : option Q :=
  match rev recall with
  | [] => None
  | rlast :: _ =>
      if negb (Nat.eqb (length recall) (length precision)) then None
      else
        let mrec := [0] ++ recall ++ [Qmin (rlast + (1 # 1000)) 1] in
        let mpre := envelope ([0] ++ precision ++ [0]) in
        Some (continuous_area mrec mpre)
  end.

(** A corner box whose corners are in order, a well-formed box (one with
    positive width and height), and two boxes whose interiors do not meet. *)
Definition ordered (b : box) : Prop := c0 b <= c2 b /\ c1 b <= c3 b.

Definition well_formed (b : box) : Prop := c0 b < c2 b /\ c1 b < c3 b.

Definition disjoint (a b : box) : Prop :=
  c2 a <= c0 b \/ c2 b <= c0 a \/ c3 a <= c1 b \/ c3 b <= c1 a.

(** [bbox_iou] with all three flags off. *)
Definition plain_iou (atan : fl -> fl) (pi : Q) (a b : box) : fl :=
  bbox_iou1 atan pi true false false false a b.

(** A precision (or recall) value equal to one. *)
Definition is_one (q : Q) : Prop := q == 1.

(** ** Target assignment: [build_targets] *)

(** A ground-truth row (image, class, x, y, w, h) with, once the anchor index
    has been appended, a seventh column. *)
Record target : Type :=
  mktarget { t_img : Q; t_cls : Q; t_x : Q; t_y : Q; t_w : Q; t_h : Q }.

Record cand : Type :=
  mkcand { k_img : Q; k_cls : Q; k_x : Q; k_y : Q; k_w : Q; k_h : Q; k_a : Q }.

(** The detection head [Detect()]: number of layers, number of anchors per
    layer and the [nl x na x 2] anchor tensor. *)
Record Detect : Type :=
  mkDetect { nl : nat; na : nat; anchors : list (list (Q * Q)) }.

Definition Detect_wf (det : Detect) : Prop :=
  length (anchors det) = nl det /\
  Forall (fun a => length a = na det) (anchors det).

(** [cat((targets.repeat(na, 1, 1), ai[:, :, None]), 2)]: one copy of the
    targets per anchor, tagged with the anchor index. *)
Definition with_anchor (k : nat) (t : target) : cand :=
  {| k_img := t_img t; k_cls := t_cls t; k_x := t_x t; k_y := t_y t;
     k_w := t_w t; k_h := t_h t; k_a := inject_Z (Z.of_nat k) |}.

Definition repeat_targets (na : nat) (targets : list target) : list (list cand) :=
  map (fun k => map (with_anchor k) targets) (seq 0 na).

(** [gain]: ones, with entries 2..5 set to the grid size (nx, ny, nx, ny). *)
Definition gain_of (nx ny : Q) : cand :=
  {| k_img := 1; k_cls := 1; k_x := nx; k_y := ny; k_w := nx; k_h := ny; k_a := 1 |}.

Definition cand_mul (t g : cand) : cand :=
  {| k_img := k_img t * k_img g; k_cls := k_cls t * k_cls g;
     k_x := k_x t * k_x g; k_y := k_y t * k_y g;
     k_w := k_w t * k_w g; k_h := k_h t * k_h g; k_a := k_a t * k_a g |}.

(** [torch.max(r, 1. / r)] for one ratio [r = wh / anchor]. *)
Definition ratio_max (wh a : Q) : fl :=
  let r := qdiv wh a in fmax r (fdiv (Fin 1) r).

(** [torch.max(r, 1. / r).max(2)[0] < anchor_t] for one candidate and the
    anchor of its copy. *)
Definition shape_match (anchor_t : Q) (anchor : Q * Q) (t : cand) : bool :=
  flt (fmax (ratio_max (k_w t) (fst anchor)) (ratio_max (k_h t) (snd anchor)))
      (Fin anchor_t).

(** [t[j]]: the copies are traversed anchor by anchor. *)
Definition shape_filter (anchor_t : Q) (anchors_i : list (Q * Q))
           (t : list (list cand)) : list cand :=
  flat_map (fun at_ => filter (shape_match anchor_t (fst at_)) (snd at_))
           (combine anchors_i t).

(** The five rows of [off], before and after the factor [g = 0.5]. *)
Inductive direction : Type := Dorigin | Dj | Dk | Dl | Dm.

Definition directions : list direction := [Dorigin; Dj; Dk; Dl; Dm].

Definition g_half : Q := 1 # 2.

Definition off (d : direction) : Q * Q :=
  match d with
  | Dorigin => (0 * g_half, 0 * g_half)
  | Dj => (1 * g_half, 0 * g_half)
  | Dk => (0 * g_half, 1 * g_half)
  | Dl => (- 1 * g_half, 0 * g_half)
  | Dm => (0 * g_half, - 1 * g_half)
  end.

(** [(v % 1. < g) & (v > 1.)]. *)
Definition near_low (v : Q) : bool := Qlt_bool (Qmod1 v) g_half && Qlt_bool 1 v.

(** The rows of [torch.stack((torch.ones_like(j), j, k, l, m))]. *)
Definition dir_flag (nx ny : Q) (d : direction) (t : cand) : bool :=
  match d with
  | Dorigin => true
  | Dj => near_low (k_x t)
  | Dk => near_low (k_y t)
  | Dl => near_low (nx - k_x t)
  | Dm => near_low (ny - k_y t)
  end.

(** [t.repeat((5, 1, 1))[j]] together with
    [(torch.zeros_like(gxy)[None] + off[:, None])[j]]. *)
Definition expand (nx ny : Q) (t : list cand) : list (cand * (Q * Q)) :=
  flat_map (fun d => map (fun r => (r, (0 + fst (off d), 0 + snd (off d))))
                         (filter (dir_flag nx ny d) t))
           directions.

(** Indexing a tensor with an integer: negative indices count from the end,
    anything out of range raises. *)
Definition tensor_index {A : Type} (l : list A) (i : Z) : option A :=
  if (0 <=? i)%Z then nth_error l (Z.to_nat i)
  else if (- Z.of_nat (length l) <=? i)%Z
       then nth_error l (Z.to_nat (Z.of_nat (length l) + i))
       else None.

Fixpoint mapM {A B : Type} (f : A -> option B) (l : list A) : option (list B) :=
  match l with
  | [] => Some []
  | x :: l' =>
      match f x, mapM f l' with
      | Some y, Some ys => Some (y :: ys)
      | _, _ => None
      end
  end.

(** What one layer contributes to the five lists the function returns;
    [indices] is the tuple (b, a, gj, gi). *)
Record layer_targets : Type :=
  mklayer {
    tcls : list Z;
    tbox : list (Q * Q * Q * Q);
    idx_b : list Z;
    idx_a : list Z;
    idx_gj : list Z;
    idx_gi : list Z;
    anch : list (Q * Q);
    ttar : list (Q * Q * Q * Q)
  }.

Definition gij (r : cand * (Q * Q)) : Z * Z :=
  (Qtrunc (k_x (fst r) - fst (snd r)), Qtrunc (k_y (fst r) - snd (snd r))).

(** The tail of the loop body: from the selected rows and their offsets to
    the entries appended to the output lists. *)
Definition assemble (anchors_i : list (Q * Q)) (t : list (cand * (Q * Q)))
  : option layer_targets :=
  match mapM (fun r => tensor_index anchors_i (Qtrunc (k_a (fst r)))) t with
  | None => None
  | Some an =>
      Some {| tcls := map (fun r => Qtrunc (k_cls (fst r))) t;
              tbox := map (fun r => (k_x (fst r) - inject_Z (fst (gij r)),
                                     k_y (fst r) - inject_Z (snd (gij r)),
                                     k_w (fst r), k_h (fst r))) t;
              idx_b := map (fun r => Qtrunc (k_img (fst r))) t;
              idx_a := map (fun r => Qtrunc (k_a (fst r))) t;
              idx_gj := map (fun r => snd (gij r)) t;
              idx_gi := map (fun r => fst (gij r)) t;
              anch := an;
              ttar := map (fun r => (k_x (fst r), k_y (fst r),
                                     k_w (fst r), k_h (fst r))) t |}
  end.

(** One iteration of [for i in range(det.nl)].  [shape] is [p[i].shape]. *)
Definition build_targets_layer (anchor_t : Q) (anchors_i : list (Q * Q))
           (shape : list nat) (nt : nat) (targets : list (list cand))
  : option layer_targets :=
  match nth_error shape 3, nth_error shape 2 with
  | Some nx, Some ny =>
      let gx := inject_Z (Z.of_nat nx) in
      let gy := inject_Z (Z.of_nat ny) in
      let t := map (map (fun r => cand_mul r (gain_of gx gy))) targets in
      if negb (Nat.eqb nt 0) then
        let t := shape_filter anchor_t anchors_i t in
        assemble anchors_i (expand gx gy t)
      else
        match nth_error targets 0 with
        | None => None
        | Some t => assemble anchors_i (map (fun r => (r, (0, 0))) t)
        end
  | _, _ => None
  end.

(** [build_targets(p, targets, model)]: [p] is given by the shapes of the
    per-layer predictions, the model by its detection head and
    [hyp['anchor_t']].  [None] stands for a raised exception. *)
Definition build_targets (p : list (list nat)) (targets : list target)
           (det : Detect) (anchor_t : Q) : option (list layer_targets) :=
  let nt := length targets in
  let targets := repeat_targets (na det) targets in
  mapM (fun i =>
          match nth_error (anchors det) i, nth_error p i with
          | Some anchors_i, Some shape =>
              build_targets_layer anchor_t anchors_i shape nt targets
          | _, _ => None
          end)
       (seq 0 (nl det)).

(** The ratio of a box of size (w, h), in grid units, to an anchor is within
    the threshold in both dimensions. *)
Definition within_threshold (anchor_t : Q) (anchor : Q * Q) (w h : Q) : Prop :=
  flt (ratio_max w (fst anchor)) (Fin anchor_t) = true /\
  flt (ratio_max h (snd anchor)) (Fin anchor_t) = true.

(** A layer to which nothing was assigned. *)
Definition no_assignment : layer_targets :=
  {| tcls := []; tbox := []; idx_b := []; idx_a := []; idx_gj := []; idx_gi := [];
     anch := []; ttar := [] |}.

(** The directions in which one candidate is assigned: the column of the
    stacked mask that belongs to it. *)
Definition expansion (nx ny : Q) (c : cand) : list direction :=
  filter (fun d => dir_flag nx ny d c) directions.

(** The grid cell a candidate lands in, and the cell of an expanded row. *)
Definition origin_cell (c : cand) : Z * Z := (Qtrunc (k_x c), Qtrunc (k_y c)).

(** ** Non-maximum suppression *)

(** One row of the raw prediction of an image: box as centre and size,
    objectness, and [nc] class scores. *)
Record pred : Type :=
  mkpred { p_box : box; p_obj : Q; p_cls : list Q }.

(** A candidate row of the n x 6 detections matrix (xyxy, conf, cls). *)
Record cand6 : Type :=
  mkcand6 { d_box : box; d_conf : Q; d_cls : Q }.

(** A returned row: the box may have gone through the division of the merge
    step, the other two columns never do. *)
Record detection : Type :=
  mkdetection { o_x1 : fl; o_y1 : fl; o_x2 : fl; o_y2 : fl; o_conf : Q; o_cls : Q }.

Definition detection_of (r : cand6) : detection :=
  {| o_x1 := Fin (c0 (d_box r)); o_y1 := Fin (c1 (d_box r));
     o_x2 := Fin (c2 (d_box r)); o_y2 := Fin (c3 (d_box r));
     o_conf := d_conf r; o_cls := d_cls r |}.

(** Settings fixed in the body of the function. *)
Definition max_wh : Q := 4096.
Definition max_det : nat := 300.
Definition redundant : bool := true.

(** [x[:, 5:] *= x[:, 4:5]]. *)
Definition scale_cls (r : pred) : pred :=
  {| p_box := p_box r; p_obj := p_obj r;
     p_cls := map (fun s => s * p_obj r) (p_cls r) |}.

Fixpoint enumerate_from {A : Type} (k : nat) (l : list A) : list (nat * A) :=
  match l with
  | [] => []
  | x :: l' => (k, x) :: enumerate_from (S k) l'
  end.

Definition enumerate {A : Type} (l : list A) : list (nat * A) := enumerate_from 0 l.

Definition Qofnat (n : nat) : Q := inject_Z (Z.of_nat n).

(** The multi-label branch: one row per (box, class) pair whose score
    exceeds the threshold, in the order of [nonzero]. *)
Definition multi_label_rows (conf_thres : Q) (r : pred) : list cand6 :=
  map (fun js => {| d_box := xywh2xyxy_row (p_box r); d_conf := snd js;
                    d_cls := Qofnat (fst js) |})
      (filter (fun js => Qlt_bool conf_thres (snd js)) (enumerate (p_cls r))).

(** [x[:, 5:].max(1)]: the largest score and the first index where it is
    reached; there is no maximum of an empty row. *)
Fixpoint max_from (best : Q) (bi : nat) (l : list (nat * Q)) : Q * nat :=
  match l with
  | [] => (best, bi)
  | (j, s) :: l' =>
      if Qlt_bool best s then max_from s j l' else max_from best bi l'
  end.

Definition row_max (l : list Q) : option (Q * nat) :=
  match enumerate l with
  | [] => None
  | (j, s) :: l' => Some (max_from s j l')
  end.

Definition best_class_row (r : pred) : option cand6 :=
  match row_max (p_cls r) with
  | None => None
  | Some (conf, j) =>
      Some {| d_box := xywh2xyxy_row (p_box r); d_conf := conf; d_cls := Qofnat j |}
  end.

(** [(x[:, 5:6] == torch.tensor(classes)).any(1)]. *)
Definition class_allowed (classes : list Z) (r : cand6) : bool :=
  existsb (fun c => Qeq_bool (d_cls r) (inject_Z c)) classes.

(** [x[:, :4] + c]: every coordinate is shifted by the class offset.  This
    is the sum of the numbers; [shift_box32] further down is the sum as
    float32 rounds it. *)
Definition shift_box (c : Q) (b : box) : box :=
  {| c0 := c0 b + c; c1 := c1 b + c; c2 := c2 b + c; c3 := c3 b + c |}.

(** *** [torchvision.ops.boxes.nms]

    Boxes are visited by decreasing score; a box is kept unless a box kept
    before it overlaps it with IoU above the threshold.  The result lists
    the kept indices in the order they were visited.  The documentation
    leaves the order among equal scores open; here the earlier row is
    visited first, as the stable sort of the CPU kernel does. *)
Fixpoint insert_desc (e : nat * (box * Q)) (l : list (nat * (box * Q)))
  : list (nat * (box * Q)) :=
  match l with
  | [] => [e]
  | h :: l' =>
      if Qle_bool (snd (snd h)) (snd (snd e)) then e :: h :: l'
      else h :: insert_desc e l'
  end.

Definition sort_desc (l : list (nat * (box * Q))) : list (nat * (box * Q)) :=
  fold_right insert_desc [] l.

Definition suppresses (iou_thres : Q) (kept : nat * (box * Q)) (e : nat * (box * Q))
  : bool :=
  fgt (box_iou1 (fst (snd kept)) (fst (snd e))) (Fin iou_thres).

Fixpoint nms_greedy (iou_thres : Q) (order kept : list (nat * (box * Q)))
  : list (nat * (box * Q)) :=
  match order with
  | [] => rev kept
  | e :: rest =>
      if existsb (fun k => suppresses iou_thres k e) kept
      then nms_greedy iou_thres rest kept
      else nms_greedy iou_thres rest (e :: kept)
  end.

Definition nms_entries (boxes : list box) (scores : list Q) (iou_thres : Q)
  : list (nat * (box * Q)) :=
  nms_greedy iou_thres (sort_desc (enumerate (combine boxes scores))) [].

Definition nms (boxes : list box) (scores : list Q) (iou_thres : Q) : list nat :=
  map fst (nms_entries boxes scores iou_thres).

(** Score of an entry, and the relations the result is described with. *)
Definition entry_score (e : nat * (box * Q)) : Q := snd (snd e).

Definition not_below (k e : nat * (box * Q)) : Prop := entry_score e <= entry_score k.

Definition compatible (iou_thres : Q) (k e : nat * (box * Q)) : Prop :=
  suppresses iou_thres k e = false.

(** *** The merge step *)

Definition Qsum (l : list Q) : Q := fold_right Qplus 0 l.

(** One row of [weights = iou * scores[None]] for the kept box [b]. *)
Definition merge_weights (iou_thres : Q) (b : box) (boxes : list box)
           (scores : list Q) : list Q :=
  map (fun bs => if fgt (box_iou1 b (fst bs)) (Fin iou_thres) then 1 * snd bs
                 else 0 * snd bs)
      (combine boxes scores).

(** One row of [torch.mm(weights, x[:, :4]) / weights.sum(1, keepdim=True)]. *)
Definition merged_box (w : list Q) (x : list cand6) : fl * fl * fl * fl :=
  let col (f : box -> Q) :=
      Qsum (map (fun wr => fst wr * f (d_box (snd wr))) (combine w x)) in
  let s := Qsum w in
  (qdiv (col c0) s, qdiv (col c1) s, qdiv (col c2) s, qdiv (col c3) s).

(** [iou.sum(1) > 1] for the kept box [b]. *)
Definition has_support (iou_thres : Q) (b : box) (boxes : list box) : bool :=
  Nat.ltb 1 (length (filter (fun b' => fgt (box_iou1 b b') (Fin iou_thres)) boxes)).

Definition merge_row (iou_thres : Q) (x : list cand6) (boxes : list box)
           (scores : list Q) (i : nat) : option (nat * detection) :=
  match nth_error boxes i, nth_error x i with
  | Some b, Some r =>
      let '(m0, m1, m2, m3) := merged_box (merge_weights iou_thres b boxes scores) x in
      Some (i, {| o_x1 := m0; o_y1 := m1; o_x2 := m2; o_y2 := m3;
                  o_conf := d_conf r; o_cls := d_cls r |})
  | _, _ => None
  end.

(** The body of the [try]: the merged rows at the indices [i], then the
    indices that keep redundancy. *)
Definition merge_nms (iou_thres : Q) (x : list cand6) (boxes : list box)
           (scores : list Q) (i : list nat) : option (list detection) :=
  match mapM (merge_row iou_thres x boxes scores) i with
  | None => None
  | Some rows =>
      Some (map snd
              (filter (fun ir =>
                         if redundant
                         then match nth_error boxes (fst ir) with
                              | Some b => has_support iou_thres b boxes
                              | None => false
                              end
                         else true)
                      rows))
  end.

(** *** One image *)

Inductive outcome (A : Type) : Type :=
| Raised
| Returned (a : A).
Arguments Raised {A}.
Arguments Returned {A} a.

(** The detections matrix of one image before suppression. *)
Definition candidates (nc : nat) (conf_thres : Q) (classes : option (list Z))
           (x : list pred) : outcome (list cand6) :=
  let x := map scale_cls x in
  let rows :=
      if Nat.ltb 1 nc then Returned (flat_map (multi_label_rows conf_thres) x)
      else match mapM best_class_row x with
           | None => Raised
           | Some rows =>
               Returned (filter (fun r => Qlt_bool conf_thres (d_conf r)) rows)
           end in
  match rows with
  | Raised => Raised
  | Returned rows =>
      match classes with
      | Some (c :: cs) => Returned (filter (class_allowed (c :: cs)) rows)
      | _ => Returned rows
      end
  end.

(** [output[xi] = x[i]], after the optional merge; an exception inside the
    [try] leaves [x] and [i] as they were. *)
Definition select_rows (iou_thres : Q) (merge : bool) (x : list cand6)
           (boxes : list box) (scores : list Q) (i : list nat)
  : option (list detection) :=
  let n := length x in
  let plain := mapM (fun k => option_map detection_of (nth_error x k)) i in
  if merge && (Nat.ltb 1 n && Nat.ltb n 3000) then
    match merge_nms iou_thres x boxes scores i with
    | Some rows => Some rows
    | None => plain
    end
  else plain.

(** [boxes, scores = x[:, :4] + c, x[:, 4]]. *)
Definition offset_boxes (agnostic : bool) (x : list cand6) : list box :=
  map (fun r => shift_box (d_cls r * (if agnostic then 0 else max_wh)) (d_box r)) x.

(** [i = nms(boxes, scores, iou_thres)], cut to [max_det] entries. *)
Definition kept_indices (iou_thres : Q) (boxes : list box) (scores : list Q)
  : list nat :=
  let i := nms boxes scores iou_thres in
  if Nat.ltb max_det (length i) then firstn max_det i else i.

(** The body of the loop for one image; [Returned None] is an image whose
    entry of [output] stays [None]. *)
Definition nms_image (nc : nat) (conf_thres iou_thres : Q) (merge : bool)
           (classes : option (list Z)) (agnostic : bool) (x : list pred)
  : outcome (option (list detection)) :=
  let x := filter (fun r => Qlt_bool conf_thres (p_obj r)) x in
  match x with
  | [] => Returned None
  | _ :: _ =>
      match candidates nc conf_thres classes x with
      | Raised => Raised
      | Returned [] => Returned None
      | Returned ((_ :: _) as x) =>
          let boxes := offset_boxes agnostic x in
          let scores := map d_conf x in
          let i := kept_indices iou_thres boxes scores in
          match select_rows iou_thres merge x boxes scores i with
          | Some rows => Returned (Some rows)
          | None => Raised
          end
      end
  end.

(** *** The batch

    [prediction] is a [bs x n x (5 + nc)] tensor: [nc] comes with its shape.
    The clock is read after each image that produced an output;
    [late xi] tells whether the time limit had passed at that reading. *)
Record prediction : Type :=
  mkprediction { pr_nc : nat; pr_images : list (list pred) }.

Definition prediction_wf (p : prediction) : Prop :=
  Forall (Forall (fun r => length (p_cls r) = pr_nc p)) (pr_images p).

Fixpoint nms_loop (late : nat -> bool) (nc : nat) (conf_thres iou_thres : Q)
         (merge : bool) (classes : option (list Z)) (agnostic : bool)
         (xi : nat) (images : list (list pred))
  : outcome (list (option (list detection))) :=
  match images with
  | [] => Returned []
  | x :: rest =>
      match nms_image nc conf_thres iou_thres merge classes agnostic x with
      | Raised => Raised
      | Returned o =>
          if match o with Some _ => late xi | None => false end
          then Returned (o :: map (fun _ => None) rest)
          else
            match nms_loop late nc conf_thres iou_thres merge classes agnostic
                           (S xi) rest with
            | Raised => Raised
            | Returned os => Returned (o :: os)
            end
      end
  end.

Definition non_max_suppression (late : nat -> bool) (p : prediction)
           (conf_thres iou_thres : Q) (merge : bool)
           (classes : option (list Z)) (agnostic : bool)
  : outcome (list (option (list detection))) :=
  match pr_images p with
  | [] => Raised
  | _ :: _ =>
      nms_loop late (pr_nc p) conf_thres iou_thres merge classes agnostic
               0 (pr_images p)
  end.

(** A confidence that is an objectness times a class score of a row of [x]. *)
Definition conf_of (x : list pred) (conf : Q) : Prop :=
  exists r s, In r x /\ In s (p_cls r) /\ conf = s * p_obj r.

(** ** The loss: [compute_loss] and [FocalLoss] *)

(** A layer prediction: a [bs x na x ny x nx x no] tensor, [no = 5 + nc]. *)
Definition tensor5 : Type := list (list (list (list (list Q)))).

Definition shape_of (t : tensor5) : list nat :=
  let t1 := nth 0 t [] in
  let t2 := nth 0 t1 [] in
  let t3 := nth 0 t2 [] in
  let t4 := nth 0 t3 [] in
  [length t; length t1; length t2; length t3; length t4].

(** Position and element selected by an integer index (negative indices
    count from the end, anything out of range raises). *)
Definition tensor_locate {A : Type} (l : list A) (i : Z) : option (nat * A) :=
  let k := if (0 <=? i)%Z then Some (Z.to_nat i)
           else if (- Z.of_nat (length l) <=? i)%Z
                then Some (Z.to_nat (Z.of_nat (length l) + i))
                else None in
  match k with
  | None => None
  | Some k => option_map (fun a => (k, a)) (nth_error l k)
  end.

Definition cell : Type := (nat * nat * nat * nat)%type.

(** [pi[b, a, gj, gi]]: the cell that is addressed and its row. *)
Definition locate (t : tensor5) (s : Z * Z * Z * Z) : option (cell * list Q) :=
  let '(b, a, gj, gi) := s in
  match tensor_locate t b with
  | None => None
  | Some (kb, t1) =>
      match tensor_locate t1 a with
      | None => None
      | Some (ka, t2) =>
          match tensor_locate t2 gj with
          | None => None
          | Some (kj, t3) =>
              option_map (fun kr => ((kb, ka, kj, fst kr), snd kr))
                         (tensor_locate t3 gi)
          end
      end
  end.

(** All cells of a tensor with their rows: what [pi[..., k]] ranges over. *)
Definition cells (t : tensor5) : list (cell * list Q) :=
  flat_map (fun bt =>
    flat_map (fun at_ =>
      flat_map (fun jt =>
        map (fun ir => ((fst bt, fst at_, fst jt, fst ir), snd ir))
            (enumerate (snd jt)))
        (enumerate (snd at_)))
      (enumerate (snd bt)))
    (enumerate t).

Definition cell_eqb (c d : cell) : bool :=
  let '(c1, c2, c3, c4) := c in
  let '(d1, d2, d3, d4) := d in
  Nat.eqb c1 d1 && Nat.eqb c2 d2 && Nat.eqb c3 d3 && Nat.eqb c4 d4.

(** [tobj = zeros_like(pi[..., 0])] after [tobj[b, a, gj, gi] = values]:
    the last value written to a cell stays. *)
Definition tobj_at (writes : list (cell * fl)) (c : cell) : fl :=
  fold_left (fun v w => if cell_eqb c (fst w) then snd w else v) writes (Fin 0).

(** The (b, a, gj, gi) tuples of a layer. *)
Definition slots (lt : layer_targets) : list (Z * Z * Z * Z) :=
  map (fun s => (fst (fst s), snd (fst s), fst (snd s), snd (snd s)))
      (combine (combine (idx_b lt) (idx_a lt)) (combine (idx_gj lt) (idx_gi lt))).

Definition box_of (t : Q * Q * Q * Q) : box :=
  let '(x, y, w, h) := t in {| c0 := x; c1 := y; c2 := w; c3 := h |}.

Definition fsum (l : list fl) : fl := fold_right fadd (Fin 0) l.

(** [x.mean()]. *)
Definition fmean (l : list fl) : fl := fdiv (fsum l) (Fin (Qofnat (length l))).

(** Hyperparameters [model.hyp] and the model attributes that are read. *)
Record hyp : Type :=
  mkhyp { h_giou : Q; h_obj : Q; h_cls : Q; h_cls_pw : Q; h_obj_pw : Q;
          h_fl_gamma : Q; h_anchor_t : Q }.

Record model : Type :=
  mkmodel { m_hyp : hyp; m_gr : Q; m_nc : nat; m_det : Detect }.

(** What the function returns: the scaled total and the detached
    (lbox, lobj, lcls, loss). *)
Record loss_out : Type :=
  mkloss { total : fl; out_lbox : fl; out_lobj : fl; out_lcls : fl; out_loss : fl }.

(** [smooth_BCE(eps)]. *)
Definition smooth_BCE (eps : Q) : Q * Q := (1 - (1 # 2) * eps, (1 # 2) * eps).

Section Loss.

(** Library functions: [torch.sigmoid], [torch.atan], [math.pi], one element
    of [nn.BCEWithLogitsLoss(pos_weight)(x, target)] before reduction, and
    [x ** gamma]. *)
Variable sigmoid : Q -> Q.
Variable atan : fl -> fl.
Variable pi : Q.
Variable bce_with_logits : Q -> Q -> fl -> fl.
Variable fpow : fl -> Q -> fl.

(** One element of [FocalLoss.forward] before reduction (alpha = 0.25). *)
Definition focal_elem (gamma pos_weight x : Q) (t : fl) : fl :=
  let loss := bce_with_logits pos_weight x t in
  let pred_prob := Fin (sigmoid x) in
  let p_t := fadd (fmul t pred_prob) (fmul (fsub (Fin 1) t) (fsub (Fin 1) pred_prob)) in
  let alpha_factor :=
      fadd (fmul t (Fin (1 # 4))) (fmul (fsub (Fin 1) t) (Fin (1 - (1 # 4)))) in
  let modulating_factor := fpow (fsub (Fin 1) p_t) gamma in
  fmul loss (fmul alpha_factor modulating_factor).

(** [FocalLoss(loss_fcn, gamma).forward(pred, true)], reduction 'mean';
    [pairs] lists the elements of [pred] with those of [true]. *)
Definition FocalLoss_forward (gamma pos_weight : Q) (pairs : list (Q * fl)) : fl :=
  fmean (map (fun xt => focal_elem gamma pos_weight (fst xt) (snd xt)) pairs).

(** [nn.BCEWithLogitsLoss(pos_weight)(pred, true)], reduction 'mean'. *)
Definition BCEWithLogitsLoss (pos_weight : Q) (pairs : list (Q * fl)) : fl :=
  fmean (map (fun xt => bce_with_logits pos_weight (fst xt) (snd xt)) pairs).

(** [BCEcls] and [BCEobj]: wrapped in [FocalLoss] when [fl_gamma > 0]. *)
Definition criterion (gamma pos_weight : Q) (pairs : list (Q * fl)) : fl :=
  if Qlt_bool 0 gamma
  then FocalLoss_forward gamma pos_weight pairs
  else BCEWithLogitsLoss pos_weight pairs.

(** [pbox]: the decoded prediction (pxy, pwh) of one row. *)
Definition decode_box (row : list Q) (anchor : Q * Q) : box :=
  {| c0 := sigmoid (nth 0 row 0) * 2 - (1 # 2);
     c1 := sigmoid (nth 1 row 0) * 2 - (1 # 2);
     c2 := Qsqr (sigmoid (nth 2 row 0) * 2) * fst anchor;
     c3 := Qsqr (sigmoid (nth 3 row 0) * 2) * snd anchor |}.

(** [giou = bbox_iou(pbox.T, tbox[i], x1y1x2y2=False, CIoU=True)]. *)
Definition layer_giou (ps : list (list Q)) (lt : layer_targets) : list fl :=
  map (fun pat => bbox_iou1 atan pi false false false true
                            (decode_box (fst (fst pat)) (snd (fst pat)))
                            (box_of (snd pat)))
      (combine (combine ps (anch lt)) (tbox lt)).

(** The target rows of the classification loss: [cn] everywhere, [cp] at
    the class of the assignment. *)
Definition cls_target (cp cn : Q) (logits : list Q) (c : Z)
  : option (list (Q * fl)) :=
  match tensor_locate logits c with
  | None => None
  | Some (k, _) =>
      Some (map (fun jx => (snd jx, Fin (if Nat.eqb (fst jx) k then cp else cn)))
                (enumerate logits))
  end.

(** The body of [for i, pi in enumerate(p)]. *)
Definition layer_loss (m : model) (pi_ : tensor5) (lt : layer_targets) (balance_i : Q)
           (acc : fl * fl * fl) : outcome (fl * fl * fl) :=
  let '(lcls, lbox, lobj) := acc in
  let h := m_hyp m in
  let n := length (idx_b lt) in
  let positives :=
      if negb (Nat.eqb n 0) then
        match mapM (locate pi_) (slots lt) with
        | None => Raised
        | Some found =>
            let ps := map snd found in
            let giou := layer_giou ps lt in
            let lbox := fadd lbox (fmean (map (fun g => fsub (Fin 1) g) giou)) in
            let writes :=
                combine (map fst found)
                        (map (fun g => fadd (Fin (1 - m_gr m))
                                            (fmul (Fin (m_gr m)) (fmax g (Fin 0))))
                             giou) in
            if Nat.ltb 1 (m_nc m) then
              let '(cp, cn) := smooth_BCE 0 in
              match mapM (fun rc => cls_target cp cn (skipn 5 (fst rc)) (snd rc))
                         (combine ps (tcls lt)) with
              | None => Raised
              | Some t =>
                  Returned (fadd lcls (criterion (h_fl_gamma h) (h_cls_pw h) (concat t)),
                            lbox, writes)
              end
            else Returned (lcls, lbox, writes)
        end
      else Returned (lcls, lbox, []) in
  match positives with
  | Raised => Raised
  | Returned (lcls, lbox, writes) =>
      let obj_pairs :=
          map (fun cr => (nth 4 (snd cr) 0, tobj_at writes (fst cr))) (cells pi_) in
      Returned (lcls, lbox,
                fadd lobj (fmul (criterion (h_fl_gamma h) (h_obj_pw h) obj_pairs)
                                (Fin balance_i)))
  end.

(** The loop over the layers: [indices[i]] and [balance[i]] must exist. *)
Fixpoint loss_layers (m : model) (p : list tensor5) (layers : list layer_targets)
         (balance : list Q) (acc : fl * fl * fl) : outcome (fl * fl * fl) :=
  match p with
  | [] => Returned acc
  | pi_ :: p' =>
      match layers, balance with
      | lt :: layers', b :: balance' =>
          match layer_loss m pi_ lt b acc with
          | Raised => Raised
          | Returned acc' => loss_layers m p' layers' balance' acc'
          end
      | _, _ => Raised
      end
  end.

(** [compute_loss(p, targets, model, imgs)].  Of [imgs] only the number of
    images matters here: [vis_match] draws, and for every image it reads the
    first three layers of [p] and of the targets. *)
Definition compute_loss (p : list tensor5) (targets : list target) (m : model)
           (n_imgs : nat) : outcome loss_out :=
  match build_targets (map shape_of p) targets (m_det m) (h_anchor_t (m_hyp m)) with
  | None => Raised
  | Some layers =>
      if negb (Nat.eqb n_imgs 0) && (Nat.ltb (length p) 3 || Nat.ltb (length layers) 3)
      then Raised
      else
        let h := m_hyp m in
        let np := length p in
        let balance := if Nat.eqb np 3 then [4; 1; 4 # 10] else [4; 1; 4 # 10; 1 # 10] in
        match loss_layers m p layers balance (Fin 0, Fin 0, Fin 0) with
        | Raised => Raised
        | Returned (lcls, lbox, lobj) =>
            match rev p with
            | [] => Raised
            | last_pi :: _ =>
                let s := 3 / Qofnat np in
                let lbox := fmul lbox (Fin (h_giou h * s)) in
                let lobj := fmul lobj (Fin (h_obj h * s *
                                            (if Nat.eqb np 4 then 14 # 10 else 1))) in
                let lcls := fmul lcls (Fin (h_cls h * s)) in
                let bs := length last_pi in
                let loss := fadd (fadd lbox lobj) lcls in
                Returned {| total := fmul loss (Fin (Qofnat bs));
                            out_lbox := lbox; out_lobj := lobj; out_lcls := lcls;
                            out_loss := loss |}
            end
        end
  end.

(** An assignment of a layer whose predicted width and height logits are
    sent to 0 by the sigmoid. *)
Definition saturated (pi_ : tensor5) (lt : layer_targets) : Prop :=
  exists found row anchor tb,
    mapM (locate pi_) (slots lt) = Some found /\
    In (row, anchor, tb) (combine (combine (map snd found) (anch lt)) (tbox lt)) /\
    sigmoid (nth 2 row 0) = 0 /\ sigmoid (nth 3 row 0) = 0.

End Loss.

(** ** Image sizes, clipping and rescaling *)

(** [make_divisible(x, divisor)]: [math.ceil(x / divisor) * divisor].  The
    divisor is an integer; a zero divisor raises. *)
Definition make_divisible (x : Q) (divisor : Z) : option Z :=
  if (divisor =? 0)%Z then None
  else Some (Qceiling (x / inject_Z divisor) * divisor)%Z.

(** [check_img_size(img_size, s)]: the new size, and whether the warning
    was printed. *)
Definition check_img_size (img_size s : Q) : option (Z * bool) :=
  match make_divisible img_size (Qtrunc s) with
  | None => None
  | Some new_size =>
      Some (new_size, negb (Qeq_bool (inject_Z new_size) img_size))
  end.

(** A row of box coordinates that may have gone through a division. *)
Record fbox : Type := mkfbox { f0 : fl; f1 : fl; f2 : fl; f3 : fl }.

Definition fbox_of (b : box) : fbox :=
  {| f0 := Fin (c0 b); f1 := Fin (c1 b); f2 := Fin (c2 b); f3 := Fin (c3 b) |}.

Definition fbox_eq (a b : fbox) : Prop :=
  feq (f0 a) (f0 b) /\ feq (f1 a) (f1 b) /\ feq (f2 a) (f2 b) /\ feq (f3 a) (f3 b).

(** [x.clamp_(lo, hi)] is [min(max(x, lo), hi)]: with [lo > hi] everything
    becomes [hi], and NaN stays NaN. *)
Definition fclamp (lo hi : Q) (x : fl) : fl := fmin (fmax x (Fin lo)) (Fin hi).

(** [clip_coords(boxes, img_shape)]; [img_shape] is (height, width, ...). *)
Definition clip_coords_row (img_shape : Z * Z) (b : fbox) : fbox :=
  {| f0 := fclamp 0 (inject_Z (snd img_shape)) (f0 b);
     f1 := fclamp 0 (inject_Z (fst img_shape)) (f1 b);
     f2 := fclamp 0 (inject_Z (snd img_shape)) (f2 b);
     f3 := fclamp 0 (inject_Z (fst img_shape)) (f3 b) |}.

Definition clip_coords (boxes : list fbox) (img_shape : Z * Z) : list fbox :=
  map (clip_coords_row img_shape) boxes.

(** [gain] and [pad] as [scale_coords] computes them when [ratio_pad] is
    [None]; the shapes are tuples of Python integers, (height, width). *)
Definition scale_gain (img1_shape img0_shape : Z * Z) : Q :=
  Qmin (inject_Z (fst img1_shape) / inject_Z (fst img0_shape))
       (inject_Z (snd img1_shape) / inject_Z (snd img0_shape)).

Definition scale_pad (img1_shape img0_shape : Z * Z) : Q * Q :=
  let gain := scale_gain img1_shape img0_shape in
  ((inject_Z (snd img1_shape) - inject_Z (snd img0_shape) * gain) / 2,
   (inject_Z (fst img1_shape) - inject_Z (fst img0_shape) * gain) / 2).

(** The two in-place updates of a row before it is clipped. *)
Definition unpad_row (gain : Q) (pad : Q * Q) (b : fbox) : fbox :=
  {| f0 := fdiv (fsub (f0 b) (Fin (fst pad))) (Fin gain);
     f1 := fdiv (fsub (f1 b) (Fin (snd pad))) (Fin gain);
     f2 := fdiv (fsub (f2 b) (Fin (fst pad))) (Fin gain);
     f3 := fdiv (fsub (f3 b) (Fin (snd pad))) (Fin gain) |}.

(** [scale_coords(img1_shape, coords, img0_shape, ratio_pad)].  Dividing two
    Python integers raises when the divisor is zero; dividing the tensor by
    [gain] does not.  [ratio_pad] is ((ratio, ratio), (dw, dh)). *)
Definition scale_coords (img1_shape : Z * Z) (coords : list fbox)
           (img0_shape : Z * Z) (ratio_pad : option ((Q * Q) * (Q * Q)))
  : option (list fbox) :=
  let gp :=
      match ratio_pad with
      | None =>
          if ((fst img0_shape =? 0) || (snd img0_shape =? 0))%Z then None
          else Some (scale_gain img1_shape img0_shape,
                     scale_pad img1_shape img0_shape)
      | Some rp => Some (fst (fst rp), snd rp)
      end in
  match gp with
  | None => None
  | Some (gain, pad) =>
      Some (clip_coords (map (unpad_row gain pad) coords) img0_shape)
  end.

(** A coordinate that is a number between two bounds. *)
Definition fl_within (lo hi : Q) (x : fl) : Prop :=
  match x with
  | Fin q => lo <= q <= hi
  | _ => False
  end.

Definition fbox_within (img_shape : Z * Z) (b : fbox) : Prop :=
  fl_within 0 (inject_Z (snd img_shape)) (f0 b) /\
  fl_within 0 (inject_Z (fst img_shape)) (f1 b) /\
  fl_within 0 (inject_Z (snd img_shape)) (f2 b) /\
  fl_within 0 (inject_Z (fst img_shape)) (f3 b).

(** The image of a box under [x -> x * gain + pad], the map that
    [scale_coords] undoes. *)
Definition pad_row (gain : Q) (pad : Q * Q) (b : box) : fbox :=
  {| f0 := Fin (c0 b * gain + fst pad); f1 := Fin (c1 b * gain + snd pad);
     f2 := Fin (c2 b * gain + fst pad); f3 := Fin (c3 b * gain + snd pad) |}.

(** ** From detections back to target rows: [output_to_target] *)

(** A row [batch_id, class_id, x, y, w, h, conf]. *)
Record target7 : Type :=
  mktarget7 { g_img : nat; g_cls : Z; g_x : fl; g_y : fl; g_w : fl; g_h : fl;
              g_conf : Q }.

(** The body of the inner loop for the detection [pred] of image [i]. *)
Definition target_row (width height : Q) (i : nat) (pred : detection) : target7 :=
  let w := fdiv (fsub (o_x2 pred) (o_x1 pred)) (Fin width) in
  let h := fdiv (fsub (o_y2 pred) (o_y1 pred)) (Fin height) in
  let x := fadd (fdiv (o_x1 pred) (Fin width)) (fdiv w (Fin 2)) in
  let y := fadd (fdiv (o_y1 pred) (Fin height)) (fdiv h (Fin 2)) in
  {| g_img := i; g_cls := Qtrunc (o_cls pred); g_x := x; g_y := y;
     g_w := w; g_h := h; g_conf := o_conf pred |}.

(** [output_to_target(output, width, height)]: entries that are [None] are
    skipped, their index is not. *)
Definition output_to_target (output : list (option (list detection)))
           (width height : Q) : list target7 :=
  flat_map (fun io => match snd io with
                      | Some o => map (target_row width height (fst io)) o
                      | None => []
                      end)
           (enumerate output).

(** [xywhToxyxy(bbox)], the numpy twin of [xywh2xyxy]. *)
Definition xywhToxyxy (bbox : list box) : list box :=
  map (fun b => {| c0 := c0 b - c2 b / 2; c1 := c1 b - c3 b / 2;
                   c2 := c0 b + c2 b / 2; c3 := c1 b + c3 b / 2 |}) bbox.

(** The corners described by a target row, in pixels. *)
Definition target_corners (width height : Q) (t : target7) : fbox :=
  {| f0 := fmul (fsub (g_x t) (fdiv (g_w t) (Fin 2))) (Fin width);
     f1 := fmul (fsub (g_y t) (fdiv (g_h t) (Fin 2))) (Fin height);
     f2 := fmul (fadd (g_x t) (fdiv (g_w t) (Fin 2))) (Fin width);
     f3 := fmul (fadd (g_y t) (fdiv (g_h t) (Fin 2))) (Fin height) |}.

Definition detection_box (d : detection) : fbox :=
  {| f0 := o_x1 d; f1 := o_y1 d; f2 := o_x2 d; f3 := o_y2 d |}.

Definition finite_box (b : fbox) : Prop :=
  is_finite (f0 b) = true /\ is_finite (f1 b) = true /\
  is_finite (f2 b) = true /\ is_finite (f3 b) = true.

(** A coordinate after clamping: NaN, or a number between the bounds. *)
Definition fl_clipped (lo hi : Q) (x : fl) : Prop := x = NaN \/ fl_within lo hi x.

Definition fbox_clipped (img_shape : Z * Z) (b : fbox) : Prop :=
  fl_clipped 0 (inject_Z (snd img_shape)) (f0 b) /\
  fl_clipped 0 (inject_Z (fst img_shape)) (f1 b) /\
  fl_clipped 0 (inject_Z (snd img_shape)) (f2 b) /\
  fl_clipped 0 (inject_Z (fst img_shape)) (f3 b).

(** The number of detections in the entries of [output] that are not
    [None]. *)
Definition detection_count (output : list (option (list detection))) : nat :=
  list_sum (map (fun o => match o with Some o => length o | None => 0%nat end) output).

(** ** Anchors against labels: [metric] of [check_anchors] *)

(** [torch.min(r, 1. / r)] for one ratio [r = wh / k]. *)
Definition ratio_min (wh k : Q) : fl :=
  let r := qdiv wh k in fmin r (fdiv (Fin 1) r).

(** One element of [x = torch.min(r, 1. / r).min(2)[0]]: a label of size
    [wh] against the anchor [k]. *)
Definition anchor_fit (wh k : Q * Q) : fl :=
  fmin (ratio_min (fst wh) (fst k)) (ratio_min (snd wh) (snd k)).

(** [(c).float()] for one element. *)
Definition indicator (b : bool) : fl := Fin (if b then 1 else 0).

(** [x.max(1)[0]] for one row; there is no maximum over no anchors. *)
Definition fmax_row (row : list fl) : option fl :=
  match row with
  | [] => None
  | v :: row' => Some (fold_left fmax row' v)
  end.

(** [metric(k)]: the pair (bpr, aat) for the label sizes [wh], the anchors
    [k] and the threshold [thr].  [1. / thr] divides Python floats and
    raises for [thr = 0]. *)
Definition anchor_metric (thr : Q) (wh k : list (Q * Q)) : option (fl * fl) :=
  let x := map (fun s => map (anchor_fit s) k) wh in
  match k with
  | [] => None
  | _ :: _ =>
      match mapM fmax_row x with
      | None => None
      | Some best =>
          if Qeq_bool thr 0 then None
          else
            let above (v : fl) := indicator (fgt v (Fin (1 / thr))) in
            let aat := fmean (map (fun row => fsum (map above row)) x) in
            let bpr := fmean (map above best) in
            Some (bpr, aat)
      end
  end.

(** A candidate row of [build_targets] with the given size, in the units of
    the anchors. *)
Definition size_cand (s : Q * Q) : cand :=
  {| k_img := 0; k_cls := 0; k_x := 0; k_y := 0; k_w := fst s; k_h := snd s;
     k_a := 0 |}.

Definition positive_size (s : Q * Q) : Prop := 0 < fst s /\ 0 < snd s.

(** ** Anchor order against stride order: [check_anchor_order] *)

(** The attributes of the [Detect()] module that are read and written:
    [anchors] (nl x na x 2), [anchor_grid] (the same anchors in pixels) and
    [stride]. *)
Record DetectHead : Type :=
  mkDetectHead { dh_anchors : list (list (Q * Q));
                 dh_anchor_grid : list (list (Q * Q));
                 dh_stride : list Q }.

(** [x.sign()]. *)
Definition Qsign (q : Q) : Z := Z.sgn (Qnum q).

Definition anchor_area (wh : Q * Q) : Q := fst wh * snd wh.

(** [m.anchor_grid.prod(-1).view(-1)]. *)
Definition anchor_areas (grid : list (list (Q * Q))) : list Q :=
  map anchor_area (concat grid).

(** [check_anchor_order(m)]: the module after the call and whether the
    order was reversed; [a[0]] and [m.stride[0]] raise when there is no
    anchor or no stride. *)
Definition check_anchor_order (m : DetectHead) : option (DetectHead * bool) :=
  let a := anchor_areas (dh_anchor_grid m) in
  match a, rev a, dh_stride m, rev (dh_stride m) with
  | a0 :: _, alast :: _, s0 :: _, slast :: _ =>
      let da := alast - a0 in
      let ds := slast - s0 in
      if negb (Z.eqb (Qsign da) (Qsign ds))
      then Some ({| dh_anchors := rev (dh_anchors m);
                    dh_anchor_grid := rev (dh_anchor_grid m);
                    dh_stride := dh_stride m |}, true)
      else Some (m, false)
  | _, _, _, _ => None
  end.

(** Every anchor of the layer [F] is smaller in area than every anchor of
    the layer [L]. *)
Definition layer_below (F L : list (Q * Q)) : Prop :=
  forall f l, In f F -> In l L -> anchor_area f < anchor_area l.

(** ** Class weights from labels: [labels_to_class_weights] *)

(** One row [class, x, y, w, h] of a label array. *)
Record label : Type := mklabel { lb_cls : Q; lb_box : box }.

(** [np.bincount(classes, minlength)]: occurrences of 0, 1, ... up to the
    largest entry, at least [minlength] bins; a negative entry raises. *)
Definition bincount (classes : list Z) (minlength : nat) : option (list nat) :=
  if existsb (fun c => (c <? 0)%Z) classes then None
  else
    let n := Nat.max minlength (list_max (map (fun c => S (Z.to_nat c)) classes)) in
    Some (map (fun k => count_occ Z.eq_dec classes (Z.of_nat k)) (seq 0 n)).

(** [labels[:, 0].astype(np.int)] of the concatenated arrays. *)
Definition label_classes (arrays : list (list label)) : list Z :=
  map (fun l => Qtrunc (lb_cls l)) (concat arrays).

(** [labels_to_class_weights(labels, nc)].  [labels] holds one array per
    image, or [None] where nothing was loaded: with [labels[0] is None] the
    result is the empty tensor, an empty list has no [labels[0]], and
    [np.concatenate] rejects a [None] further on. *)
Definition labels_to_class_weights (labels : list (option (list label))) (nc : nat)
  : option (list Q) :=
  match labels with
  | [] => None
  | None :: _ => Some []
  | Some _ :: _ =>
      match mapM (fun l => l) labels with
      | None => None
      | Some arrays =>
          match bincount (label_classes arrays) nc with
          | None => None
          | Some weights =>
              let weights := map (fun w => if Nat.eqb w 0 then 1%nat else w) weights in
              let weights := map (fun w => 1 / Qofnat w) weights in
              let s := Qsum weights in
              Some (map (fun w => w / s) weights)
          end
      end
  end.

(** Number of labels of class [k]. *)
Definition class_count (arrays : list (list label)) (k : nat) : nat :=
  count_occ Z.eq_dec (label_classes arrays) (Z.of_nat k).

(** ** The class offset in single precision

    Elsewhere a float is read as the number it stands for.  The sum
    [x[:, :4] + c] of [non_max_suppression] is the one place where the size
    of an operand (up to [nc * 4096]) brings the 24-bit significand of a
    float32 up to the scale of a pixel, so this sum is also given with its
    rounding (normal range, no overflow). *)

(** The binary exponent [e] of a number that is not zero:
    [2^e <= |q| < 2^(e+1)]. *)
Definition binary_exponent (q : Q) : Z :=
  if Qle_bool 1 (Qabs q) then Z.log2 (Qfloor (Qabs q))
  else (- Z.log2_up (Qceiling (/ Qabs q)))%Z.

(** The nearest integer, ties to the even one. *)
Definition round_half_even (q : Q) : Z :=
  let f := Qfloor q in
  let r := q - inject_Z f in
  if Qlt_bool r (1 # 2) then f
  else if Qlt_bool (1 # 2) r then (f + 1)%Z
  else if Z.even f then f else (f + 1)%Z.

(** The float32 nearest to [q]: 24 significant bits. *)
Definition round32 (q : Q) : Q :=
  if Qeq_bool q 0 then 0
  else let u := 2 ^ (binary_exponent q - 23) in
       inject_Z (round_half_even (q / u)) * u.

(** [x[:, :4] + c] in float32. *)
Definition shift_box32 (c : Q) (b : box) : box :=
  {| c0 := round32 (c0 b + c); c1 := round32 (c1 b + c);
     c2 := round32 (c2 b + c); c3 := round32 (c3 b + c) |}.

(** [c = x[:, 5:6] * (0 if agnostic else max_wh)] and [boxes = x[:, :4] + c]
    in float32. *)
Definition offset_boxes32 (agnostic : bool) (x : list cand6) : list box :=
  map (fun r => shift_box32 (round32 (d_cls r * (if agnostic then 0 else max_wh)))
                            (d_box r)) x.

(** A multiple of [2^-k], and a box whose four coordinates are such. *)
Definition on_grid (k : Z) (q : Q) : bool :=
  Qeq_bool (inject_Z (Qfloor (q * inject_Z (2 ^ k)))) (q * inject_Z (2 ^ k)).

Definition box_on_grid (k : Z) (b : box) : bool :=
  on_grid k (c0 b) && on_grid k (c1 b) && on_grid k (c2 b) && on_grid k (c3 b).

(** ** Predicates used in the statements *)

(** All four coordinates of a corner box lie between 0 and [m]. *)
Definition coords_within (m : Q) (b : box) : Prop :=
  (0 <= c0 b /\ c0 b <= m) /\ (0 <= c1 b /\ c1 b <= m) /\
  (0 <= c2 b /\ c2 b <= m) /\ (0 <= c3 b /\ c3 b <= m).

(** Two candidate rows whose classes are different integers. *)
Definition distinct_classes (r1 r2 : cand6) : Prop :=
  exists k1 k2 : Z,
    d_cls r1 == inject_Z k1 /\ d_cls r2 == inject_Z k2 /\ k1 <> k2.

(** A ground truth whose centre is not left of or above the image, and one
    whose centre lies inside the image (normalised coordinates). *)
Definition centre_nonneg (t : target) : Prop := 0 <= t_x t /\ 0 <= t_y t.

Definition centre_in_image (t : target) : Prop :=
  (0 <= t_x t /\ t_x t < 1) /\ (0 <= t_y t /\ t_y t < 1).

(** The half-open range of the box offsets that [compute_loss] can decode:
    [sigmoid * 2 - 0.5] of a value strictly between 0 and 1. *)
Definition decodable (d : Q) : Prop := - (1 # 2) < d /\ d < 3 # 2.

(** The class of a returned row is one of the requested classes. *)
Definition class_in (classes : list Z) (d : detection) : Prop :=
  exists c, In c classes /\ o_cls d == inject_Z c.

(** Rows in order of non-increasing confidence. *)
Definition conf_not_below (d1 d2 : detection) : Prop := o_conf d2 <= o_conf d1.

(** A value between 0 and 1, and a recall curve as [ap_per_class] builds
    it: values between 0 and 1 that never decrease. *)
Definition unit_interval (q : Q) : Prop := 0 <= q /\ q <= 1.

Definition recall_curve (recall : list Q) : Prop :=
  Sorted Qle recall /\ Forall unit_interval recall.

(** A layer prediction that is a full [bs x na x ny x nx x no] tensor. *)
Definition rectangular (bs na ny nx no : nat) (t : tensor5) : Prop :=
  length t = bs /\
  Forall (fun img =>
    length img = na /\
    Forall (fun anc =>
      length anc = ny /\
      Forall (fun row =>
        length row = nx /\
        Forall (fun cell => length cell = no) row) anc) img) t.

(** A ground truth that belongs to a batch of [bs] images with [nc]
    classes: centre inside the image, image index and class in range. *)
Definition target_in_batch (bs nc : nat) (t : target) : Prop :=
  centre_in_image t /\
  (0 <= t_img t /\ t_img t < Qofnat bs) /\
  (0 <= t_cls t /\ t_cls t < Qofnat nc).

(** The width-to-height ratio that the CIoU term hands to [torch.atan]. *)
Definition aspect (b : box) : fl := qdiv (c2 b - c0 b) (c3 b - c1 b).

(** Four coordinates that are numbers inside the rectangle [rect]. *)
Definition fbox_in_rect (rect : box) (b : fbox) : Prop :=
  fl_within (c0 rect) (c2 rect) (f0 b) /\ fl_within (c1 rect) (c3 rect) (f1 b) /\
  fl_within (c0 rect) (c2 rect) (f2 b) /\ fl_within (c1 rect) (c3 rect) (f3 b).

(** ** Concrete inputs used by the examples *)

(** One layer with an 8 x 8 grid and three anchors. *)
Definition ex_det : Detect := mkDetect 1 3 [[(1, 1); (2, 2); (10, 10)]].
Definition ex_p : list (list nat) := [[1; 3; 8; 8; 6]%nat].

(** A ground truth of one grid unit centred at (2.5, 2.5), and one centred at
    the grid point (2, 2): x = y = 0.25 of an 8 x 8 grid. *)
Definition ex_gt_centre : target := mktarget 0 0 (5 # 16) (5 # 16) (1 # 8) (1 # 8).
Definition ex_gt_corner : target := mktarget 0 0 (1 # 4) (1 # 4) (1 # 8) (1 # 8).

Definition ex_outs_centre : list layer_targets :=
  Eval vm_compute in
    match build_targets ex_p [ex_gt_centre] ex_det 4 with
    | Some outs => outs
    | None => []
    end.

Definition ex_layer_centre : layer_targets :=
  Eval vm_compute in nth 0 ex_outs_centre no_assignment.

(** The same grid with a single anchor. *)
Definition ex_det1 : Detect := mkDetect 1 1 [[(1, 1)]].

(** Stand-ins for the library's [atan] and [pi] where an example needs
    some value for them. *)
Definition ex_atan (a : fl) : fl :=
  match a with
  | Fin q => Fin (q / (1 + Qabs q))
  | PInf => Fin 1
  | NInf => Fin (- 1)
  | NaN => NaN
  end.

Definition ex_pi : Q := 355 # 113.

(** Boxes used by the IoU examples: a box of area 1e-16, the unit box and a
    unit box two units to its right, a box without area. *)
Definition ex_tiny_box : box := mkbox 0 0 (1 # 100000000) (1 # 100000000).
Definition ex_unit_box : box := mkbox 0 0 1 1.
Definition ex_far_box : box := mkbox 2 0 3 1.
Definition ex_point_box : box := mkbox 0 0 0 0.

(** Three single-class predictions in a row, each overlapping the next. *)
Definition ex_pred_A : pred := mkpred (mkbox 5 5 10 10) (9 # 10) [1].
Definition ex_pred_B : pred := mkpred (mkbox 7 5 10 10) (8 # 10) [1].
Definition ex_pred_C : pred := mkpred (mkbox 9 5 10 10) (7 # 10) [1].

Definition ex_prediction : prediction :=
  mkprediction 1 [[ex_pred_A; ex_pred_B; ex_pred_C]].

Definition ex_never_late (xi : nat) : bool := false.

Definition ex_nms_outs : list (option (list detection)) :=
  Eval vm_compute in
    match non_max_suppression ex_never_late ex_prediction (1 # 10) (1 # 2)
                              false None false with
    | Returned outs => outs
    | Raised => []
    end.

Definition ex_nms_rows : list detection :=
  Eval vm_compute in
    match ex_nms_outs with
    | Some rows :: _ => rows
    | _ => []
    end.

(** A one-image batch for [compute_loss]: three layers with grids 4 x 4,
    2 x 2 and 1 x 1, one anchor each, one class; the ground truth sits in
    the middle of cell (1, 1) of the first grid and matches its anchor only.
    Every raw output is 0 except the width and height logits of the matched
    slot, which are -200. *)
Definition ex_zero_row : list Q := [0; 0; 0; 0; 0; 0].
Definition ex_sat_row : list Q := [0; 0; - 200; - 200; 0; 0].

Definition ex_p3 : list tensor5 :=
  [ [[ [[ex_zero_row; ex_zero_row; ex_zero_row; ex_zero_row];
        [ex_zero_row; ex_sat_row; ex_zero_row; ex_zero_row];
        [ex_zero_row; ex_zero_row; ex_zero_row; ex_zero_row];
        [ex_zero_row; ex_zero_row; ex_zero_row; ex_zero_row]] ]];
    [[ [[ex_zero_row; ex_zero_row]; [ex_zero_row; ex_zero_row]] ]];
    [[ [[ex_zero_row]] ]] ].

Definition ex_gt_loss : target := mktarget 0 0 (3 # 8) (3 # 8) (1 # 4) (1 # 4).

Definition ex_hyp : hyp := mkhyp (5 # 100) 1 (1 # 2) 1 1 0 4.

Definition ex_model : model :=
  mkmodel ex_hyp 1 1 (mkDetect 3 1 [[(1, 1)]; [(4, 4)]; [(8, 8)]]).

Definition ex_layers3 : list layer_targets :=
  Eval vm_compute in
    match build_targets (map shape_of ex_p3) [ex_gt_loss] (m_det ex_model) 4 with
    | Some layers => layers
    | None => []
    end.

(** Stand-ins for the remaining library functions: a sigmoid that, like the
    float one, is exactly 0 far to the left and exactly 1 far to the right,
    the part of the cross entropy that needs no logarithm, and a power
    function. *)
Definition ex_sigmoid (x : Q) : Q :=
  if Qle_bool x (- 104) then 0
  else if Qle_bool 17 x then 1
  else (1 # 2) + x / (2 * (1 + Qabs x)).

Definition ex_bce (pos_weight x : Q) (t : fl) : fl :=
  fsub (Fin (Qmax x 0)) (fmul (Fin x) t).

Definition ex_pow (b : fl) (g : Q) : fl := b.

Definition ex_nms_first : detection :=
  Eval vm_compute in
    match ex_nms_rows with
    | d :: _ => d
    | [] => mkdetection NaN NaN NaN NaN 0 0
    end.

(** A 480 x 640 image letterboxed into 640 x 640, and rows partly outside. *)
Definition ex_img0 : Z * Z := (480, 640)%Z.
Definition ex_img1 : Z * Z := (640, 640)%Z.
Definition ex_fboxes : list fbox :=
  [mkfbox (Fin (- 5)) (Fin 3) PInf (Fin 700); mkfbox (Fin 1) (Fin 2) (Fin 3) NaN].
Definition ex_inside_box : box := mkbox 10 20 630 470.

(** The output of a batch of three images, the second without detections. *)
Definition ex_output : list (option (list detection)) :=
  [Some [mkdetection (Fin 10) (Fin 20) (Fin 110) (Fin 220) (9 # 10) 3];
   None;
   Some [mkdetection (Fin 0) (Fin 0) (Fin 64) (Fin 48) (1 # 2) 0;
         mkdetection NaN NaN NaN NaN (1 # 4) 1]].

(** Two rows of different classes inside a 4096-pixel image, and two whose
    boxes reach beyond it. *)
Definition ex_row_cls0 : cand6 := mkcand6 (mkbox 10 10 50 50) (9 # 10) 0.
Definition ex_row_cls1 : cand6 := mkcand6 (mkbox 10 10 50 50) (8 # 10) 1.
Definition ex_row_cls1' : cand6 := mkcand6 (mkbox 30 10 70 50) (7 # 10) 1.
Definition ex_row_far0 : cand6 := mkcand6 (mkbox 4096 4096 8192 4196) (9 # 10) 0.
Definition ex_row_far1 : cand6 := mkcand6 (mkbox 0 0 4096 100) (8 # 10) 1.

(** Label sizes and anchors in pixels. *)
Definition ex_label_sizes : list (Q * Q) := [(10, 20); (100, 30); (400, 8)].
Definition ex_anchor_sizes : list (Q * Q) := [(10, 13); (30, 61); (116, 90)].

(** The assignments of the ground truth centred on the grid point (2, 2). *)
Definition ex_outs_corner : list layer_targets :=
  Eval vm_compute in
    match build_targets ex_p [ex_gt_corner] ex_det1 4 with
    | Some outs => outs
    | None => []
    end.

Definition ex_layer_corner : layer_targets :=
  Eval vm_compute in nth 0 ex_outs_corner no_assignment.

(** A batch of two images under a clock that is always late, and a batch
    with two classes. *)
Definition ex_always_late (xi : nat) : bool := true.

Definition ex_prediction2 : prediction :=
  mkprediction 1 [[ex_pred_A]; [ex_pred_B]].

Definition ex_late_outs : list (option (list detection)) :=
  Eval vm_compute in
    match non_max_suppression ex_always_late ex_prediction2 (1 # 10) (1 # 2)
                              false None false with
    | Returned outs => outs
    | Raised => []
    end.

Definition ex_late_rows : list detection :=
  Eval vm_compute in
    match nth 0 ex_late_outs None with
    | Some rows => rows
    | None => []
    end.

Definition ex_prediction_2cls : prediction :=
  mkprediction 2 [[mkpred (mkbox 5 5 10 10) (9 # 10) [8 # 10; 7 # 10];
                   mkpred (mkbox 50 50 10 10) (9 # 10) [1 # 100; 6 # 10]]].

Definition ex_cls1_outs : list (option (list detection)) :=
  Eval vm_compute in
    match non_max_suppression ex_never_late ex_prediction_2cls (1 # 10) (1 # 2)
                              false (Some [1%Z]) false with
    | Returned outs => outs
    | Raised => []
    end.

Definition ex_cls1_rows : list detection :=
  Eval vm_compute in
    match nth 0 ex_cls1_outs None with
    | Some rows => rows
    | None => []
    end.

Definition ex_cls1_first : detection :=
  Eval vm_compute in
    nth 0 ex_cls1_rows (mkdetection NaN NaN NaN NaN 0 0).

(** A recall/precision curve with a false positive in the middle. *)
Definition ex_recall : list Q := [1 # 3; 1 # 3; 2 # 3; 1].
Definition ex_precision : list Q := [1; 1 # 2; 2 # 3; 3 # 4].

(** Labels of two images: class 0 three times, class 2 once. *)
Definition ex_labels : list (option (list label)) :=
  [Some [mklabel 0 (mkbox (1 # 2) (1 # 2) (1 # 4) (1 # 4));
         mklabel 2 (mkbox (1 # 4) (1 # 4) (1 # 8) (1 # 8))];
   Some [mklabel 0 (mkbox (1 # 3) (1 # 3) (1 # 4) (1 # 4));
         mklabel 0 (mkbox (2 # 3) (2 # 3) (1 # 4) (1 # 4))]].

Definition ex_label_arrays : list (list label) :=
  Eval vm_compute in
    match mapM (fun l => l) ex_labels with
    | Some arrays => arrays
    | None => []
    end.

(** A head whose anchors come largest first, and one whose layers are not
    separated by area. *)
Definition ex_head : DetectHead :=
  mkDetectHead [[(4, 4); (5, 6)]; [(1, 1); (2, 2)]]
               [[(64, 64); (80, 96)]; [(8, 8); (16, 16)]]
               [8; 16].

Definition ex_head_mixed : DetectHead :=
  mkDetectHead [[(5, 1); (1, 1)]; [(100, 1); (2, 1)]]
               [[(5, 1); (1, 1)]; [(100, 1); (2, 1)]]
               [8; 16].

(** Two single-class predictions far apart. *)
Definition ex_pred_far : pred := mkpred (mkbox 100 100 10 10) (8 # 10) [1].

Definition ex_apart_cands : list cand6 :=
  Eval vm_compute in
    match candidates 1 (1 # 10) None [ex_pred_A; ex_pred_far] with
    | Returned cands => cands
    | Raised => []
    end.

(** Two overlapping predictions, their candidates, and what merging
    returns for them. *)
Definition ex_pair_cands : list cand6 :=
  Eval vm_compute in
    match candidates 1 (1 # 10) None [ex_pred_A; ex_pred_B] with
    | Returned cands => cands
    | Raised => []
    end.

Definition ex_merged_rows : list detection :=
  Eval vm_compute in
    match nms_image 1 (1 # 10) (1 # 2) true None false [ex_pred_A; ex_pred_B] with
    | Returned (Some rows) => rows
    | _ => []
    end.

(** Two rows of class 79 whose coordinates are multiples of 1/64. *)
Definition ex_row79_a : cand6 :=
  mkcand6 (mkbox (1 # 64) 0 (641 # 64) 10) (9 # 10) 79.
Definition ex_row79_b : cand6 :=
  mkcand6 (mkbox (215 # 64) 0 (213 # 16) 10) (8 # 10) 79.
(** ** Basic facts about the numeric layer *)

Lemma Qlt_bool_iff (a b : Q) : Qlt_bool a b = true <-> a < b.
Proof.
  unfold Qlt_bool. rewrite negb_true_iff. split; intro H.
  - apply Qnot_le_lt. intro Hle. apply Qle_bool_iff in Hle. congruence.
  - destruct (Qle_bool b a) eqn:E; [|reflexivity].
    apply Qle_bool_iff in E. exfalso. apply (Qlt_not_le _ _ H E).
Qed.

Lemma Qlt_bool_false_iff (a b : Q) : Qlt_bool a b = false <-> b <= a.
Proof.
  unfold Qlt_bool. rewrite negb_false_iff. apply Qle_bool_iff.
Qed.

Lemma xywh2xyxy_xyxy2xywh_row (b : box) :
  box_eq (xywh2xyxy_row (xyxy2xywh_row b)) b.
Proof.
  destruct b as [x1 y1 x2 y2]. unfold box_eq; cbn. repeat split; field.
Qed.

(** C3. Converting an n x 4 tensor of corner boxes to centre/size form and
    back gives the same tensor, element by element (exactly so in rational
    arithmetic, hence up to rounding in floats). *)
Theorem xywh2xyxy_xyxy2xywh_roundtrip (b : list box) :
  Forall2 box_eq (xywh2xyxy (xyxy2xywh b)) b.
Proof.
  unfold xywh2xyxy, xyxy2xywh.
  induction b as [|r b IH]; cbn.
  - constructor.
  - constructor; [apply xywh2xyxy_xyxy2xywh_row | exact IH].
Qed.

(** ** Facts about the float layer *)

Lemma flt_fmax_l (a b t : fl) : flt (fmax a b) t = true -> flt a t = true.
Proof.
  destruct a as [x| | |], b as [y| | |], t as [z| | |]; cbn; try congruence.
  rewrite !Qlt_bool_iff. intro H.
  eapply Qle_lt_trans; [apply Q.le_max_l | exact H].
Qed.

Lemma flt_fmax_r (a b t : fl) : flt (fmax a b) t = true -> flt b t = true.
Proof.
  destruct a as [x| | |], b as [y| | |], t as [z| | |]; cbn; try congruence.
  rewrite !Qlt_bool_iff. intro H.
  eapply Qle_lt_trans; [apply Q.le_max_r | exact H].
Qed.

Lemma flt_fmax_intro (a b t : fl) :
  flt a t = true -> flt b t = true -> flt (fmax a b) t = true.
Proof.
  destruct a as [x| | |], b as [y| | |], t as [z| | |]; cbn; try congruence.
  rewrite !Qlt_bool_iff. intros Hx Hy. apply Q.max_lub_lt; assumption.
Qed.

Lemma Qtrunc_of_nat_mul_1 (k : nat) : Qtrunc (inject_Z (Z.of_nat k) * 1) = Z.of_nat k.
Proof.
  unfold Qtrunc.
  assert (E : inject_Z (Z.of_nat k) * 1 == inject_Z (Z.of_nat k)) by ring.
  assert (Hnn : 0 <= inject_Z (Z.of_nat k) * 1).
  { rewrite E. change 0 with (inject_Z 0). rewrite <- Zle_Qle. lia. }
  apply Qle_bool_iff in Hnn. rewrite Hnn.
  rewrite (Qfloor_comp _ _ E). apply Qfloor_Z.
Qed.

(** ** Facts about the list plumbing *)

Lemma mapM_nth_error {A B : Type} (f : A -> option B) (l : list A) (ys : list B) :
  mapM f l = Some ys ->
  forall k y, nth_error ys k = Some y ->
              exists x, nth_error l k = Some x /\ f x = Some y.
Proof.
  revert ys. induction l as [|x l IH]; cbn; intros ys H k y Hk.
  - injection H as <-. destruct k; discriminate.
  - destruct (f x) as [y0|] eqn:Ef; [|discriminate].
    destruct (mapM f l) as [ys0|] eqn:El; [|discriminate].
    injection H as <-. destruct k as [|k]; cbn in Hk.
    + injection Hk as <-. exists x. split; [reflexivity | exact Ef].
    + cbn. eapply IH; [reflexivity | exact Hk].
Qed.

Lemma mapM_nth_error_inv {A B : Type} (f : A -> option B) (l : list A) (ys : list B) :
  mapM f l = Some ys ->
  forall k x, nth_error l k = Some x ->
              exists y, nth_error ys k = Some y /\ f x = Some y.
Proof.
  revert ys. induction l as [|x0 l IH]; cbn; intros ys H k x Hk.
  - destruct k; discriminate.
  - destruct (f x0) as [y0|] eqn:Ef; [|discriminate].
    destruct (mapM f l) as [ys0|] eqn:El; [|discriminate].
    injection H as <-. destruct k as [|k]; cbn in Hk.
    + injection Hk as <-. exists y0. split; [reflexivity | exact Ef].
    + cbn. eapply IH; [reflexivity | exact Hk].
Qed.

Lemma mapM_length {A B : Type} (f : A -> option B) (l : list A) (ys : list B) :
  mapM f l = Some ys -> length ys = length l.
Proof.
  revert ys. induction l as [|x l IH]; cbn; intros ys H.
  - injection H as <-. reflexivity.
  - destruct (f x); [|discriminate]. destruct (mapM f l); [|discriminate].
    injection H as <-. cbn. f_equal. apply IH. reflexivity.
Qed.

Lemma mapM_all_some {A B : Type} (f : A -> option B) (g : A -> B) (l : list A) :
  (forall x, In x l -> f x = Some (g x)) -> mapM f l = Some (map g l).
Proof.
  induction l as [|x l IH]; cbn; intro H; [reflexivity|].
  rewrite (H x (or_introl eq_refl)), IH; [reflexivity|].
  intros y Hy. apply H. right. exact Hy.
Qed.

Lemma nth_error_map_some {A B : Type} (f : A -> B) (l : list A) (k : nat) (y : B) :
  nth_error (map f l) k = Some y -> exists x, nth_error l k = Some x /\ y = f x.
Proof.
  rewrite nth_error_map. destruct (nth_error l k) as [x|]; cbn; [|discriminate].
  intro H. injection H as <-. exists x. split; reflexivity.
Qed.

(** A pair met in [combine anchors_i (repeat_targets ...)] sits at the
    position of its anchor. *)
Lemma in_combine_seq_map {A B : Type} (F : nat -> B) (l : list A) (n : nat) (a : A) (b : B) :
  In (a, b) (combine l (map F (seq 0 n))) ->
  exists k, nth_error l k = Some a /\ b = F k.
Proof.
  intro H. apply In_nth_error in H. destruct H as [k Hk].
  exists k.
  assert (Hl : nth_error l k = Some a /\ nth_error (map F (seq 0 n)) k = Some b).
  { revert k Hk. generalize (map F (seq 0 n)) as m.
    induction l as [|a0 l IH]; intros m k Hk.
    - destruct k; discriminate.
    - destruct m as [|b0 m]; [destruct k; discriminate|].
      destruct k as [|k]; cbn in Hk |- *.
      + injection Hk as -> ->. split; reflexivity.
      + apply IH. exact Hk. }
  destruct Hl as [Ha Hb]. split; [exact Ha|].
  rewrite nth_error_map in Hb.
  destruct (nth_error (seq 0 n) k) as [j|] eqn:Ej; [|discriminate].
  cbn in Hb. injection Hb as <-.
  assert (Hlt : (k < n)%nat).
  { assert (Hs : (k < length (seq 0 n))%nat) by (apply nth_error_Some; congruence).
    rewrite length_seq in Hs. exact Hs. }
  rewrite nth_error_seq in Ej.
  destruct (Nat.ltb_spec k n); [|lia]. injection Ej as <-. reflexivity.
Qed.

(** ** [build_targets]: the shape filter *)

Lemma shape_match_within (anchor_t : Q) (anchor : Q * Q) (t : cand) :
  shape_match anchor_t anchor t = true ->
  within_threshold anchor_t anchor (k_w t) (k_h t).
Proof.
  unfold shape_match, within_threshold. intro H. split.
  - eapply flt_fmax_l; exact H.
  - eapply flt_fmax_r; exact H.
Qed.

(** Every row that survives [t = t[j]] carries the index of an anchor it
    matches. *)
Lemma shape_filter_sound (anchor_t : Q) (anchors_i : list (Q * Q)) (n : nat)
      (targets : list target) (g : cand) (r : cand) :
  In r (shape_filter anchor_t anchors_i
          (map (map (fun t => cand_mul t g)) (repeat_targets n targets))) ->
  exists k anchor,
    nth_error anchors_i k = Some anchor /\
    k_a r = inject_Z (Z.of_nat k) * k_a g /\
    shape_match anchor_t anchor r = true.
Proof.
  unfold shape_filter, repeat_targets. rewrite map_map.
  intro H. apply in_flat_map in H. destruct H as [[anchor copies] [Hin Hr]].
  cbn in Hr. apply filter_In in Hr. destruct Hr as [Hr Hm].
  apply in_combine_seq_map in Hin. destruct Hin as [k [Hk ->]].
  exists k, anchor. split; [exact Hk|]. split; [|exact Hm].
  rewrite map_map in Hr. apply in_map_iff in Hr. destruct Hr as [t [<- _]].
  reflexivity.
Qed.

Lemma expand_In (nx ny : Q) (t : list cand) (r : cand * (Q * Q)) :
  In r (expand nx ny t) -> In (fst r) t.
Proof.
  unfold expand. intro H. apply in_flat_map in H. destruct H as [d [_ H]].
  apply in_map_iff in H. destruct H as [c [<- Hc]].
  apply filter_In in Hc. exact (proj1 Hc).
Qed.

(** The rows a layer is assembled from, when there are targets. *)
Lemma build_targets_layer_rows (anchor_t : Q) (anchors_i : list (Q * Q))
      (shape : list nat) (n : nat) (targets : list target) (lt : layer_targets) :
  build_targets_layer anchor_t anchors_i shape (length targets)
                      (repeat_targets n targets) = Some lt ->
  exists t,
    assemble anchors_i t = Some lt /\
    forall r, In r t ->
      exists k anchor,
        nth_error anchors_i k = Some anchor /\
        k_a (fst r) = inject_Z (Z.of_nat k) * 1 /\
        shape_match anchor_t anchor (fst r) = true.
Proof.
  unfold build_targets_layer.
  destruct (nth_error shape 3) as [nx|]; [|discriminate].
  destruct (nth_error shape 2) as [ny|]; [|discriminate].
  destruct targets as [|t0 targets]; cbn [length Nat.eqb negb].
  - destruct (nth_error (repeat_targets n []) 0) as [t|] eqn:E; [|discriminate].
    intro H. exists (map (fun r => (r, (0, 0))) t). split; [exact H|].
    unfold repeat_targets in E. apply nth_error_map_some in E.
    destruct E as [k [_ ->]]. cbn. intros r [].
  - intro H. eexists. split; [exact H|].
    intros r Hr. apply expand_In in Hr.
    apply shape_filter_sound in Hr. exact Hr.
Qed.

Lemma build_targets_layer_of (p : list (list nat)) (targets : list target)
      (det : Detect) (anchor_t : Q) (outs : list layer_targets)
      (i : nat) (lt : layer_targets) :
  build_targets p targets det anchor_t = Some outs ->
  nth_error outs i = Some lt ->
  exists anchors_i shape,
    nth_error (anchors det) i = Some anchors_i /\
    nth_error p i = Some shape /\
    build_targets_layer anchor_t anchors_i shape (length targets)
                        (repeat_targets (na det) targets) = Some lt.
Proof.
  unfold build_targets. intros H Hi.
  destruct (mapM_nth_error _ _ _ H _ _ Hi) as [j [Hj Hl]].
  assert (Hlt : (i < length (seq 0 (nl det)))%nat) by (apply nth_error_Some; congruence).
  rewrite length_seq in Hlt. rewrite nth_error_seq in Hj.
  destruct (Nat.ltb_spec i (nl det)); [|lia]. injection Hj as <-.
  cbn in Hl.
  destruct (nth_error (anchors det) i) as [anchors_i|]; [|discriminate].
  destruct (nth_error p i) as [shape|]; [|discriminate].
  exists anchors_i, shape. repeat split. exact Hl.
Qed.

(** The assignment at position [k] of a layer, read off the parallel lists. *)
Lemma assemble_row (anchors_i : list (Q * Q)) (t : list (cand * (Q * Q)))
      (lt : layer_targets) (k : nat) (a : Z) (x y w h : Q) :
  assemble anchors_i t = Some lt ->
  nth_error (idx_a lt) k = Some a ->
  nth_error (ttar lt) k = Some (x, y, w, h) ->
  exists r anchor,
    In r t /\ a = Qtrunc (k_a (fst r)) /\ w = k_w (fst r) /\ h = k_h (fst r) /\
    tensor_index anchors_i a = Some anchor /\ nth_error (anch lt) k = Some anchor.
Proof.
  unfold assemble.
  destruct (mapM _ t) as [an|] eqn:Ean; [|discriminate].
  intro H. injection H as <-. cbn. intros Ha Ht.
  apply nth_error_map_some in Ha. destruct Ha as [r [Hr ->]].
  apply nth_error_map_some in Ht. destruct Ht as [r' [Hr' Ht]].
  rewrite Hr in Hr'. injection Hr' as <-. injection Ht as -> -> -> ->.
  destruct (mapM_nth_error_inv _ _ _ Ean _ _ Hr) as [anchor [Hk Hidx]].
  exists r, anchor. repeat split; try assumption.
  eapply nth_error_In; exact Hr.
Qed.

(** C1. Every assignment emitted at a layer pairs a ground truth with the
    anchor its index names, and the ratio of the ground truth's width and
    height (in grid units) to that anchor satisfies
    max(ratio, 1/ratio) < anchor_t in both dimensions; hence a box size that
    violates the threshold against every anchor of the layer appears in no
    assignment of that layer. *)
Theorem build_targets_shape_ratio
        (p : list (list nat)) (targets : list target) (det : Detect)
        (anchor_t : Q) (outs : list layer_targets)
        (i : nat) (lt : layer_targets) (anchors_i : list (Q * Q)) :
  build_targets p targets det anchor_t = Some outs ->
  nth_error outs i = Some lt ->
  nth_error (anchors det) i = Some anchors_i ->
  (forall k a x y w h,
      nth_error (idx_a lt) k = Some a ->
      nth_error (ttar lt) k = Some (x, y, w, h) ->
      exists anchor,
        tensor_index anchors_i a = Some anchor /\
        nth_error (anch lt) k = Some anchor /\
        within_threshold anchor_t anchor w h) /\
  (forall w h,
      (forall anchor, In anchor anchors_i -> ~ within_threshold anchor_t anchor w h) ->
      forall k x y, nth_error (ttar lt) k <> Some (x, y, w, h)).
Proof.
  intros Hb Hi Han.
  destruct (build_targets_layer_of _ _ _ _ _ _ _ Hb Hi)
    as [anchors_i' [shape [Han' [_ Hl]]]].
  rewrite Han in Han'. injection Han' as <-.
  destruct (build_targets_layer_rows _ _ _ _ _ _ Hl) as [t [Hasm Hrows]].
  assert (P1 : forall k a x y w h,
             nth_error (idx_a lt) k = Some a ->
             nth_error (ttar lt) k = Some (x, y, w, h) ->
             exists anchor,
               tensor_index anchors_i a = Some anchor /\
               nth_error (anch lt) k = Some anchor /\
               In anchor anchors_i /\
               within_threshold anchor_t anchor w h).
  { intros k a x y w h Ha Ht.
    destruct (assemble_row _ _ _ _ _ _ _ _ _ Hasm Ha Ht)
      as [r [anchor [Hr [-> [-> [-> [Hidx Hanch]]]]]]].
    destruct (Hrows r Hr) as [j [anchor' [Hj [Hka Hm]]]].
    rewrite Hka, Qtrunc_of_nat_mul_1 in Hidx.
    unfold tensor_index in Hidx.
    destruct (Z.leb_spec 0 (Z.of_nat j)); [|lia].
    rewrite Nat2Z.id, Hj in Hidx. injection Hidx as <-.
    exists anchor'. rewrite Hka, Qtrunc_of_nat_mul_1. unfold tensor_index.
    destruct (Z.leb_spec 0 (Z.of_nat j)); [|lia]. rewrite Nat2Z.id.
    repeat split; try assumption.
    - eapply nth_error_In; exact Hj.
    - apply shape_match_within. exact Hm.
    - apply shape_match_within. exact Hm. }
  split.
  - intros k a x y w h Ha Ht.
    destruct (P1 k a x y w h Ha Ht) as [anchor [H1 [H2 [_ H3]]]].
    exists anchor. repeat split; try assumption; apply H3.
  - intros w h Hviol k x y Ht.
    assert (Hlen : nth_error (idx_a lt) k <> None).
    { apply nth_error_Some.
      assert (Hk : (k < length (ttar lt))%nat) by (apply nth_error_Some; congruence).
      unfold assemble in Hasm.
      destruct (mapM _ t); [|discriminate]. injection Hasm as <-.
      cbn in Hk |- *. rewrite length_map in *. exact Hk. }
    destruct (nth_error (idx_a lt) k) as [a|] eqn:Ha; [|congruence].
    destruct (P1 k a x y w h Ha Ht) as [anchor [_ [_ [Hin H3]]]].
    exact (Hviol anchor Hin H3).
Qed.

(** ** [build_targets]: a batch without ground truth *)

Lemma map_const_repeat {A B : Type} (c : B) (l : list A) :
  map (fun _ => c) l = repeat c (length l).
Proof.
  induction l as [|x l IH]; cbn; [reflexivity | f_equal; exact IH].
Qed.

Lemma build_targets_layer_no_targets (anchor_t : Q) (anchors_i : list (Q * Q))
      (shape : list nat) (n : nat) :
  (0 < n)%nat -> (4 <= length shape)%nat ->
  build_targets_layer anchor_t anchors_i shape 0 (repeat_targets n []) =
  Some no_assignment.
Proof.
  intros Hn Hs. unfold build_targets_layer.
  destruct shape as [|s0 [|s1 [|s2 [|s3 shape]]]]; cbn in Hs; try lia.
  cbn [nth_error Nat.eqb negb].
  destruct n as [|n]; [lia|]. reflexivity.
Qed.

(** C9. With an empty target tensor [build_targets] raises nothing: for a
    well-formed detection head with at least one anchor and a prediction per
    layer, it returns one entry per layer, each with zero assignments (empty
    class, box-target, index, anchor and absolute-target lists). *)
Theorem build_targets_no_targets
        (p : list (list nat)) (det : Detect) (anchor_t : Q) :
  Detect_wf det ->
  (0 < na det)%nat ->
  (forall i, (i < nl det)%nat ->
             exists shape, nth_error p i = Some shape /\ (4 <= length shape)%nat) ->
  build_targets p [] det anchor_t = Some (repeat no_assignment (nl det)).
Proof.
  intros [Hlen _] Hna Hp. unfold build_targets.
  replace (repeat no_assignment (nl det))
    with (map (fun _ : nat => no_assignment) (seq 0 (nl det)))
    by (rewrite map_const_repeat, length_seq; reflexivity).
  apply mapM_all_some. intros i Hi. apply in_seq in Hi.
  destruct (Hp i) as [shape [Hs Hl]]; [lia|]. rewrite Hs.
  destruct (nth_error (anchors det) i) as [anchors_i|] eqn:Ea.
  - cbn [length]. apply build_targets_layer_no_targets; assumption.
  - apply nth_error_None in Ea. lia.
Qed.

Lemma build_targets_no_targets_witness :
  build_targets ex_p [] ex_det 4 = Some [no_assignment].
Proof.
  apply (build_targets_no_targets ex_p ex_det 4).
  - split; [reflexivity | repeat constructor].
  - cbn. lia.
  - intros i Hi. cbn in Hi. destruct i as [|i]; [|lia].
    exists [1; 3; 8; 8; 6]%nat. split; [reflexivity | cbn; lia].
Defined.

Lemma build_targets_shape_ratio_witness :
  exists anchor,
    tensor_index [(1, 1); (2, 2); (10, 10)] 1%Z = Some anchor /\
    nth_error (anch ex_layer_centre) 1 = Some anchor /\
    within_threshold 4 anchor (8 # 8) (8 # 8).
Proof.
  exact (proj1 (build_targets_shape_ratio
                  ex_p [ex_gt_centre] ex_det 4 ex_outs_centre 0 ex_layer_centre
                  [(1, 1); (2, 2); (10, 10)] eq_refl eq_refl eq_refl)
               1%nat 1%Z (40 # 16) (40 # 16) (8 # 8) (8 # 8) eq_refl eq_refl).
Defined.

(** For positive sizes the test of the filter reads as it is written:
    both the ratio and its inverse are below the threshold. *)
Lemma ratio_max_spec (w a t : Q) :
  0 < a -> 0 < w ->
  (flt (ratio_max w a) (Fin t) = true <-> w / a < t /\ a / w < t).
Proof.
  intros Ha Hw. unfold ratio_max, qdiv.
  assert (Ea : Qeq_bool a 0 = false).
  { destruct (Qeq_bool a 0) eqn:E; [|reflexivity]. apply Qeq_bool_iff in E. lra. }
  rewrite Ea. cbn [fdiv]. unfold qdiv.
  assert (Hr : 0 < w / a) by (apply Qlt_shift_div_l; lra).
  assert (Er : Qeq_bool (w / a) 0 = false).
  { destruct (Qeq_bool (w / a) 0) eqn:E; [|reflexivity]. apply Qeq_bool_iff in E. lra. }
  rewrite Er. cbn [fmax flt]. rewrite Qlt_bool_iff.
  assert (Einv : 1 / (w / a) == a / w) by (field; split; lra).
  split.
  - intro H. split.
    + eapply Qle_lt_trans; [apply Q.le_max_l | exact H].
    + rewrite <- Einv. eapply Qle_lt_trans; [apply Q.le_max_r | exact H].
  - intros [H1 H2]. apply Q.max_lub_lt; [exact H1 | rewrite Einv; exact H2].
Qed.

(** A ground truth without width (or height) is rejected by every anchor:
    the inverse ratio is infinite. *)
Lemma ratio_max_zero_size (w a t : Q) :
  w == 0 -> 0 < a -> flt (ratio_max w a) (Fin t) = false.
Proof.
  intros Hw Ha. unfold ratio_max, qdiv.
  assert (Ea : Qeq_bool a 0 = false).
  { destruct (Qeq_bool a 0) eqn:E; [|reflexivity]. apply Qeq_bool_iff in E. lra. }
  rewrite Ea. cbn [fdiv]. unfold qdiv.
  assert (Er : Qeq_bool (w / a) 0 = true).
  { apply Qeq_bool_iff. rewrite Hw. unfold Qdiv. ring. }
  rewrite Er.
  assert (Ec : (1 ?= 0) = Gt) by reflexivity. rewrite Ec. reflexivity.
Qed.

(** ** [build_targets]: expansion to neighbouring cells *)

Lemma Qfloor_unique (z : Z) (q : Q) :
  inject_Z z <= q -> q < inject_Z (z + 1) -> Qfloor q = z.
Proof.
  intros Hlo Hhi.
  pose proof (Qfloor_le q) as H1. pose proof (Qlt_floor q) as H2.
  assert (A : (z < Qfloor q + 1)%Z).
  { rewrite Zlt_Qlt. eapply Qle_lt_trans; [exact Hlo | exact H2]. }
  assert (B : (Qfloor q < z + 1)%Z).
  { rewrite Zlt_Qlt. eapply Qle_lt_trans; [exact H1 | exact Hhi]. }
  lia.
Qed.

Lemma Qmod1_range (q : Q) : 0 <= Qmod1 q /\ Qmod1 q < 1.
Proof.
  unfold Qmod1. pose proof (Qfloor_le q) as H1. pose proof (Qlt_floor q) as H2.
  rewrite inject_Z_plus in H2. change (inject_Z 1) with 1 in H2. split; lra.
Qed.

(** The fractional part seen from the far edge of an integer-sized grid. *)
Lemma Qmod1_mirror (w : Z) (x : Q) :
  0 < Qmod1 x -> Qmod1 (inject_Z w - x) == 1 - Qmod1 x.
Proof.
  intro Hpos. pose proof (Qmod1_range x) as [_ Hlt]. unfold Qmod1 in *.
  assert (E : Qfloor (inject_Z w - x) = (w - Qfloor x - 1)%Z).
  { apply Qfloor_unique.
    - unfold Z.sub. rewrite !inject_Z_plus, !inject_Z_opp.
      change (inject_Z 1) with 1. lra.
    - replace (w - Qfloor x - 1 + 1)%Z with (w + - Qfloor x)%Z by lia.
      rewrite inject_Z_plus, inject_Z_opp. lra. }
  rewrite E. unfold Z.sub. rewrite !inject_Z_plus, !inject_Z_opp.
  change (inject_Z 1) with 1. lra.
Qed.

Lemma Qmod1_mirror_int (w : Z) (x : Q) :
  Qmod1 x == 0 -> Qmod1 (inject_Z w - x) == 0.
Proof.
  intro H0. unfold Qmod1 in *.
  assert (E : Qfloor (inject_Z w - x) = (w - Qfloor x)%Z).
  { apply Qfloor_unique.
    - unfold Z.sub. rewrite inject_Z_plus, inject_Z_opp. lra.
    - unfold Z.sub. rewrite !inject_Z_plus, inject_Z_opp.
      change (inject_Z 1) with 1. lra. }
  rewrite E. unfold Z.sub. rewrite inject_Z_plus, inject_Z_opp. lra.
Qed.

Lemma near_low_true (v : Q) : near_low v = true <-> Qmod1 v < 1 # 2 /\ 1 < v.
Proof.
  unfold near_low, g_half. rewrite andb_true_iff, !Qlt_bool_iff. reflexivity.
Qed.

Lemma near_low_false (v : Q) : near_low v = false <-> 1 # 2 <= Qmod1 v \/ v <= 1.
Proof.
  unfold near_low, g_half. rewrite andb_false_iff, !Qlt_bool_false_iff. reflexivity.
Qed.

(** The rows [expand] makes of one candidate. *)
Lemma expand_single (nx ny : Q) (c : cand) :
  expand nx ny [c] =
  map (fun d => (c, (0 + fst (off d), 0 + snd (off d)))) (expansion nx ny c).
Proof.
  unfold expand, expansion, directions. cbn.
  destruct (near_low (k_x c)), (near_low (k_y c)),
           (near_low (nx - k_x c)), (near_low (ny - k_y c)); reflexivity.
Qed.

(** The origin cell is always among the assignments, and there are at least
    one and at most five of them. *)
Lemma expansion_origin (nx ny : Q) (c : cand) :
  exists ds, expansion nx ny c = Dorigin :: ds /\ (length ds <= 4)%nat.
Proof.
  unfold expansion, directions. cbn.
  destruct (near_low (k_x c)), (near_low (k_y c)),
           (near_low (nx - k_x c)), (near_low (ny - k_y c));
    eexists; (split; [reflexivity | cbn; lia]).
Qed.

Lemma Qtrunc_comp (a b : Q) : a == b -> Qtrunc a = Qtrunc b.
Proof.
  intro E. unfold Qtrunc.
  assert (Hb : Qle_bool 0 a = Qle_bool 0 b).
  { destruct (Qle_bool 0 b) eqn:Eb.
    - apply Qle_bool_iff. apply Qle_bool_iff in Eb. lra.
    - destruct (Qle_bool 0 a) eqn:Ea; [|reflexivity].
      apply Qle_bool_iff in Ea.
      assert (Hb : 0 <= b) by lra. apply Qle_bool_iff in Hb. congruence. }
  rewrite Hb. destruct (Qle_bool 0 b).
  - apply Qfloor_comp. exact E.
  - apply Qceiling_comp. exact E.
Qed.

(** No diagonal neighbour: an expanded row keeps the column or the row of
    the origin cell. *)
Lemma expand_axis_aligned (nx ny : Q) (t : list cand) (r : cand * (Q * Q)) :
  In r (expand nx ny t) ->
  fst (gij r) = fst (origin_cell (fst r)) \/ snd (gij r) = snd (origin_cell (fst r)).
Proof.
  unfold expand. intro H. apply in_flat_map in H. destruct H as [d [_ H]].
  apply in_map_iff in H. destruct H as [c [<- _]].
  unfold gij, origin_cell, g_half; destruct d; cbn [fst snd off];
    try (left; apply Qtrunc_comp; ring);
    right; apply Qtrunc_comp; ring.
Qed.

(** A centre in the middle of its cell is assigned to the origin cell only. *)
Lemma expansion_cell_centre (nx ny : nat) (c : cand) :
  Qmod1 (k_x c) == 1 # 2 -> Qmod1 (k_y c) == 1 # 2 ->
  expansion (inject_Z (Z.of_nat nx)) (inject_Z (Z.of_nat ny)) c = [Dorigin].
Proof.
  intros Hx Hy.
  assert (Hx' : Qmod1 (inject_Z (Z.of_nat nx) - k_x c) == 1 - Qmod1 (k_x c))
    by (apply Qmod1_mirror; lra).
  assert (Hy' : Qmod1 (inject_Z (Z.of_nat ny) - k_y c) == 1 - Qmod1 (k_y c))
    by (apply Qmod1_mirror; lra).
  unfold expansion, directions. cbn.
  assert (F1 : near_low (k_x c) = false) by (apply near_low_false; left; lra).
  assert (F2 : near_low (k_y c) = false) by (apply near_low_false; left; lra).
  assert (F3 : near_low (inject_Z (Z.of_nat nx) - k_x c) = false)
    by (apply near_low_false; left; lra).
  assert (F4 : near_low (inject_Z (Z.of_nat ny) - k_y c) = false)
    by (apply near_low_false; left; lra).
  rewrite F1, F2, F3, F4. reflexivity.
Qed.

(** A centre in the lower quarter of its cell in both axes, away from the
    first row and column, is assigned to the origin cell and to the two
    neighbours on that side. *)
Lemma expansion_near_corner (nx ny : nat) (c : cand) :
  0 < Qmod1 (k_x c) -> Qmod1 (k_x c) < 1 # 2 -> 1 < k_x c ->
  0 < Qmod1 (k_y c) -> Qmod1 (k_y c) < 1 # 2 -> 1 < k_y c ->
  expansion (inject_Z (Z.of_nat nx)) (inject_Z (Z.of_nat ny)) c = [Dorigin; Dj; Dk].
Proof.
  intros Hx0 Hx Hx1 Hy0 Hy Hy1.
  pose proof (Qmod1_mirror (Z.of_nat nx) (k_x c) Hx0) as Hx'.
  pose proof (Qmod1_mirror (Z.of_nat ny) (k_y c) Hy0) as Hy'.
  unfold expansion, directions. cbn.
  assert (F1 : near_low (k_x c) = true) by (apply near_low_true; split; lra).
  assert (F2 : near_low (k_y c) = true) by (apply near_low_true; split; lra).
  assert (F3 : near_low (inject_Z (Z.of_nat nx) - k_x c) = false)
    by (apply near_low_false; left; lra).
  assert (F4 : near_low (inject_Z (Z.of_nat ny) - k_y c) = false)
    by (apply near_low_false; left; lra).
  rewrite F1, F2, F3, F4. reflexivity.
Qed.

(** Off the grid lines the two sides of an axis exclude each other, so there
    are at most three assignments. *)
Lemma expansion_at_most_three (nx ny : nat) (c : cand) :
  0 < Qmod1 (k_x c) -> 0 < Qmod1 (k_y c) ->
  (length (expansion (inject_Z (Z.of_nat nx)) (inject_Z (Z.of_nat ny)) c) <= 3)%nat.
Proof.
  intros Hx0 Hy0.
  pose proof (Qmod1_mirror (Z.of_nat nx) (k_x c) Hx0) as Hx'.
  pose proof (Qmod1_mirror (Z.of_nat ny) (k_y c) Hy0) as Hy'.
  unfold expansion, directions. cbn.
  destruct (near_low (k_x c)) eqn:F1;
    destruct (near_low (inject_Z (Z.of_nat nx) - k_x c)) eqn:F3;
    try (apply near_low_true in F1; apply near_low_true in F3; exfalso; lra);
    destruct (near_low (k_y c)) eqn:F2;
    destruct (near_low (inject_Z (Z.of_nat ny) - k_y c)) eqn:F4;
    try (apply near_low_true in F2; apply near_low_true in F4; exfalso; lra);
    cbn; lia.
Qed.

(** C2, at a centre on a grid point.  A ground truth centred at (2, 2) of an
    8 x 8 grid, matched by the single anchor, is assigned five times: both
    sides of both axes qualify, and the rows offset by +0.5 truncate back to
    the origin cell (gj, gi) = (2, 2), which so appears three times. *)
Theorem build_targets_grid_point_five_assignments :
  option_map (map (fun l => (idx_a l, idx_gj l, idx_gi l)))
             (build_targets ex_p [ex_gt_corner] ex_det1 4) =
  Some [([0; 0; 0; 0; 0]%Z, [2; 2; 1; 2; 2]%Z, [2; 1; 2; 2; 2]%Z)].
Proof. vm_compute. reflexivity. Qed.

(** ** The IoU family *)

Lemma qdiv_nonzero (x y : Q) : ~ y == 0 -> qdiv x y = Fin (x / y).
Proof.
  intro H. unfold qdiv. destruct (Qeq_bool y 0) eqn:E; [|reflexivity].
  apply Qeq_bool_iff in E. contradiction.
Qed.

Lemma qdiv_pos (x y : Q) : 0 < y -> qdiv x y = Fin (x / y).
Proof. intro H. apply qdiv_nonzero. lra. Qed.

Lemma qdiv_zero_zero (x y : Q) : x == 0 -> y == 0 -> qdiv x y = NaN.
Proof.
  intros Hx Hy. unfold qdiv.
  apply Qeq_bool_iff in Hy. rewrite Hy.
  rewrite (proj1 (Qeq_alt x 0) Hx). reflexivity.
Qed.

Lemma overlap_nonneg (a1 a2 b1 b2 : Q) : 0 <= overlap a1 a2 b1 b2.
Proof. unfold overlap. apply Q.le_max_r. Qed.

Lemma overlap_le_l (a1 a2 b1 b2 : Q) : a1 <= a2 -> overlap a1 a2 b1 b2 <= a2 - a1.
Proof.
  intro H. unfold overlap. apply Q.max_lub; [|lra].
  pose proof (Q.le_min_l a2 b2). pose proof (Q.le_max_l a1 b1). lra.
Qed.

Lemma overlap_le_r (a1 a2 b1 b2 : Q) : b1 <= b2 -> overlap a1 a2 b1 b2 <= b2 - b1.
Proof.
  intro H. unfold overlap. apply Q.max_lub; [|lra].
  pose proof (Q.le_min_r a2 b2). pose proof (Q.le_max_r a1 b1). lra.
Qed.

Lemma overlap_disjoint (a1 a2 b1 b2 : Q) :
  a2 <= b1 \/ b2 <= a1 -> overlap a1 a2 b1 b2 == 0.
Proof.
  intro H. unfold overlap.
  pose proof (Q.le_min_l a2 b2). pose proof (Q.le_min_r a2 b2).
  pose proof (Q.le_max_l a1 b1). pose proof (Q.le_max_r a1 b1).
  apply Q.max_r. destruct H; lra.
Qed.

Lemma overlap_self (a1 a2 : Q) : a1 <= a2 -> overlap a1 a2 a1 a2 == a2 - a1.
Proof.
  intro H. unfold overlap.
  rewrite Q.min_id, Q.max_id. apply Q.max_l. lra.
Qed.

Lemma Qmult_le_mono_box (x y w h : Q) :
  0 <= x -> x <= w -> 0 <= y -> y <= h -> x * y <= w * h.
Proof.
  intros Hx Hxw Hy Hyh.
  apply Qle_trans with (w * y).
  - apply Qmult_le_compat_r; assumption.
  - rewrite (Qmult_comm w y), (Qmult_comm w h).
    apply Qmult_le_compat_r; [assumption | lra].
Qed.

Lemma bbox_inter_nonneg (a b : box) : 0 <= bbox_inter a b.
Proof.
  unfold bbox_inter. apply Qmult_le_0_compat; apply overlap_nonneg.
Qed.

Lemma bbox_inter_le_l (a b : box) : ordered a -> bbox_inter a b <= box_area a.
Proof.
  intros [Hx Hy]. unfold bbox_inter, box_area.
  apply Qmult_le_mono_box; auto using overlap_nonneg, overlap_le_l.
Qed.

Lemma bbox_inter_le_r (a b : box) : ordered b -> bbox_inter a b <= box_area b.
Proof.
  intros [Hx Hy]. unfold bbox_inter, box_area.
  apply Qmult_le_mono_box; auto using overlap_nonneg, overlap_le_r.
Qed.

Lemma bbox_inter_disjoint (a b : box) : disjoint a b -> bbox_inter a b == 0.
Proof.
  unfold disjoint, bbox_inter. intros [H | [H | [H | H]]].
  - rewrite (overlap_disjoint _ _ _ _ (or_introl H)). ring.
  - rewrite (overlap_disjoint _ _ _ _ (or_intror H)). ring.
  - rewrite (overlap_disjoint (c1 a) _ _ _ (or_introl H)). ring.
  - rewrite (overlap_disjoint (c1 a) _ _ _ (or_intror H)). ring.
Qed.

Lemma bbox_inter_self (b : box) : ordered b -> bbox_inter b b == box_area b.
Proof.
  intros [Hx Hy]. unfold bbox_inter, box_area.
  rewrite (overlap_self _ _ Hx), (overlap_self _ _ Hy). reflexivity.
Qed.

Lemma box_area_nonneg (b : box) : ordered b -> 0 <= box_area b.
Proof.
  intros [Hx Hy]. unfold box_area. apply Qmult_le_0_compat; lra.
Qed.

Lemma bbox_union_area (a b : box) :
  bbox_union a b == box_area a + eps16 + box_area b - bbox_inter a b.
Proof. unfold bbox_union, box_area. ring. Qed.

Lemma eps16_pos : 0 < eps16.
Proof. reflexivity. Qed.

(** The guarded denominator of [bbox_iou] is positive on well-formed boxes,
    and not below the intersection. *)
Lemma bbox_union_pos (a b : box) :
  ordered a -> ordered b ->
  0 < bbox_union a b /\ bbox_inter a b <= bbox_union a b.
Proof.
  intros Ha Hb. rewrite bbox_union_area.
  pose proof (bbox_inter_le_l a b Ha). pose proof (bbox_inter_le_r a b Hb).
  pose proof (bbox_inter_nonneg a b). pose proof eps16_pos.
  split; lra.
Qed.

Lemma plain_iou_value (atan : fl -> fl) (pi : Q) (a b : box) :
  ordered a -> ordered b ->
  plain_iou atan pi a b = Fin (bbox_inter a b / bbox_union a b).
Proof.
  intros Ha Hb. unfold plain_iou, bbox_iou1. cbn.
  apply qdiv_pos. apply bbox_union_pos; assumption.
Qed.

(** Plain IoU of [bbox_iou] on well-formed boxes: a number in [0, 1]. *)
Lemma plain_iou_range (atan : fl -> fl) (pi : Q) (a b : box) :
  ordered a -> ordered b ->
  exists q, plain_iou atan pi a b = Fin q /\ 0 <= q /\ q <= 1.
Proof.
  intros Ha Hb. eexists. split; [apply plain_iou_value; assumption|].
  destruct (bbox_union_pos a b Ha Hb) as [Hpos Hle].
  pose proof (bbox_inter_nonneg a b) as Hnn. split.
  - apply Qle_shift_div_l; [exact Hpos | lra].
  - apply Qle_shift_div_r; [exact Hpos | lra].
Qed.

(** Identical boxes: in exact arithmetic [bbox_iou] gives A / (A + 1e-16). *)
Lemma plain_iou_identical (atan : fl -> fl) (pi : Q) (b : box) :
  ordered b ->
  feq (plain_iou atan pi b b) (Fin (box_area b / (box_area b + eps16))).
Proof.
  intro Hb. rewrite plain_iou_value by assumption. cbn.
  rewrite bbox_union_area, (bbox_inter_self b Hb).
  apply Qdiv_comp; [reflexivity | ring].
Qed.

Lemma plain_iou_disjoint (atan : fl -> fl) (pi : Q) (a b : box) :
  ordered a -> ordered b -> disjoint a b ->
  feq (plain_iou atan pi a b) (Fin 0).
Proof.
  intros Ha Hb Hd. rewrite plain_iou_value by assumption. cbn.
  rewrite (bbox_inter_disjoint a b Hd) at 1. unfold Qdiv. ring.
Qed.

(** [box_iou]: the denominator carries no epsilon; it is positive as soon as
    one of two well-formed boxes has area. *)
Lemma box_iou_den_pos (a b : box) :
  ordered a -> ordered b -> 0 < box_area a + box_area b ->
  0 < box_iou_den a b /\ bbox_inter a b <= box_iou_den a b.
Proof.
  intros Ha Hb Hpos. unfold box_iou_den.
  pose proof (bbox_inter_le_l a b Ha). pose proof (bbox_inter_le_r a b Hb).
  pose proof (box_area_nonneg a Ha). pose proof (box_area_nonneg b Hb).
  split; lra.
Qed.

Lemma box_iou1_range (a b : box) :
  ordered a -> ordered b -> 0 < box_area a + box_area b ->
  exists q, box_iou1 a b = Fin q /\ 0 <= q /\ q <= 1.
Proof.
  intros Ha Hb Hpos. destruct (box_iou_den_pos a b Ha Hb Hpos) as [Hd Hle].
  exists (bbox_inter a b / box_iou_den a b). split.
  - unfold box_iou1. apply qdiv_pos. exact Hd.
  - pose proof (bbox_inter_nonneg a b). split.
    + apply Qle_shift_div_l; [exact Hd | lra].
    + apply Qle_shift_div_r; [exact Hd | lra].
Qed.

Lemma box_iou1_identical (b : box) :
  ordered b -> 0 < box_area b -> feq (box_iou1 b b) (Fin 1).
Proof.
  intros Hb Hpos. unfold box_iou1, box_iou_den.
  rewrite qdiv_pos by (rewrite (bbox_inter_self b Hb); lra).
  cbn. rewrite (bbox_inter_self b Hb). field. lra.
Qed.

Lemma box_iou1_disjoint (a b : box) :
  ordered a -> ordered b -> disjoint a b -> 0 < box_area a + box_area b ->
  feq (box_iou1 a b) (Fin 0).
Proof.
  intros Ha Hb Hd Hpos. unfold box_iou1.
  rewrite qdiv_pos by (apply box_iou_den_pos; assumption).
  cbn. rewrite (bbox_inter_disjoint a b Hd) at 1. unfold Qdiv. ring.
Qed.

(** Without area on either side the unguarded quotient is 0/0. *)
Lemma box_iou1_no_area (a b : box) :
  ordered a -> ordered b -> box_area a == 0 -> box_area b == 0 ->
  box_iou1 a b = NaN.
Proof.
  intros Ha Hb Za Zb. unfold box_iou1.
  pose proof (bbox_inter_le_l a b Ha). pose proof (bbox_inter_nonneg a b).
  apply qdiv_zero_zero; [lra | unfold box_iou_den; lra].
Qed.

Lemma well_formed_ordered (b : box) : well_formed b -> ordered b.
Proof. intros [Hx Hy]. split; lra. Qed.

Lemma well_formed_area (b : box) : well_formed b -> 0 < box_area b.
Proof.
  intros [Hx Hy]. unfold box_area.
  apply Qmult_lt_0_compat; lra.
Qed.

(** Identical boxes of area A: the value of [bbox_iou] lies between
    A / (A + 1e-16) and 1. *)
Lemma plain_iou_identical_bounds (atan : fl -> fl) (pi : Q) (b : box) :
  ordered b ->
  exists q, plain_iou atan pi b b = Fin q /\
            box_area b / (box_area b + eps16) <= q /\ q <= 1.
Proof.
  intro Hb. destruct (plain_iou_range atan pi b b Hb Hb) as [q [E [_ Hq]]].
  exists q. split; [exact E|]. split; [|exact Hq].
  pose proof (plain_iou_identical atan pi b Hb) as Hid.
  rewrite E in Hid. cbn [feq] in Hid. rewrite Hid. apply Qle_refl.
Qed.

(** The aspect-ratio term vanishes when both boxes have the same width and
    height, whatever [atan] returns there. *)
Lemma ciou_v_same_shape (atan : fl -> fl) (pi : Q) (w h : Q) :
  is_finite (atan (qdiv w h)) = true -> ~ pi == 0 ->
  exists v, ciou_v atan pi w h w h = Fin v /\ v == 0.
Proof.
  intros Hfin Hpi. unfold ciou_v.
  destruct (atan (qdiv w h)) as [x| | |]; try discriminate.
  rewrite qdiv_nonzero.
  - cbn. eexists. split; [reflexivity|]. ring.
  - unfold Qsqr. intro H. apply Qmult_integral in H. tauto.
Qed.

(** Replace the closed quotients and shape arguments of a goal by their
    values. *)
Ltac eval_closed_qdiv :=
  repeat match goal with
         | |- context [qdiv ?r ?c] =>
             let x := eval vm_compute in (qdiv r c) in
             progress change (qdiv r c) with x
         end.

Ltac eval_ciou_shape atan pi :=
  match goal with
  | |- context [ciou_v atan pi ?a ?b ?c ?d] =>
      let a' := eval vm_compute in a in
      let b' := eval vm_compute in b in
      let c' := eval vm_compute in c in
      let d' := eval vm_compute in d in
      change (ciou_v atan pi a b c d) with (ciou_v atan pi a' b' c' d')
  end.

Lemma ciou_negative_example (atan : fl -> fl) (pi : Q) :
  (forall q, is_finite (atan (Fin q)) = true) -> ~ pi == 0 ->
  flt (bbox_iou1 atan pi true false false true ex_unit_box ex_far_box) (Fin 0) = true.
Proof.
  intros Hfin Hpi.
  unfold bbox_iou1. cbn [orb corners]. cbv zeta.
  eval_ciou_shape atan pi. eval_closed_qdiv.
  destruct (ciou_v_same_shape atan pi 1 1 (Hfin _) Hpi) as [v [-> Hv]].
  unfold ciou_alpha. cbn [fsub fopp fadd fdiv fmul].
  rewrite qdiv_nonzero.
  - cbn [fsub fopp fadd fdiv fmul flt]. apply Qlt_bool_iff. rewrite Hv.
    unfold eps16, Qdiv. ring_simplify. reflexivity.
  - rewrite Hv. unfold eps16. intro H. vm_compute in H. discriminate.
Qed.

(** C5, as stated, at identical boxes of area 1e-16: [bbox_iou] returns 1/2,
    not 1. *)
Lemma plain_iou_identical_tiny_box :
  well_formed ex_tiny_box /\
  feq (plain_iou ex_atan ex_pi ex_tiny_box ex_tiny_box) (Fin (1 # 2)) /\
  ~ feq (plain_iou ex_atan ex_pi ex_tiny_box ex_tiny_box) (Fin 1).
Proof.
  split; [split; reflexivity|].
  split; vm_compute; [reflexivity | discriminate].
Qed.

(** C5, amended.  On identical well-formed boxes of area A, [bbox_iou] in
    plain mode returns a number that is at least A / (A + 1e-16) and at
    most 1 (the epsilon of the union keeps it from 1 only when A is not
    large against 1e-16), and [box_iou] returns 1; on disjoint well-formed
    boxes both return 0; the plain IoU of two well-formed boxes lies in
    [0, 1] for [bbox_iou] and for [box_iou]; the GIoU, DIoU and CIoU
    variants take negative values (here on two unit boxes two units
    apart). *)
Theorem iou_identical_disjoint_range (atan : fl -> fl) (pi : Q) (a b : box) :
  well_formed a -> well_formed b ->
  ((exists q, plain_iou atan pi a a = Fin q /\
              box_area a / (box_area a + eps16) <= q /\ q <= 1) /\
   feq (box_iou1 a a) (Fin 1)) /\
  (disjoint a b ->
   feq (plain_iou atan pi a b) (Fin 0) /\ feq (box_iou1 a b) (Fin 0)) /\
  (exists q, plain_iou atan pi a b = Fin q /\ 0 <= q /\ q <= 1) /\
  (exists q, box_iou1 a b = Fin q /\ 0 <= q /\ q <= 1) /\
  (flt (bbox_iou1 atan pi true true false false ex_unit_box ex_far_box) (Fin 0) = true /\
   flt (bbox_iou1 atan pi true false true false ex_unit_box ex_far_box) (Fin 0) = true /\
   ((forall q, is_finite (atan (Fin q)) = true) -> ~ pi == 0 ->
    flt (bbox_iou1 atan pi true false false true ex_unit_box ex_far_box) (Fin 0) = true)).
Proof.
  intros Ha Hb.
  pose proof (well_formed_ordered a Ha) as Oa.
  pose proof (well_formed_ordered b Hb) as Ob.
  pose proof (well_formed_area a Ha) as Aa.
  pose proof (well_formed_area b Hb) as Ab.
  assert (Hsum : 0 < box_area a + box_area b) by lra.
  split; [|split; [|split; [|split]]].
  - split.
    + apply plain_iou_identical_bounds; assumption.
    + apply box_iou1_identical; assumption.
  - intro Hd. split.
    + apply plain_iou_disjoint; assumption.
    + apply box_iou1_disjoint; assumption.
  - apply plain_iou_range; assumption.
  - apply box_iou1_range; assumption.
  - split; [|split].
    + vm_compute. reflexivity.
    + vm_compute. reflexivity.
    + apply ciou_negative_example.
Qed.

Lemma iou_identical_disjoint_range_witness :
  feq (plain_iou ex_atan ex_pi ex_unit_box ex_far_box) (Fin 0) /\
  feq (box_iou1 ex_unit_box ex_far_box) (Fin 0).
Proof.
  apply (iou_identical_disjoint_range ex_atan ex_pi ex_unit_box ex_far_box).
  - split; reflexivity.
  - split; reflexivity.
  - left. vm_compute. discriminate.
Defined.

(** C4, at boxes without area.  The denominators of [box_iou] and [wh_iou]
    carry no epsilon: on a point box, and on a shape of size zero, they are
    zero and the quotient is 0/0. *)
Theorem box_iou_wh_iou_unguarded :
  (box_iou_den ex_point_box ex_point_box == 0 /\
   box_iou [ex_point_box] [ex_point_box] = [[NaN]]) /\
  (wh_iou_den (0, 0) (0, 0) == 0 /\
   wh_iou [(0, 0)] [(0, 0)] = [[NaN]]).
Proof.
  repeat split; vm_compute; reflexivity.
Qed.

(** The denominators [bbox_iou] does guard: on ordered boxes the union, the
    convex area and the squared convex diagonal, each with its 1e-16, are
    positive. *)
Lemma bbox_iou_guarded_denominators (a b : box) :
  ordered a -> ordered b ->
  let cw := Qmax (c2 a) (c2 b) - Qmin (c0 a) (c0 b) in
  let ch := Qmax (c3 a) (c3 b) - Qmin (c1 a) (c1 b) in
  0 < bbox_union a b /\ 0 < cw * ch + eps16 /\ 0 < Qsqr cw + Qsqr ch + eps16.
Proof.
  intros [Ha1 Ha2] [Hb1 Hb2]. cbv zeta.
  pose proof (Q.le_max_l (c2 a) (c2 b)). pose proof (Q.le_min_l (c0 a) (c0 b)).
  pose proof (Q.le_max_l (c3 a) (c3 b)). pose proof (Q.le_min_l (c1 a) (c1 b)).
  pose proof eps16_pos.
  split; [apply bbox_union_pos; split; assumption|].
  assert (Hw : 0 <= Qmax (c2 a) (c2 b) - Qmin (c0 a) (c0 b)) by lra.
  assert (Hh : 0 <= Qmax (c3 a) (c3 b) - Qmin (c1 a) (c1 b)) by lra.
  split.
  - pose proof (Qmult_le_0_compat _ _ Hw Hh). lra.
  - unfold Qsqr.
    pose proof (Qmult_le_0_compat _ _ Hw Hw). pose proof (Qmult_le_0_compat _ _ Hh Hh). lra.
Qed.

(** The CIoU branch of [bbox_iou] also divides widths by heights without an
    epsilon: on boxes without size the quotient handed to [atan] is 0/0. *)
Lemma ciou_aspect_ratio_unguarded :
  qdiv (c2 ex_point_box - c0 ex_point_box) (c3 ex_point_box - c1 ex_point_box) = NaN /\
  bbox_iou1 ex_atan ex_pi true false false true ex_point_box ex_point_box = NaN.
Proof. split; vm_compute; reflexivity. Qed.

(** ** [compute_ap] *)

Lemma maximum_accumulate_from_length (l : list Q) (m : Q) :
  length (maximum_accumulate_from m l) = length l.
Proof.
  revert m. induction l as [|a l IH]; intro m; cbn; [reflexivity | f_equal; apply IH].
Qed.

Lemma maximum_accumulate_from_ones (l : list Q) (m : Q) :
  m == 1 -> Forall (fun y => y <= 1) l ->
  Forall is_one (maximum_accumulate_from m l).
Proof.
  revert m. induction l as [|a l IH]; intros m Hm Hl; cbn; [constructor|].
  inversion Hl as [|? ? Ha Hl']; subst.
  assert (E : Qmax m a == 1).
  { rewrite (Q.max_l m a) by lra. exact Hm. }
  constructor; [exact E | apply IH; assumption].
Qed.

(** The running maximum never decreases, so the envelope never increases. *)
Lemma maximum_accumulate_from_sorted (l : list Q) (m : Q) :
  StronglySorted Qle (m :: maximum_accumulate_from m l).
Proof.
  revert m. induction l as [|a l IH]; intro m; cbn.
  - repeat constructor.
  - specialize (IH (Qmax m a)).
    inversion IH as [|? ? Hs Hall]; subst.
    constructor; [exact IH|].
    constructor; [apply Q.le_max_l|].
    eapply Forall_impl; [|exact Hall]. cbn. intros y Hy.
    eapply Qle_trans; [apply Q.le_max_l | exact Hy].
Qed.

Lemma StronglySorted_app_flip {A : Type} (R : A -> A -> Prop) (l : list A) (a : A) :
  StronglySorted R l -> Forall (fun y => R y a) l -> StronglySorted R (l ++ [a]).
Proof.
  induction 1 as [|b l Hs IH Hb]; intro Ha; cbn.
  - repeat constructor.
  - inversion Ha; subst. constructor; [apply IH; assumption|].
    apply Forall_app. split; [exact Hb | repeat constructor; assumption].
Qed.

Lemma StronglySorted_rev {A : Type} (R : A -> A -> Prop) (l : list A) :
  StronglySorted R l -> StronglySorted (fun x y => R y x) (rev l).
Proof.
  induction 1 as [|a l Hs IH Ha]; cbn; [constructor|].
  apply StronglySorted_app_flip; [exact IH|].
  apply Forall_rev. exact Ha.
Qed.

(** The processed precision curve is non-increasing from low to high recall. *)
Lemma envelope_nonincreasing (mpre : list Q) :
  StronglySorted (fun p q => q <= p) (envelope mpre).
Proof.
  unfold envelope. apply StronglySorted_rev. unfold maximum_accumulate.
  destruct (rev mpre) as [|x l]; [constructor|].
  apply maximum_accumulate_from_sorted.
Qed.

(** The envelope of a curve of ones between the two sentinels. *)
Lemma envelope_perfect (precision : list Q) :
  precision <> [] -> Forall is_one precision ->
  exists y0 M,
    envelope ([0] ++ precision ++ [0]) = (y0 :: M) ++ [0] /\
    Forall is_one (y0 :: M) /\ length M = length precision.
Proof.
  intros Hne Hall. unfold envelope. cbn [app].
  change (0 :: precision ++ [0]) with ([0] ++ precision ++ [0]).
  rewrite !rev_app_distr. cbn [rev app].
  assert (Hrev : Forall is_one (rev precision)) by (apply Forall_rev; exact Hall).
  destruct (rev precision) as [|q L] eqn:E.
  { exfalso. apply Hne. rewrite <- (rev_involutive precision), E. reflexivity. }
  cbn [app maximum_accumulate maximum_accumulate_from rev].
  inversion Hrev as [|? ? Hq HL]; subst.
  assert (E1 : Qmax 0 q == 1).
  { unfold is_one in Hq. rewrite (Q.max_r 0 q) by lra. exact Hq. }
  assert (Hones : Forall is_one (Qmax 0 q :: maximum_accumulate_from (Qmax 0 q) (L ++ [0]))).
  { constructor; [exact E1|]. apply maximum_accumulate_from_ones; [exact E1|].
    apply Forall_app. split.
    - eapply Forall_impl; [|exact HL]. unfold is_one. intros; lra.
    - repeat constructor. lra. }
  assert (Hlen : length (rev (maximum_accumulate_from (Qmax 0 q) (L ++ [0]) ) ++ [Qmax 0 q])
                 = S (length precision)).
  { rewrite length_app, length_rev, maximum_accumulate_from_length, length_app. cbn.
    rewrite <- (length_rev precision), E. cbn. lia. }
  apply Forall_rev in Hones. cbn [rev] in Hones.
  destruct (rev (maximum_accumulate_from (Qmax 0 q) (L ++ [0])) ++ [Qmax 0 q])
    as [|y0 M] eqn:EM; [cbn in Hlen; lia|].
  exists y0, M. repeat split; try assumption.
  cbn in Hlen. lia.
Qed.

Lemma combine_app_same {A B : Type} (a a' : list A) (b b' : list B) :
  length a = length b -> combine (a ++ a') (b ++ b') = combine a b ++ combine a' b'.
Proof.
  revert b. induction a as [|x a IH]; intros [|y b] H; cbn in *; try discriminate.
  - reflexivity.
  - f_equal. apply IH. lia.
Qed.

Lemma in_combine_pair_l {A B : Type} (l : list A) (l' : list B) (a : A) :
  length l = length l' -> In a l -> exists b, In (a, b) (combine l l').
Proof.
  revert l'. induction l as [|x l IH]; intros [|y l'] H Hin; cbn in *;
    try discriminate; try contradiction.
  destruct Hin as [-> | Hin].
  - exists y. left. reflexivity.
  - destruct (IH l' ltac:(lia) Hin) as [b Hb]. exists b. right. exact Hb.
Qed.

(** Below the last recall, interpolation between ones gives one. *)
Lemma interp_from_ones (x : Q) (body tail : list (Q * Q)) (x0 y0 : Q) :
  y0 == 1 -> Forall (fun p => snd p == 1) body ->
  (exists p, In p body /\ x < fst p) ->
  interp_from x x0 y0 (body ++ tail) == 1.
Proof.
  revert x0 y0. induction body as [|[x1 y1] body IH]; intros x0 y0 Hy0 Hall [p [Hin Hp]].
  - destruct Hin.
  - inversion Hall as [|? ? Hy1 Hall']; subst. cbn in Hy1. cbn [app interp_from].
    destruct (Qle_bool x1 x) eqn:E.
    + apply Qle_bool_iff in E. apply IH; try assumption.
      destruct Hin as [<- | Hin]; [cbn in Hp; lra|].
      exists p. split; assumption.
    + destruct (Qeq_bool x0 x); [exact Hy0|].
      rewrite Hy1, Hy0. unfold Qdiv. ring.
Qed.

Lemma last_cons_default {A : Type} (l : list A) (a d : A) :
  last (a :: l) d = last l a.
Proof.
  revert a d. induction l as [|b l IH]; intros a d; [reflexivity|].
  change (last (a :: b :: l) d) with (last (b :: l) d).
  rewrite (IH b d). symmetry. apply IH.
Qed.

(** At or beyond every sample, [np.interp] returns the last value. *)
Lemma interp_from_end (x : Q) (pts : list (Q * Q)) (x0 y0 : Q) :
  Forall (fun p => fst p <= x) pts ->
  interp_from x x0 y0 pts = snd (last pts (x0, y0)).
Proof.
  revert x0 y0. induction pts as [|[x1 y1] pts IH]; intros x0 y0 Hall; [reflexivity|].
  inversion Hall as [|? ? H1 Hall']; subst. cbn in H1.
  cbn [interp_from]. apply Qle_bool_iff in H1. rewrite H1.
  rewrite last_cons_default. apply IH. exact Hall'.
Qed.

Lemma trapz_compat (y y' x : list Q) :
  Forall2 Qeq y y' -> trapz y x == trapz y' x.
Proof.
  intro H. revert x. induction H as [|a a' l l' Ha Hl IH]; intro x; [reflexivity|].
  destruct Hl as [|b b' l2 l2' Hb Hl2].
  - destruct x as [|x0 [|x1 x]]; reflexivity.
  - destruct x as [|x0 [|x1 x]]; try reflexivity.
    change (trapz (a :: b :: l2) (x0 :: x1 :: x))
      with ((x1 - x0) * (b + a) / 2 + trapz (b :: l2) (x1 :: x)).
    change (trapz (a' :: b' :: l2') (x0 :: x1 :: x))
      with ((x1 - x0) * (b' + a') / 2 + trapz (b' :: l2') (x1 :: x)).
    rewrite (IH (x1 :: x)), Ha, Hb. reflexivity.
Qed.

Lemma Forall2_map_const (h : nat -> Q) (l : list nat) (c : Q) :
  (forall k, In k l -> h k == c) -> Forall2 Qeq (map h l) (repeat c (length l)).
Proof.
  induction l as [|k l IH]; intro H; cbn; constructor.
  - apply H. left. reflexivity.
  - apply IH. intros j Hj. apply H. right. exact Hj.
Qed.

Lemma linspace101_split :
  linspace101 =
  map (fun k => inject_Z (Z.of_nat k) / 100) (seq 0 100) ++ [inject_Z 100 / 100].
Proof. reflexivity. Qed.

Lemma linspace_point_range (k : nat) :
  In k (seq 0 100) ->
  0 <= inject_Z (Z.of_nat k) / 100 /\ inject_Z (Z.of_nat k) / 100 < 1.
Proof.
  intro H. apply in_seq in H.
  assert (H0 : 0 <= inject_Z (Z.of_nat k)).
  { change 0 with (inject_Z 0). rewrite <- Zle_Qle. lia. }
  assert (H1 : inject_Z (Z.of_nat k) < 100).
  { change 100 with (inject_Z 100). rewrite <- Zlt_Qlt. lia. }
  split.
  - apply Qle_shift_div_l; [reflexivity | lra].
  - apply Qlt_shift_div_r; [reflexivity | lra].
Qed.

(** The interpolated curve of a perfect detector: one at the first hundred
    points, and the sentinel zero at recall 1. *)
Lemma interp_perfect (recall : list Q) (s y0 : Q) (M : list Q) (rlast : Q) :
  In rlast recall -> rlast == 1 -> s == 1 ->
  Forall (fun r => r <= 1) recall ->
  Forall is_one (y0 :: M) -> length M = length recall ->
  Forall2 Qeq (interp linspace101 ([0] ++ recall ++ [s]) ((y0 :: M) ++ [0]))
              (repeat 1 100 ++ [0]).
Proof.
  intros Hin Hlast Hs Hle Hones Hlen.
  inversion Hones as [|? ? Hy0 HM]; subst.
  assert (Epts : combine ([0] ++ recall ++ [s]) ((y0 :: M) ++ [0]) =
                 (0, y0) :: combine recall M ++ [(s, 0)]).
  { change ([0] ++ recall ++ [s]) with ((0 :: recall) ++ [s]).
    rewrite combine_app_same by (cbn; lia). reflexivity. }
  unfold interp. rewrite Epts, linspace101_split, map_app.
  apply Forall2_app.
  - rewrite map_map.
    change 100%nat with (length (seq 0 100)) at 2.
    apply Forall2_map_const. intros k Hk.
    destruct (linspace_point_range k Hk) as [H0 H1].
    unfold interp1.
    assert (F : Qlt_bool (inject_Z (Z.of_nat k) / 100) 0 = false)
      by (apply Qlt_bool_false_iff; exact H0).
    rewrite F. apply interp_from_ones.
    + exact Hy0.
    + apply Forall_forall. intros [a b] Hab. cbn.
      apply in_combine_r in Hab. rewrite Forall_forall in HM. apply HM. exact Hab.
    + destruct (in_combine_pair_l recall M rlast (eq_sym Hlen) Hin) as [b Hb].
      exists (rlast, b). split; [exact Hb | cbn; lra].
  - cbn [map]. constructor; [|constructor].
    unfold interp1.
    assert (F : Qlt_bool (inject_Z 100 / 100) 0 = false) by reflexivity.
    rewrite F. rewrite interp_from_end.
    + rewrite last_last. reflexivity.
    + apply Forall_app. split.
      * apply Forall_forall. intros [a b] Hab. cbn.
        apply in_combine_l in Hab. rewrite Forall_forall in Hle.
        specialize (Hle a Hab). assert (E : inject_Z 100 / 100 == 1) by reflexivity.
        lra.
      * repeat constructor. cbn.
        assert (E : inject_Z 100 / 100 == 1) by reflexivity. lra.
Qed.

(** C6, for a perfect detector.  Whenever precision is 1 along the whole
    curve and recall ends at 1, [compute_ap] returns 199/200 = 0.995: the
    sentinel appended at recall 1 carries precision 0, and the last of the
    101 interpolation points reads it. *)
Theorem compute_ap_perfect_detector (recall precision : list Q) (rlast : Q) :
  length recall = length precision ->
  last recall 0 = rlast -> recall <> [] -> rlast == 1 ->
  Forall (fun r => r <= 1) recall ->
  Forall is_one precision ->
  exists ap, compute_ap recall precision = Some ap /\ ap == 199 # 200.
Proof.
  intros Hlen Hl Hne Hlast Hle Hones.
  assert (Hrev : exists t, rev recall = rlast :: t).
  { destruct (exists_last Hne) as [l' [a E]]. subst recall.
    rewrite last_last in Hl. subst a. rewrite rev_app_distr. cbn. eauto. }
  destruct Hrev as [t Hrev].
  assert (Hin : In rlast recall).
  { apply in_rev. rewrite Hrev. left. reflexivity. }
  assert (Hpne : precision <> []).
  { intro E. subst precision. destruct recall; [congruence | discriminate]. }
  destruct (envelope_perfect precision Hpne Hones) as [y0 [M [Eenv [HM HlenM]]]].
  unfold compute_ap. rewrite Hrev, Hlen, Nat.eqb_refl. cbn [negb].
  eexists. split; [reflexivity|].
  rewrite Eenv.
  rewrite (trapz_compat _ (repeat 1 100 ++ [0])).
  - vm_compute. reflexivity.
  - apply interp_perfect with (rlast := rlast); try assumption.
    + rewrite (Q.min_r (rlast + (1 # 1000)) 1) by lra. reflexivity.
    + lia.
Qed.

Lemma compute_ap_perfect_detector_witness :
  exists ap, compute_ap [1 # 2; 1] [1; 1] = Some ap /\ ap == 199 # 200.
Proof.
  apply (compute_ap_perfect_detector [1 # 2; 1] [1; 1] 1).
  - reflexivity.
  - reflexivity.
  - discriminate.
  - reflexivity.
  - repeat constructor; vm_compute; discriminate.
  - repeat constructor; reflexivity.
Defined.

(** The branch the function does not take, the computation of
    py-faster-rcnn its docstring names, gives 1 on the same curve. *)
Lemma compute_ap_continuous_perfect :
  exists ap, compute_ap_continuous [1 # 2; 1] [1; 1] = Some ap /\ ap == 1.
Proof. eexists. split; [vm_compute; reflexivity | reflexivity]. Qed.

(** ** Non-maximum suppression: the greedy pass *)

Lemma insert_desc_In (e x : nat * (box * Q)) (l : list (nat * (box * Q))) :
  In x (insert_desc e l) <-> x = e \/ In x l.
Proof.
  induction l as [|h l IH]; cbn.
  - intuition congruence.
  - destruct (Qle_bool (snd (snd h)) (snd (snd e))); cbn.
    + intuition congruence.
    + rewrite IH. intuition congruence.
Qed.

Lemma sort_desc_In (x : nat * (box * Q)) (l : list (nat * (box * Q))) :
  In x (sort_desc l) <-> In x l.
Proof.
  unfold sort_desc. induction l as [|e l IH]; cbn; [reflexivity|].
  rewrite insert_desc_In, IH. intuition congruence.
Qed.

Lemma insert_desc_sorted (e : nat * (box * Q)) (l : list (nat * (box * Q))) :
  StronglySorted not_below l -> StronglySorted not_below (insert_desc e l).
Proof.
  induction 1 as [|h l Hs IH Hh]; cbn.
  - repeat constructor.
  - destruct (Qle_bool (snd (snd h)) (snd (snd e))) eqn:E.
    + apply Qle_bool_iff in E. constructor; [constructor; assumption|].
      constructor; [exact E|].
      eapply Forall_impl; [|exact Hh]. unfold not_below, entry_score. intros; lra.
    + assert (E' : snd (snd e) < snd (snd h)).
      { apply Qnot_le_lt. intro Hle. apply Qle_bool_iff in Hle. congruence. }
      constructor; [exact IH|].
      apply Forall_forall. intros x Hx. apply insert_desc_In in Hx.
      destruct Hx as [-> | Hx]; [unfold not_below, entry_score; lra|].
      rewrite Forall_forall in Hh. apply Hh. exact Hx.
Qed.

Lemma sort_desc_sorted (l : list (nat * (box * Q))) :
  StronglySorted not_below (sort_desc l).
Proof.
  unfold sort_desc. induction l as [|e l IH]; cbn; [constructor|].
  apply insert_desc_sorted. exact IH.
Qed.

(** What the greedy pass maintains: the kept boxes are pairwise compatible
    in visiting order, everything kept outranks everything still to visit,
    and whatever was dropped is overlapped by a kept box that outranks it. *)
Lemma nms_greedy_spec (thr : Q) (order kept : list (nat * (box * Q))) :
  StronglySorted not_below order ->
  StronglySorted (compatible thr) (rev kept) ->
  Forall (fun k => Forall (not_below k) order) kept ->
  let res := nms_greedy thr order kept in
  StronglySorted (compatible thr) res /\
  (exists tail, res = rev kept ++ tail /\ forall e, In e tail -> In e order) /\
  (forall e, In e order ->
             In e res \/ exists k, In k res /\ suppresses thr k e = true /\ not_below k e).
Proof.
  revert kept. induction order as [|e order IH]; intros kept Hord Hkept Hrank;
    cbv zeta in *; cbn [nms_greedy].
  - split; [exact Hkept|]. split.
    + exists []. rewrite app_nil_r. split; [reflexivity | intros e []].
    + intros e [].
  - inversion Hord as [|? ? Hord' He]; subst.
    assert (Hrank' : Forall (fun k => Forall (not_below k) order) kept).
    { eapply Forall_impl; [|exact Hrank]. cbn. intros k Hk.
      inversion Hk; assumption. }
    destruct (existsb (fun k => suppresses thr k e) kept) eqn:Ex.
    + destruct (IH kept Hord' Hkept Hrank') as [H1 [[tail [H2 H2']] H3]].
      split; [exact H1|]. split.
      * exists tail. split; [exact H2|]. intros x Hx. right. apply H2'. exact Hx.
      * intros x [<- | Hx]; [|apply H3; exact Hx].
        right. apply existsb_exists in Ex. destruct Ex as [k [Hk Hs]].
        exists k. split; [|split].
        -- rewrite H2. apply in_or_app. left. rewrite <- in_rev. exact Hk.
        -- exact Hs.
        -- rewrite Forall_forall in Hrank. specialize (Hrank k Hk).
           inversion Hrank; assumption.
    + assert (Hkept' : StronglySorted (compatible thr) (rev (e :: kept))).
      { cbn [rev]. apply StronglySorted_app_flip; [exact Hkept|].
        apply Forall_rev. apply Forall_forall. intros k Hk.
        unfold compatible. destruct (suppresses thr k e) eqn:Es; [|reflexivity].
        assert (existsb (fun k => suppresses thr k e) kept = true)
          by (apply existsb_exists; exists k; split; assumption).
        congruence. }
      assert (Hrank'' : Forall (fun k => Forall (not_below k) order) (e :: kept))
        by (constructor; assumption).
      destruct (IH (e :: kept) Hord' Hkept' Hrank'') as [H1 [[tail [H2 H2']] H3]].
      split; [exact H1|]. split.
      * exists (e :: tail). split.
        -- rewrite H2. cbn [rev]. rewrite <- app_assoc. reflexivity.
        -- intros x [<- | Hx]; [left; reflexivity | right; apply H2'; exact Hx].
      * intros x [<- | Hx]; [|apply H3; exact Hx].
        left. rewrite H2. apply in_or_app. left. cbn [rev].
        apply in_or_app. right. left. reflexivity.
Qed.

Lemma nms_greedy_head (thr : Q) (e : nat * (box * Q)) (order : list (nat * (box * Q))) :
  exists tail, nms_greedy thr (e :: order) [] = e :: tail.
Proof.
  cbn [nms_greedy existsb].
  assert (H : forall order kept, exists tail, nms_greedy thr order kept = rev kept ++ tail).
  { clear. intro order. induction order as [|x order IH]; intro kept; cbn [nms_greedy].
    - exists []. rewrite app_nil_r. reflexivity.
    - destruct (existsb (fun k => suppresses thr k x) kept); [apply IH|].
      destruct (IH (x :: kept)) as [tail Ht]. exists (x :: tail).
      rewrite Ht. cbn [rev]. rewrite <- app_assoc. reflexivity. }
  destruct (H order [e]) as [tail Ht]. exists tail. rewrite Ht. reflexivity.
Qed.

(** The result of the suppression pass on a set of boxes. *)
Lemma nms_entries_spec (boxes : list box) (scores : list Q) (thr : Q) :
  let input := enumerate (combine boxes scores) in
  let res := nms_entries boxes scores thr in
  (forall e, In e res -> In e input) /\
  StronglySorted (compatible thr) res /\
  (forall e, In e input ->
             In e res \/ exists k, In k res /\ suppresses thr k e = true /\ not_below k e) /\
  (forall e, In e input -> exists e0, hd_error res = Some e0 /\ not_below e0 e).
Proof.
  cbn zeta. unfold nms_entries.
  set (input := enumerate (combine boxes scores)).
  pose proof (sort_desc_sorted input) as Hsorted.
  destruct (nms_greedy_spec thr (sort_desc input) [] Hsorted
              ltac:(constructor) ltac:(constructor)) as [H1 [[tail [H2 H2']] H3]].
  cbn [rev app] in H2. split; [|split; [|split]].
  - intros e He. rewrite H2 in He. apply sort_desc_In. apply H2'. exact He.
  - exact H1.
  - intros e He. apply H3. apply sort_desc_In. exact He.
  - intros e He. apply sort_desc_In in He.
    destruct (sort_desc input) as [|e0 order] eqn:Es; [destruct He|].
    destruct (nms_greedy_head thr e0 order) as [t Ht]. rewrite Ht.
    exists e0. split; [reflexivity|].
    destruct He as [<- | He]; [unfold not_below; lra|].
    inversion Hsorted as [|? ? _ Hall]; subst.
    rewrite Forall_forall in Hall. apply Hall. exact He.
Qed.

(** ** Non-maximum suppression: confidence of the returned rows *)

Lemma mapM_In {A B : Type} (f : A -> option B) (l : list A) (ys : list B) (y : B) :
  mapM f l = Some ys -> In y ys -> exists x, In x l /\ f x = Some y.
Proof.
  intros H Hy. apply In_nth_error in Hy. destruct Hy as [k Hk].
  destruct (mapM_nth_error f l ys H k y Hk) as [x [Hx Hf]].
  exists x. split; [eapply nth_error_In; exact Hx | exact Hf].
Qed.

Lemma enumerate_from_In {A : Type} (l : list A) (k j : nat) (a : A) :
  In (j, a) (enumerate_from k l) -> In a l.
Proof.
  revert k. induction l as [|x l IH]; intros k H; cbn in *; [exact H|].
  destruct H as [H | H]; [injection H as _ ->; left; reflexivity|].
  right. eapply IH. exact H.
Qed.

Lemma max_from_In (l : list (nat * Q)) (best : Q) (bi : nat) :
  fst (max_from best bi l) = best \/ In (fst (max_from best bi l)) (map snd l).
Proof.
  revert best bi. induction l as [|[j s] l IH]; intros best bi; cbn; [left; reflexivity|].
  destruct (Qlt_bool best s).
  - destruct (IH s j) as [-> | H]; [right; left; reflexivity | right; right; exact H].
  - destruct (IH best bi) as [H | H]; [left; exact H | right; right; exact H].
Qed.

Lemma row_max_In (l : list Q) (conf : Q) (j : nat) :
  row_max l = Some (conf, j) -> In conf l.
Proof.
  unfold row_max, enumerate. destruct l as [|s l]; cbn; [discriminate|].
  intro H. injection H as H.
  pose proof (max_from_In (enumerate_from 1 l) s 0) as Hm. rewrite H in Hm. cbn in Hm.
  destruct Hm as [-> | Hm]; [left; reflexivity|]. right.
  apply in_map_iff in Hm. destruct Hm as [[j' s'] [<- Hin]]. cbn.
  eapply enumerate_from_In. exact Hin.
Qed.

Lemma scale_cls_conf (x : list pred) (r' : pred) (conf : Q) :
  In r' (map scale_cls x) -> In conf (p_cls r') -> conf_of x conf.
Proof.
  intros Hr Hc. apply in_map_iff in Hr. destruct Hr as [r [<- Hr]].
  cbn in Hc. apply in_map_iff in Hc. destruct Hc as [s [<- Hs]].
  exists r, s. repeat split; assumption.
Qed.

(** Every candidate row has a confidence above the threshold, in both
    branches and whatever the class filter. *)
Lemma candidates_conf (nc : nat) (conf_thres : Q) (classes : option (list Z))
      (x : list pred) (rows : list cand6) :
  candidates nc conf_thres classes x = Returned rows ->
  forall c, In c rows -> conf_thres < d_conf c /\ conf_of x (d_conf c).
Proof.
  unfold candidates. intro H.
  assert (Hrows : exists rows0,
             (forall c, In c rows -> In c rows0) /\
             (forall c, In c rows0 -> conf_thres < d_conf c /\ conf_of x (d_conf c))).
  { destruct (Nat.ltb 1 nc).
    - exists (flat_map (multi_label_rows conf_thres) (map scale_cls x)). split.
      + intros c Hc. destruct classes as [[|c0 cs]|]; injection H as <-;
          try exact Hc. apply filter_In in Hc. exact (proj1 Hc).
      + intros c Hc. apply in_flat_map in Hc. destruct Hc as [r' [Hr' Hc]].
        unfold multi_label_rows in Hc. apply in_map_iff in Hc.
        destruct Hc as [[j s] [<- Hjs]]. apply filter_In in Hjs.
        destruct Hjs as [Hjs Hlt]. cbn in *. split.
        * apply Qlt_bool_iff. exact Hlt.
        * eapply scale_cls_conf; [exact Hr'|]. eapply enumerate_from_In. exact Hjs.
    - destruct (mapM best_class_row (map scale_cls x)) as [best|] eqn:Eb; [|discriminate].
      exists (filter (fun r => Qlt_bool conf_thres (d_conf r)) best). split.
      + intros c Hc. destruct classes as [[|c0 cs]|]; injection H as <-;
          try exact Hc. apply filter_In in Hc. exact (proj1 Hc).
      + intros c Hc. apply filter_In in Hc. destruct Hc as [Hc Hlt]. split.
        * apply Qlt_bool_iff. exact Hlt.
        * destruct (mapM_In _ _ _ _ Eb Hc) as [r' [Hr' Hbest]].
          unfold best_class_row in Hbest.
          destruct (row_max (p_cls r')) as [[conf j]|] eqn:Em; [|discriminate].
          injection Hbest as <-. cbn.
          eapply scale_cls_conf; [exact Hr'|]. eapply row_max_In. exact Em. }
  destruct Hrows as [rows0 [Hsub Hall]]. intros c Hc. apply Hall, Hsub, Hc.
Qed.

(** The rows returned for an image keep the confidence of a candidate. *)
Lemma merge_nms_conf (thr : Q) (x : list cand6) (boxes : list box) (scores : list Q)
      (i : list nat) (rows : list detection) (d : detection) :
  merge_nms thr x boxes scores i = Some rows -> In d rows ->
  exists c, In c x /\ o_conf d = d_conf c.
Proof.
  unfold merge_nms.
  destruct (mapM (merge_row thr x boxes scores) i) as [rows0|] eqn:E; [|discriminate].
  intro H. injection H as <-. intro Hd.
  apply in_map_iff in Hd. destruct Hd as [[k d'] [Hk Hin]]. cbn in Hk. subst d'.
  apply filter_In in Hin. destruct Hin as [Hin _].
  destruct (mapM_In _ _ _ _ E Hin) as [j [_ Hrow]].
  unfold merge_row in Hrow.
  destruct (nth_error boxes j) as [b|]; [|discriminate].
  destruct (nth_error x j) as [r|] eqn:Er; [|discriminate].
  destruct (merged_box (merge_weights thr b boxes scores) x) as [[[m0 m1] m2] m3].
  injection Hrow as _ <-. exists r. split; [eapply nth_error_In; exact Er | reflexivity].
Qed.

Lemma gather_conf (x : list cand6) (i : list nat) (rows : list detection) (d : detection) :
  mapM (fun k => option_map detection_of (nth_error x k)) i = Some rows -> In d rows ->
  exists c, In c x /\ o_conf d = d_conf c.
Proof.
  intros H Hd. destruct (mapM_In _ _ _ _ H Hd) as [k [_ Hk]].
  destruct (nth_error x k) as [c|] eqn:Ec; [|discriminate].
  cbn in Hk. injection Hk as <-. exists c.
  split; [eapply nth_error_In; exact Ec | reflexivity].
Qed.

Lemma select_rows_conf (thr : Q) (merge : bool) (x : list cand6) (boxes : list box)
      (scores : list Q) (i : list nat) (rows : list detection) (d : detection) :
  select_rows thr merge x boxes scores i = Some rows -> In d rows ->
  exists c, In c x /\ o_conf d = d_conf c.
Proof.
  unfold select_rows. cbv zeta.
  destruct (merge && (Nat.ltb 1 (length x) && Nat.ltb (length x) 3000)).
  - destruct (merge_nms thr x boxes scores i) as [mrows|] eqn:Em.
    + intro H. injection H as <-. apply merge_nms_conf with (1 := Em).
    + apply gather_conf.
  - apply gather_conf.
Qed.

Lemma nms_image_conf (nc : nat) (conf_thres iou_thres : Q) (merge : bool)
      (classes : option (list Z)) (agnostic : bool) (x : list pred)
      (rows : list detection) :
  nms_image nc conf_thres iou_thres merge classes agnostic x = Returned (Some rows) ->
  forall d, In d rows -> conf_thres < o_conf d /\ conf_of x (o_conf d).
Proof.
  unfold nms_image. intros H d Hd.
  destruct (filter (fun r => Qlt_bool conf_thres (p_obj r)) x) as [|r0 x'] eqn:Ex;
    [discriminate|].
  rewrite <- Ex in H.
  destruct (candidates nc conf_thres classes
              (filter (fun r => Qlt_bool conf_thres (p_obj r)) x))
    as [|cands] eqn:Ec; [discriminate|].
  destruct cands as [|c0 cands]; [discriminate|].
  cbv zeta in H.
  destruct (select_rows iou_thres merge (c0 :: cands)
              (offset_boxes agnostic (c0 :: cands)) (map d_conf (c0 :: cands))
              (kept_indices iou_thres (offset_boxes agnostic (c0 :: cands))
                            (map d_conf (c0 :: cands))))
    as [rows'|] eqn:Es; [|discriminate].
  injection H as <-.
  destruct (select_rows_conf _ _ _ _ _ _ _ _ Es Hd) as [c [Hin ->]].
  destruct (candidates_conf _ _ _ _ _ Ec c Hin) as [Hlt [r [s [Hr [Hs E]]]]].
  split; [exact Hlt|]. exists r, s. repeat split; try assumption.
  apply filter_In in Hr. exact (proj1 Hr).
Qed.

Lemma nms_loop_rows (late : nat -> bool) (nc : nat) (conf_thres iou_thres : Q)
      (merge : bool) (classes : option (list Z)) (agnostic : bool)
      (images : list (list pred)) (xi0 : nat)
      (outs : list (option (list detection))) :
  nms_loop late nc conf_thres iou_thres merge classes agnostic xi0 images = Returned outs ->
  forall xi rows, nth_error outs xi = Some (Some rows) ->
    exists x, nth_error images xi = Some x /\
              nms_image nc conf_thres iou_thres merge classes agnostic x =
              Returned (Some rows).
Proof.
  revert xi0 outs. induction images as [|x images IH]; intros xi0 outs H xi rows Hxi.
  - cbn in H. injection H as <-. destruct xi; discriminate.
  - cbn in H.
    destruct (nms_image nc conf_thres iou_thres merge classes agnostic x)
      as [|o] eqn:Ei; [discriminate|].
    destruct (match o with Some _ => late xi0 | None => false end).
    + injection H as <-. destruct xi as [|xi]; cbn in Hxi.
      * injection Hxi as ->. exists x. split; [reflexivity | exact Ei].
      * rewrite nth_error_map in Hxi.
        destruct (nth_error images xi); discriminate.
    + destruct (nms_loop late nc conf_thres iou_thres merge classes agnostic
                         (S xi0) images) as [|os] eqn:El; [discriminate|].
      injection H as <-. destruct xi as [|xi]; cbn in Hxi.
      * injection Hxi as ->. exists x. split; [reflexivity | exact Ei].
      * cbn. eapply IH; [exact El | exact Hxi].
Qed.

(** C10. Every row returned by [non_max_suppression] for an image has a
    confidence strictly above [conf_thres], and that confidence is the
    objectness of a row of that image multiplied by one of its class scores;
    this holds in the multi-label and in the best-class branch, with or
    without merging. *)
Theorem nms_confidence_above_threshold
        (late : nat -> bool) (p : prediction) (conf_thres iou_thres : Q)
        (merge : bool) (classes : option (list Z)) (agnostic : bool)
        (outs : list (option (list detection))) :
  non_max_suppression late p conf_thres iou_thres merge classes agnostic = Returned outs ->
  forall xi rows d,
    nth_error outs xi = Some (Some rows) -> In d rows ->
    conf_thres < o_conf d /\
    exists x, nth_error (pr_images p) xi = Some x /\ conf_of x (o_conf d).
Proof.
  unfold non_max_suppression. intros H xi rows d Hxi Hd.
  destruct (pr_images p) as [|x0 images] eqn:Ep; [discriminate|].
  destruct (nms_loop_rows _ _ _ _ _ _ _ _ _ _ H xi rows Hxi) as [x [Hx Hi]].
  destruct (nms_image_conf _ _ _ _ _ _ _ _ Hi d Hd) as [Hlt Hc].
  split; [exact Hlt|]. exists x. split; assumption.
Qed.

Lemma nms_confidence_above_threshold_witness :
  1 # 10 < o_conf ex_nms_first /\
  exists x, nth_error (pr_images ex_prediction) 0 = Some x /\
            conf_of x (o_conf ex_nms_first).
Proof.
  exact (nms_confidence_above_threshold
           ex_never_late ex_prediction (1 # 10) (1 # 2) false None false
           ex_nms_outs eq_refl 0%nat ex_nms_rows ex_nms_first eq_refl
           (or_introl eq_refl)).
Defined.

(** ** Non-maximum suppression: what survives *)



Lemma candidates_nil (nc : nat) (conf_thres : Q) (classes : option (list Z)) :
  candidates nc conf_thres classes [] = Returned [].
Proof.
  unfold candidates. cbn [map flat_map mapM filter].
  destruct (Nat.ltb 1 nc), classes as [[|c cs]|]; reflexivity.
Qed.







(** ** [compute_loss] *)

Lemma fadd_nan_r (a : fl) : fadd a NaN = NaN.
Proof. destruct a; reflexivity. Qed.

Lemma fsub_nan_r (a : fl) : fsub a NaN = NaN.
Proof. destruct a; reflexivity. Qed.

Lemma fmul_nan_r (a : fl) : fmul a NaN = NaN.
Proof. destruct a; reflexivity. Qed.

Lemma fsum_nan (l : list fl) : In NaN l -> fsum l = NaN.
Proof.
  unfold fsum. induction l as [|a l IH]; cbn; [intros []|]. intros [H | H].
  - subst a. reflexivity.
  - rewrite (IH H). apply fadd_nan_r.
Qed.

Lemma fmean_nan (l : list fl) : In NaN l -> fmean l = NaN.
Proof. intro H. unfold fmean. rewrite (fsum_nan l H). reflexivity. Qed.

(** A predicted box without width and height makes CIoU divide 0 by 0:
    the quotient w1 / h1 is NaN and so is the result. *)
Lemma ciou_degenerate (atan : fl -> fl) (pi : Q) (b1 b2 : box) :
  atan NaN = NaN -> c2 b1 == 0 -> c3 b1 == 0 ->
  bbox_iou1 atan pi false false false true b1 b2 = NaN.
Proof.
  intros Hatan Hw Hh. unfold bbox_iou1. cbn [orb corners c0 c1 c2 c3]. cbv zeta.
  assert (E : qdiv (c0 b1 + c2 b1 / 2 - (c0 b1 - c2 b1 / 2))
                   (c1 b1 + c3 b1 / 2 - (c1 b1 - c3 b1 / 2)) = NaN).
  { apply qdiv_zero_zero.
    - rewrite Hw. unfold Qdiv. ring.
    - rewrite Hh. unfold Qdiv. ring. }
  unfold ciou_v, ciou_alpha. cbv zeta. rewrite E, Hatan, fsub_nan_r.
  change (fmul NaN NaN) with NaN. rewrite fmul_nan_r.
  cbn [fdiv fmul]. rewrite fadd_nan_r, fsub_nan_r.
  reflexivity.
Qed.

Section LossFacts.

Variable sigmoid : Q -> Q.
Variable atan : fl -> fl.
Variable pi : Q.
Variable bce_with_logits : Q -> Q -> fl -> fl.
Variable fpow : fl -> Q -> fl.

Lemma decode_box_saturated (row : list Q) (anchor : Q * Q) :
  sigmoid (nth 2 row 0) = 0 -> sigmoid (nth 3 row 0) = 0 ->
  c2 (decode_box sigmoid row anchor) == 0 /\ c3 (decode_box sigmoid row anchor) == 0.
Proof.
  intros H2 H3. unfold decode_box, Qsqr. cbn [c2 c3]. rewrite H2, H3. split; ring.
Qed.

Lemma layer_giou_saturated (ps : list (list Q)) (lt : layer_targets)
      (row : list Q) (anchor : Q * Q) (tb : Q * Q * Q * Q) :
  atan NaN = NaN ->
  In (row, anchor, tb) (combine (combine ps (anch lt)) (tbox lt)) ->
  sigmoid (nth 2 row 0) = 0 -> sigmoid (nth 3 row 0) = 0 ->
  In NaN (layer_giou sigmoid atan pi ps lt).
Proof.
  intros Hatan Hin H2 H3. unfold layer_giou. apply in_map_iff.
  exists (row, anchor, tb). split; [|exact Hin]. cbn [fst snd].
  destruct (decode_box_saturated row anchor H2 H3) as [Hw Hh].
  apply ciou_degenerate; assumption.
Qed.

(** What one layer does to the three accumulators. *)
Lemma layer_loss_effect (m : model) (pi_ : tensor5) (lt : layer_targets) (b : Q)
      (lcls lbox lobj lcls' lbox' lobj' : fl) :
  layer_loss sigmoid atan pi bce_with_logits fpow m pi_ lt b (lcls, lbox, lobj) =
  Returned (lcls', lbox', lobj') ->
  (lbox = NaN -> lbox' = NaN) /\
  (atan NaN = NaN -> saturated sigmoid pi_ lt -> lbox' = NaN) /\
  ((m_nc m <= 1)%nat -> lcls' = lcls).
Proof.
  unfold layer_loss. cbv zeta.
  destruct (negb (Nat.eqb (length (idx_b lt)) 0)) eqn:En.
  - destruct (mapM (locate pi_) (slots lt)) as [found|] eqn:Ef; [|discriminate].
    destruct (Nat.ltb_spec 1 (m_nc m)) as [Hnc | Hnc].
    + cbn [smooth_BCE].
      destruct (mapM _ (combine (map snd found) (tcls lt))) as [t|]; [|discriminate].
      intro H. injection H as <- <- <-. split; [|split].
      * intros ->. reflexivity.
      * intros Hatan [found' [row [anchor [tb [Hf [Hin [H2 H3]]]]]]].
        rewrite Ef in Hf. injection Hf as <-.
        rewrite fmean_nan; [apply fadd_nan_r|].
        apply in_map_iff. exists NaN. split; [reflexivity|].
        eapply layer_giou_saturated; eassumption.
      * intro. lia.
    + intro H. injection H as <- <- <-. split; [|split].
      * intros ->. reflexivity.
      * intros Hatan [found' [row [anchor [tb [Hf [Hin [H2 H3]]]]]]].
        rewrite Ef in Hf. injection Hf as <-.
        rewrite fmean_nan; [apply fadd_nan_r|].
        apply in_map_iff. exists NaN. split; [reflexivity|].
        eapply layer_giou_saturated; eassumption.
      * reflexivity.
  - intro H. injection H as <- <- <-. split; [|split].
    + intros ->. reflexivity.
    + intros _ [found [row [anchor [tb [Hf [Hin _]]]]]].
      apply negb_false_iff, Nat.eqb_eq in En.
      assert (Hs : slots lt = []).
      { unfold slots. destruct (idx_b lt); [reflexivity | discriminate]. }
      rewrite Hs in Hf. cbn in Hf. injection Hf as <-. destruct Hin.
    + reflexivity.
Qed.

Lemma loss_layers_effect (m : model) (p : list tensor5) (layers : list layer_targets)
      (balance : list Q) (lcls lbox lobj lcls' lbox' lobj' : fl) :
  loss_layers sigmoid atan pi bce_with_logits fpow m p layers balance (lcls, lbox, lobj) =
  Returned (lcls', lbox', lobj') ->
  (lbox = NaN -> lbox' = NaN) /\
  (atan NaN = NaN ->
   (exists i pi_ lt, nth_error p i = Some pi_ /\ nth_error layers i = Some lt /\
                     saturated sigmoid pi_ lt) ->
   lbox' = NaN) /\
  ((m_nc m <= 1)%nat -> lcls' = lcls).
Proof.
  revert layers balance lcls lbox lobj.
  induction p as [|pi_ p IH]; intros layers balance lcls lbox lobj; cbn [loss_layers].
  - intro H. injection H as <- <- <-. split; [auto|]. split; [|auto].
    intros _ [i [x [lt [Hi _]]]]. destruct i; discriminate.
  - destruct layers as [|lt layers]; [discriminate|].
    destruct balance as [|b balance]; [discriminate|].
    destruct (layer_loss sigmoid atan pi bce_with_logits fpow m pi_ lt b (lcls, lbox, lobj))
      as [|[[lcls1 lbox1] lobj1]] eqn:El;
      [discriminate|].
    intro H. destruct (layer_loss_effect _ _ _ _ _ _ _ _ _ _ El) as [L1 [L2 L3]].
    destruct (IH _ _ _ _ _ H) as [I1 [I2 I3]].
    split; [|split].
    + intro Hn. apply I1, L1, Hn.
    + intros Hatan [i [x [lt' [Hi [Hl Hsat]]]]].
      destruct i as [|i]; cbn in Hi, Hl.
      * injection Hi as <-. injection Hl as <-. apply I1. apply L2; assumption.
      * apply I2; [exact Hatan|]. exists i, x, lt'. repeat split; assumption.
    + intro Hnc. rewrite (I3 Hnc). apply L3. exact Hnc.
Qed.

(** With a single class the loop never touches [lcls]; with a saturated
    assignment the box loss, and with it the total, is NaN. *)
Lemma compute_loss_effect (p : list tensor5) (targets : list target) (m : model)
      (n_imgs : nat) (layers : list layer_targets) (r : loss_out) :
  build_targets (map shape_of p) targets (m_det m) (h_anchor_t (m_hyp m)) = Some layers ->
  compute_loss sigmoid atan pi bce_with_logits fpow p targets m n_imgs = Returned r ->
  ((m_nc m <= 1)%nat -> feq (out_lcls r) (Fin 0)) /\
  (atan NaN = NaN ->
   (exists i pi_ lt, nth_error p i = Some pi_ /\ nth_error layers i = Some lt /\
                     saturated sigmoid pi_ lt) ->
   total r = NaN /\ out_lbox r = NaN /\ out_loss r = NaN).
Proof.
  intros Hb. unfold compute_loss. rewrite Hb. cbv zeta.
  destruct (negb (Nat.eqb n_imgs 0) && (Nat.ltb (length p) 3 || Nat.ltb (length layers) 3));
    [discriminate|].
  destruct (loss_layers sigmoid atan pi bce_with_logits fpow m p layers _ (Fin 0, Fin 0, Fin 0))
    as [|[[lcls lbox] lobj]] eqn:El; [discriminate|].
  destruct (rev p) as [|last_pi rp]; [discriminate|].
  intro H. injection H as <-. cbn [total out_lbox out_lcls out_loss].
  destruct (loss_layers_effect _ _ _ _ _ _ _ _ _ _ El) as [_ [L2 L3]].
  split.
  - intro Hnc. rewrite (L3 Hnc). cbn. ring.
  - intros Hatan Hsat. rewrite (L2 Hatan Hsat). cbn [fmul fadd]. repeat split.
Qed.

(** When the loop runs through: every layer has its targets and its balance
    entry, the assigned slots exist, and there is a single class. *)
Lemma loss_layers_returns (m : model) (p : list tensor5) (layers : list layer_targets)
      (balance : list Q) (acc : fl * fl * fl) :
  (m_nc m <= 1)%nat ->
  (length p <= length balance)%nat ->
  Forall2 (fun pi_ lt => mapM (locate pi_) (slots lt) <> None) p layers ->
  exists acc',
    loss_layers sigmoid atan pi bce_with_logits fpow m p layers balance acc = Returned acc'.
Proof.
  intros Hnc Hbal Hall. revert balance acc Hbal.
  induction Hall as [|pi_ lt p layers Hloc Hall IH]; intros balance acc Hbal;
    cbn [loss_layers].
  - eexists. reflexivity.
  - destruct balance as [|b balance]; [cbn in Hbal; lia|].
    assert (Hl : exists acc1,
               layer_loss sigmoid atan pi bce_with_logits fpow m pi_ lt b acc = Returned acc1).
    { destruct acc as [[lcls lbox] lobj]. unfold layer_loss. cbv zeta.
      destruct (Nat.ltb_spec 1 (m_nc m)); [lia|].
      destruct (negb (Nat.eqb (length (idx_b lt)) 0)).
      - destruct (mapM (locate pi_) (slots lt)); [|congruence].
        eexists. reflexivity.
      - eexists. reflexivity. }
    destruct Hl as [acc1 Hl]. rewrite Hl. apply IH. cbn in Hbal. lia.
Qed.

End LossFacts.

(** C8, at a saturated prediction.  One image, one ground truth in the
    middle of a cell, one matching anchor, one class.  The width and height
    logits of the matched slot are -200, where the float sigmoid is exactly
    0: the decoded box has no size, CIoU divides 0 by 0, and the call
    returns a total loss that is NaN.  The classification component is
    zero, as claimed. *)
Theorem compute_loss_nan_at_saturated_prediction
        (sigmoid : Q -> Q) (atan : fl -> fl) (pi : Q)
        (bce_with_logits : Q -> Q -> fl -> fl) (fpow : fl -> Q -> fl) :
  sigmoid (- 200) = 0 -> atan NaN = NaN ->
  exists r,
    compute_loss sigmoid atan pi bce_with_logits fpow ex_p3 [ex_gt_loss] ex_model 1 =
    Returned r /\
    total r = NaN /\ is_finite (total r) = false /\ feq (out_lcls r) (Fin 0).
Proof.
  intros Hsig Hatan.
  assert (Hb : build_targets (map shape_of ex_p3) [ex_gt_loss] (m_det ex_model)
                             (h_anchor_t (m_hyp ex_model)) = Some ex_layers3)
    by (vm_compute; reflexivity).
  assert (Hret : exists r, compute_loss sigmoid atan pi bce_with_logits fpow
                                        ex_p3 [ex_gt_loss] ex_model 1 = Returned r).
  { unfold compute_loss. rewrite Hb. cbv zeta.
    change (negb (Nat.eqb 1 0) && (Nat.ltb (length ex_p3) 3 || Nat.ltb (length ex_layers3) 3))
      with false. cbv iota.
    destruct (loss_layers_returns sigmoid atan pi bce_with_logits fpow ex_model
                ex_p3 ex_layers3 [4; 1; 4 # 10] (Fin 0, Fin 0, Fin 0))
      as [[[lcls lbox] lobj] Hl].
    - cbn. lia.
    - cbn. lia.
    - repeat constructor; vm_compute; discriminate.
    - change (Nat.eqb (length ex_p3) 3) with true. cbv iota. rewrite Hl.
      eexists. reflexivity. }
  destruct Hret as [r Hr]. exists r. split; [exact Hr|].
  destruct (compute_loss_effect sigmoid atan pi bce_with_logits fpow
              ex_p3 [ex_gt_loss] ex_model 1 ex_layers3 r Hb Hr) as [Hcls Hnan].
  assert (Hsat : exists i pi_ lt,
             nth_error ex_p3 i = Some pi_ /\ nth_error ex_layers3 i = Some lt /\
             saturated sigmoid pi_ lt).
  { exists 0%nat. do 2 eexists. split; [reflexivity|]. split; [reflexivity|].
    exists [((0, 0, 1, 1)%nat, ex_sat_row)], ex_sat_row, (1, 1),
           (4 # 8, 4 # 8, 4 # 4, 4 # 4).
    split; [vm_compute; reflexivity|]. split; [left; reflexivity|].
    split; exact Hsig. }
  destruct (Hnan Hatan Hsat) as [Ht _]. rewrite Ht.
  repeat split. apply Hcls. cbn. lia.
Qed.

Lemma compute_loss_nan_at_saturated_prediction_witness :
  exists r,
    compute_loss ex_sigmoid ex_atan ex_pi ex_bce ex_pow ex_p3 [ex_gt_loss] ex_model 1 =
    Returned r /\
    total r = NaN /\ is_finite (total r) = false /\ feq (out_lcls r) (Fin 0).
Proof.
  apply (compute_loss_nan_at_saturated_prediction ex_sigmoid ex_atan ex_pi ex_bce ex_pow).
  - reflexivity.
  - reflexivity.
Defined.

(** ** Box conversions: the other direction *)

Lemma xyxy2xywh_xywh2xyxy_row (b : box) :
  box_eq (xyxy2xywh_row (xywh2xyxy_row b)) b.
Proof.
  destruct b as [x y w h]. unfold box_eq; cbn. repeat split; field.
Qed.

(** X1. Converting an n x 4 tensor of centre/size boxes to corners and back
    gives the same tensor, whether the corners come from [xywh2xyxy] or from
    its numpy twin [xywhToxyxy]: the two conversions are inverse to each
    other in this direction as well. *)
Theorem xyxy2xywh_xywh2xyxy_roundtrip (b : list box) :
  Forall2 box_eq (xyxy2xywh (xywh2xyxy b)) b /\
  Forall2 box_eq (xyxy2xywh (xywhToxyxy b)) b.
Proof.
  unfold xywh2xyxy, xywhToxyxy, xyxy2xywh.
  split; induction b as [|r b IH]; cbn [map]; constructor;
    try exact IH; apply xyxy2xywh_xywh2xyxy_row.
Qed.

(** ** Image sizes *)

Lemma inject_Z_pos (d : Z) : (0 < d)%Z -> 0 < inject_Z d.
Proof. intro H. change 0 with (inject_Z 0). rewrite <- Zlt_Qlt. exact H. Qed.

Lemma make_divisible_value (x : Q) (d : Z) :
  (0 < d)%Z -> make_divisible x d = Some (Qceiling (x / inject_Z d) * d)%Z.
Proof.
  intro Hd. unfold make_divisible.
  destruct (Z.eqb_spec d 0) as [E|E]; [lia | reflexivity].
Qed.

Lemma ceiling_multiple_bounds (x : Q) (d : Z) :
  (0 < d)%Z ->
  x <= inject_Z (Qceiling (x / inject_Z d) * d) /\
  inject_Z (Qceiling (x / inject_Z d) * d) < x + inject_Z d.
Proof.
  intro Hd. pose proof (inject_Z_pos d Hd) as Hq.
  pose proof (Qle_ceiling (x / inject_Z d)) as Hle.
  pose proof (Qceiling_lt (x / inject_Z d)) as Hlt.
  rewrite inject_Z_mult.
  set (c := Qceiling (x / inject_Z d)) in *.
  assert (Hx : x == x / inject_Z d * inject_Z d) by (field; lra).
  unfold Z.sub in Hlt. rewrite inject_Z_plus in Hlt.
  change (inject_Z (- (1))) with (- (1)) in Hlt.
  split.
  - rewrite Hx at 1. apply Qmult_le_compat_r; lra.
  - assert (H : (inject_Z c + - (1)) * inject_Z d < x / inject_Z d * inject_Z d)
      by (apply Qmult_lt_compat_r; assumption).
    rewrite <- Hx in H. lra.
Qed.

Lemma ceiling_multiple_least (x : Q) (d k : Z) :
  (0 < d)%Z -> x <= inject_Z (k * d) ->
  (Qceiling (x / inject_Z d) * d <= k * d)%Z.
Proof.
  intros Hd Hk. pose proof (inject_Z_pos d Hd) as Hq.
  apply Z.mul_le_mono_nonneg_r; [lia|].
  rewrite <- (Qceiling_Z k). apply Qceiling_resp_le.
  apply Qle_shift_div_r; [exact Hq|].
  rewrite <- inject_Z_mult. exact Hk.
Qed.

(** X2. For a positive divisor [make_divisible] returns the least multiple
    of the divisor that is not below [x]: a multiple, at least [x], less
    than one divisor above [x]; with a zero divisor it raises. *)
Theorem make_divisible_least_multiple (x : Q) (d : Z) :
  (0 < d)%Z ->
  make_divisible x 0 = None /\
  exists r,
    make_divisible x d = Some r /\
    (d | r)%Z /\
    x <= inject_Z r /\ inject_Z r < x + inject_Z d /\
    (forall k : Z, x <= inject_Z (k * d) -> (r <= k * d)%Z).
Proof.
  intro Hd. split; [reflexivity|].
  exists (Qceiling (x / inject_Z d) * d)%Z.
  split; [apply make_divisible_value; exact Hd|].
  split; [exists (Qceiling (x / inject_Z d)); reflexivity|].
  destruct (ceiling_multiple_bounds x d Hd) as [H1 H2].
  split; [exact H1|]. split; [exact H2|].
  intros k Hk. apply ceiling_multiple_least; assumption.
Qed.

Lemma make_divisible_least_multiple_witness :
  make_divisible 100 0 = None /\
  exists r,
    make_divisible 100 32 = Some r /\
    (32 | r)%Z /\
    100 <= inject_Z r /\ inject_Z r < 100 + inject_Z 32 /\
    (forall k : Z, 100 <= inject_Z (k * 32) -> (r <= k * 32)%Z).
Proof.
  exact (make_divisible_least_multiple 100 32 eq_refl).
Defined.

Lemma ceiling_of_multiple (k d : Z) :
  (0 < d)%Z -> Qceiling (inject_Z (k * d) / inject_Z d) = k.
Proof.
  intro Hd. pose proof (inject_Z_pos d Hd) as Hq.
  rewrite <- (Qceiling_Z k) at 2. apply Qceiling_comp.
  rewrite inject_Z_mult. field. lra.
Qed.

(** X3. [check_img_size] with a stride whose integer part is positive
    returns a multiple of that stride which is not below the requested
    size; the warning is printed exactly when the requested size was not
    already such a multiple, and checking the returned size again changes
    nothing and prints nothing. *)
Theorem check_img_size_multiple (img_size s : Q) :
  (0 < Qtrunc s)%Z ->
  exists new_size warned,
    check_img_size img_size s = Some (new_size, warned) /\
    (Qtrunc s | new_size)%Z /\
    img_size <= inject_Z new_size /\
    (warned = false <-> exists k : Z, img_size == inject_Z (k * Qtrunc s)) /\
    check_img_size (inject_Z new_size) s = Some (new_size, false).
Proof.
  intro Hd. set (d := Qtrunc s) in *.
  unfold check_img_size. fold d.
  rewrite (make_divisible_value img_size d Hd).
  set (c := Qceiling (img_size / inject_Z d)).
  exists (c * d)%Z. eexists. split; [reflexivity|].
  split; [exists c; reflexivity|].
  split; [apply ceiling_multiple_bounds; exact Hd|].
  split.
  - rewrite negb_false_iff. split.
    + intro H. apply Qeq_bool_iff in H. exists c. symmetry. exact H.
    + intros [k Hk]. apply Qeq_bool_iff.
      assert (E : c = k).
      { unfold c. rewrite (Qceiling_comp _ _ (Qdiv_comp _ _ Hk _ _ (Qeq_refl _))).
        apply ceiling_of_multiple. exact Hd. }
      rewrite E. symmetry. exact Hk.
  - rewrite (make_divisible_value _ d Hd), ceiling_of_multiple by exact Hd.
    f_equal. f_equal. rewrite negb_false_iff. apply Qeq_bool_iff. reflexivity.
Qed.

Lemma check_img_size_multiple_witness :
  exists new_size warned,
    check_img_size 100 32 = Some (new_size, warned) /\
    (Qtrunc 32 | new_size)%Z /\
    100 <= inject_Z new_size /\
    (warned = false <-> exists k : Z, 100 == inject_Z (k * Qtrunc 32)) /\
    check_img_size (inject_Z new_size) 32 = Some (new_size, false).
Proof.
  exact (check_img_size_multiple 100 32 eq_refl).
Defined.

(** ** Clipping and rescaling *)

Lemma feq_refl (a : fl) : feq a a.
Proof. destruct a; cbn; auto. reflexivity. Qed.

Lemma feq_sym (a b : fl) : feq a b -> feq b a.
Proof. destruct a, b; cbn; auto. intro H. symmetry. exact H. Qed.

Lemma feq_trans (a b c : fl) : feq a b -> feq b c -> feq a c.
Proof.
  destruct a, b, c; cbn; auto; try contradiction.
  intros H1 H2. rewrite H1. exact H2.
Qed.

Lemma fbox_eq_refl (b : fbox) : fbox_eq b b.
Proof. unfold fbox_eq. repeat split; apply feq_refl. Qed.

Lemma fclamp_clipped (lo hi : Q) (x : fl) :
  lo <= hi -> fl_clipped lo hi (fclamp lo hi x).
Proof.
  intro H. unfold fl_clipped, fclamp.
  destruct x as [q| | |]; cbn; [right|right|right|left; reflexivity].
  - destruct (Q.max_spec q lo) as [[? E1]|[? E1]];
      destruct (Q.min_spec (Qmax q lo) hi) as [[? E2]|[? E2]]; lra.
  - lra.
  - destruct (Q.min_spec lo hi) as [[? E]|[? E]]; lra.
Qed.

Lemma fclamp_within (lo hi : Q) (x : fl) :
  fl_within lo hi x -> feq (fclamp lo hi x) x.
Proof.
  destruct x as [q| | |]; cbn [fl_within]; try contradiction. intros [H1 H2].
  change (Qmin (Qmax q lo) hi == q).
  destruct (Q.max_spec q lo) as [[? E1]|[? E1]];
    destruct (Q.min_spec (Qmax q lo) hi) as [[? E2]|[? E2]]; lra.
Qed.


Lemma inject_Z_nonneg (d : Z) : (0 <= d)%Z -> 0 <= inject_Z d.
Proof. intro H. change 0 with (inject_Z 0). rewrite <- Zle_Qle. exact H. Qed.

Lemma clip_coords_row_clipped (img_shape : Z * Z) (b : fbox) :
  (0 <= fst img_shape)%Z -> (0 <= snd img_shape)%Z ->
  fbox_clipped img_shape (clip_coords_row img_shape b).
Proof.
  intros Hh Hw. apply inject_Z_nonneg in Hh, Hw.
  unfold fbox_clipped, clip_coords_row; cbn [f0 f1 f2 f3].
  repeat split; apply fclamp_clipped; assumption.
Qed.







Lemma unpad_pad (g p x : Q) :
  ~ g == 0 -> feq (fdiv (fsub (Fin (x * g + p)) (Fin p)) (Fin g)) (Fin x).
Proof.
  intro Hg. cbn [fsub fopp fadd fdiv]. rewrite (qdiv_nonzero _ g Hg).
  cbn. field. exact Hg.
Qed.

Lemma fclamp_feq (lo hi : Q) (a b : fl) :
  feq a b -> feq (fclamp lo hi a) (fclamp lo hi b).
Proof.
  destruct a as [x| | |], b as [y| | |]; cbn; try contradiction; auto;
    try reflexivity.
  intro H. rewrite H. reflexivity.
Qed.

Lemma unpad_clip_pad_row (img0_shape : Z * Z) (g : Q) (pad : Q * Q) (b : box) :
  ~ g == 0 -> fbox_within img0_shape (fbox_of b) ->
  fbox_eq (clip_coords_row img0_shape (unpad_row g pad (pad_row g pad b))) (fbox_of b).
Proof.
  intros Hg [H0 [H1 [H2 H3]]].
  unfold fbox_eq, clip_coords_row, unpad_row, pad_row, fbox_of in *;
    cbn [f0 f1 f2 f3] in *.
  repeat split;
    (eapply feq_trans;
     [apply fclamp_feq; apply unpad_pad; exact Hg | apply fclamp_within; assumption]).
Qed.

Lemma scale_gain_pos (img1_shape img0_shape : Z * Z) :
  (0 < fst img0_shape)%Z -> (0 < snd img0_shape)%Z ->
  (0 < fst img1_shape)%Z -> (0 < snd img1_shape)%Z ->
  0 < scale_gain img1_shape img0_shape.
Proof.
  intros A B C D. apply inject_Z_pos in A, B, C, D. unfold scale_gain.
  assert (H1 : 0 < inject_Z (fst img1_shape) / inject_Z (fst img0_shape))
    by (apply Qlt_shift_div_l; lra).
  assert (H2 : 0 < inject_Z (snd img1_shape) / inject_Z (snd img0_shape))
    by (apply Qlt_shift_div_l; lra).
  destruct (Q.min_spec (inject_Z (fst img1_shape) / inject_Z (fst img0_shape))
                       (inject_Z (snd img1_shape) / inject_Z (snd img0_shape)))
    as [[_ ->]|[_ ->]]; assumption.
Qed.

Lemma scale_pad_nonneg (img1_shape img0_shape : Z * Z) :
  (0 < fst img0_shape)%Z -> (0 < snd img0_shape)%Z ->
  0 <= fst (scale_pad img1_shape img0_shape) /\
  0 <= snd (scale_pad img1_shape img0_shape) /\
  (fst (scale_pad img1_shape img0_shape) == 0 \/
   snd (scale_pad img1_shape img0_shape) == 0).
Proof.
  intros A B. apply inject_Z_pos in A, B. unfold scale_pad, scale_gain. cbn [fst snd].
  set (h1 := inject_Z (fst img1_shape)). set (w1 := inject_Z (snd img1_shape)).
  set (h0 := inject_Z (fst img0_shape)) in *. set (w0 := inject_Z (snd img0_shape)) in *.
  assert (Eh : h0 * (h1 / h0) == h1) by (field; lra).
  assert (Ew : w0 * (w1 / w0) == w1) by (field; lra).
  set (a := h1 / h0) in *. set (b := w1 / w0) in *.
  clearbody a b. clearbody h0 w0 h1 w1.
  unfold Qdiv. change (/ 2) with (1 # 2).
  pose proof (proj2 (Qmult_le_l (Qmin a b) a h0 A) (Q.le_min_l a b)) as Hh.
  pose proof (proj2 (Qmult_le_l (Qmin a b) b w0 B) (Q.le_min_r a b)) as Hw.
  split; [lra|]. split; [lra|].
  destruct (Q.min_spec a b) as [[_ E]|[_ E]].
  - right. assert (E' : h0 * Qmin a b == h0 * a) by (rewrite E; reflexivity). lra.
  - left. assert (E' : w0 * Qmin a b == w0 * b) by (rewrite E; reflexivity). lra.
Qed.

(** X5. [scale_coords] undoes the padding it assumes.  With [ratio_pad]
    left out and image shapes of positive height and width, the gain is
    positive, the padding is non-negative in both directions and zero in
    one of them, and a box that lies inside the original image, once mapped
    by [x -> x * gain + pad], is returned exactly; the same holds for an
    explicit [ratio_pad] with a nonzero gain. *)
Theorem scale_coords_undoes_padding (img1_shape img0_shape : Z * Z) (bs : list box) :
  (0 < fst img0_shape)%Z -> (0 < snd img0_shape)%Z ->
  (0 < fst img1_shape)%Z -> (0 < snd img1_shape)%Z ->
  Forall (fun b => fbox_within img0_shape (fbox_of b)) bs ->
  let gain := scale_gain img1_shape img0_shape in
  let pad := scale_pad img1_shape img0_shape in
  0 < gain /\ 0 <= fst pad /\ 0 <= snd pad /\ (fst pad == 0 \/ snd pad == 0) /\
  (exists out,
      scale_coords img1_shape (map (pad_row gain pad) bs) img0_shape None = Some out /\
      Forall2 fbox_eq out (map fbox_of bs)) /\
  (forall g g' p, ~ g == 0 ->
      exists out,
        scale_coords img1_shape (map (pad_row g p) bs) img0_shape (Some ((g, g'), p))
        = Some out /\
        Forall2 fbox_eq out (map fbox_of bs)).
Proof.
  intros A B C D Hin gain pad.
  pose proof (scale_gain_pos img1_shape img0_shape A B C D) as Hg.
  destruct (scale_pad_nonneg img1_shape img0_shape A B) as [P1 [P2 P3]].
  assert (Hrows : forall g p, ~ g == 0 ->
            Forall2 fbox_eq
              (clip_coords (map (unpad_row g p) (map (pad_row g p) bs)) img0_shape)
              (map fbox_of bs)).
  { intros g p Hgp. unfold clip_coords. rewrite !map_map.
    rewrite Forall_forall in Hin. clear - Hin Hgp.
    induction bs as [|b bs IH]; cbn [map]; constructor.
    - apply unpad_clip_pad_row; [exact Hgp | apply Hin; left; reflexivity].
    - apply IH. intros b' Hb'. apply Hin. right. exact Hb'. }
  split; [exact Hg|]. split; [exact P1|]. split; [exact P2|]. split; [exact P3|].
  split.
  - unfold scale_coords.
    destruct (Z.eqb_spec (fst img0_shape) 0) as [E|_]; [lia|].
    destruct (Z.eqb_spec (snd img0_shape) 0) as [E|_]; [lia|].
    cbn [orb]. eexists. split; [reflexivity|].
    apply Hrows. intro E0. apply (Qlt_not_eq _ _ Hg). symmetry. exact E0.
  - intros g g' p Hgp. unfold scale_coords. cbn [fst snd].
    eexists. split; [reflexivity|]. apply Hrows. exact Hgp.
Qed.

Lemma scale_coords_undoes_padding_witness :
  0 < scale_gain ex_img1 ex_img0 /\
  0 <= fst (scale_pad ex_img1 ex_img0) /\ 0 <= snd (scale_pad ex_img1 ex_img0) /\
  (fst (scale_pad ex_img1 ex_img0) == 0 \/ snd (scale_pad ex_img1 ex_img0) == 0) /\
  (exists out,
      scale_coords ex_img1
                   (map (pad_row (scale_gain ex_img1 ex_img0)
                                 (scale_pad ex_img1 ex_img0)) [ex_inside_box])
                   ex_img0 None
      = Some out /\
      Forall2 fbox_eq out (map fbox_of [ex_inside_box])) /\
  (forall g g' p, ~ g == 0 ->
      exists out,
        scale_coords ex_img1 (map (pad_row g p) [ex_inside_box]) ex_img0
                     (Some ((g, g'), p)) = Some out /\
        Forall2 fbox_eq out (map fbox_of [ex_inside_box])).
Proof.
  apply (scale_coords_undoes_padding ex_img1 ex_img0 [ex_inside_box]);
    try reflexivity.
  constructor; [|constructor].
  unfold fbox_within, fl_within, ex_inside_box, ex_img0; cbn.
  repeat split; discriminate.
Defined.

(** X6. [scale_coords] raises exactly when [ratio_pad] is left out and the
    original image has a zero height or width.  Whenever it returns, for an
    original image of non-negative height and width, it returns one row per
    input row and every coordinate of the result is NaN or lies inside the
    original image, whatever the gain and the padding were. *)
Theorem scale_coords_result (img1_shape : Z * Z) (coords : list fbox)
        (img0_shape : Z * Z) (ratio_pad : option ((Q * Q) * (Q * Q))) :
  (0 <= fst img0_shape)%Z -> (0 <= snd img0_shape)%Z ->
  (scale_coords img1_shape coords img0_shape ratio_pad = None <->
   ratio_pad = None /\ (fst img0_shape = 0 \/ snd img0_shape = 0)%Z) /\
  (forall out,
      scale_coords img1_shape coords img0_shape ratio_pad = Some out ->
      length out = length coords /\ Forall (fbox_clipped img0_shape) out).
Proof.
  intros Hh Hw. unfold scale_coords. split.
  - destruct ratio_pad as [[[g g'] p]|]; cbn [fst snd].
    + split; [discriminate | intros [H _]; discriminate].
    + destruct (Z.eqb_spec (fst img0_shape) 0) as [E|E];
        destruct (Z.eqb_spec (snd img0_shape) 0) as [E'|E']; cbn [orb];
        split; auto; try discriminate.
      intros [_ [H|H]]; contradiction.
  - intros out H.
    assert (Hout : exists g p,
               out = clip_coords (map (unpad_row g p) coords) img0_shape).
    { destruct ratio_pad as [[[g g'] p]|]; cbn [fst snd] in H.
      - injection H as <-. exists g, p. reflexivity.
      - destruct ((fst img0_shape =? 0) || (snd img0_shape =? 0))%Z; [discriminate|].
        injection H as <-. eexists. eexists. reflexivity. }
    destruct Hout as [g [p ->]]. unfold clip_coords. split.
    + rewrite !length_map. reflexivity.
    + apply Forall_forall. intros c Hc. apply in_map_iff in Hc.
      destruct Hc as [b [<- _]]. apply clip_coords_row_clipped; assumption.
Qed.

Lemma scale_coords_result_witness :
  (scale_coords ex_img1 ex_fboxes ex_img0 None = None <->
   @None ((Q * Q) * (Q * Q)) = None /\ (fst ex_img0 = 0 \/ snd ex_img0 = 0)%Z) /\
  (forall out,
      scale_coords ex_img1 ex_fboxes ex_img0 None = Some out ->
      length out = length ex_fboxes /\ Forall (fbox_clipped ex_img0) out).
Proof.
  apply (scale_coords_result ex_img1 ex_fboxes ex_img0 None); discriminate.
Defined.

(** ** Detections as target rows *)

Lemma enumerate_from_nth {A : Type} (l : list A) (k j : nat) (a : A) :
  In (j, a) (enumerate_from k l) -> (k <= j)%nat /\ nth_error l (j - k) = Some a.
Proof.
  revert k. induction l as [|x l IH]; intros k H; cbn in H; [destruct H|].
  destruct H as [H | H].
  - injection H as -> ->. split; [lia|]. rewrite Nat.sub_diag. reflexivity.
  - destruct (IH _ H) as [Hle Hn]. split; [lia|].
    replace (j - k)%nat with (S (j - S k)) by lia. exact Hn.
Qed.

Lemma two_nonzero : ~ 2 == 0.
Proof. intro H. discriminate H. Qed.

Lemma target_row_corners (width height : Q) (i : nat) (d : detection) :
  ~ width == 0 -> ~ height == 0 -> finite_box (detection_box d) ->
  fbox_eq (target_corners width height (target_row width height i d))
          (detection_box d).
Proof.
  intros Hw Hh [H0 [H1 [H2 H3]]].
  destruct d as [x1 y1 x2 y2 conf cls]. unfold detection_box in *.
  cbn [f0 f1 f2 f3 o_x1 o_y1 o_x2 o_y2] in *.
  destruct x1 as [a| | |]; try discriminate H0.
  destruct y1 as [b| | |]; try discriminate H1.
  destruct x2 as [c| | |]; try discriminate H2.
  destruct y2 as [e| | |]; try discriminate H3.
  unfold fbox_eq, target_corners, target_row.
  cbn [g_x g_y g_w g_h f0 f1 f2 f3 o_x1 o_y1 o_x2 o_y2 fsub fopp fadd fdiv].
  rewrite !(qdiv_nonzero _ width Hw), !(qdiv_nonzero _ height Hh).
  cbn [fadd fdiv]. rewrite !(qdiv_nonzero _ 2 two_nonzero).
  cbn [fadd fsub fopp fmul].
  split; [|split; [|split]]; cbn [feq]; field; assumption.
Qed.

Lemma output_to_target_length (width height : Q) (k : nat)
      (output : list (option (list detection))) :
  length (flat_map (fun io => match snd io with
                              | Some o => map (target_row width height (fst io)) o
                              | None => []
                              end)
                   (enumerate_from k output)) = detection_count output.
Proof.
  revert k. unfold detection_count.
  induction output as [|o output IH]; intro k; cbn [enumerate_from flat_map map list_sum];
    [reflexivity|].
  rewrite length_app, IH. cbn [snd fst].
  destruct o as [o|]; [rewrite length_map|]; reflexivity.
Qed.

(** X7. [output_to_target] emits one row per detection of the entries that
    are not [None], nothing else.  The batch index of a row is the position
    in [output] of the image the detection belongs to (skipped [None]
    entries are still counted), the class is the class of the detection
    truncated to an integer, the confidence is unchanged, and for nonzero
    [width] and [height] the centre/size box, scaled back, has the corners
    of the detection whenever those are numbers. *)
Theorem output_to_target_rows (output : list (option (list detection)))
        (width height : Q) :
  ~ width == 0 -> ~ height == 0 ->
  length (output_to_target output width height) = detection_count output /\
  (forall t, In t (output_to_target output width height) ->
     exists o d,
       nth_error output (g_img t) = Some (Some o) /\ In d o /\
       g_cls t = Qtrunc (o_cls d) /\ g_conf t = o_conf d /\
       (finite_box (detection_box d) ->
        fbox_eq (target_corners width height t) (detection_box d))).
Proof.
  intros Hw Hh. unfold output_to_target, enumerate. split.
  - apply output_to_target_length.
  - intros t Ht. apply in_flat_map in Ht. destruct Ht as [[i o'] [Hio Ht]].
    cbn [fst snd] in Ht. destruct o' as [o|]; [|destruct Ht].
    apply in_map_iff in Ht. destruct Ht as [d [<- Hd]].
    destruct (enumerate_from_nth _ _ _ _ Hio) as [_ Hn].
    rewrite Nat.sub_0_r in Hn.
    exists o, d. cbn [target_row g_img g_cls g_conf].
    split; [exact Hn|]. split; [exact Hd|]. split; [reflexivity|].
    split; [reflexivity|].
    apply target_row_corners; assumption.
Qed.

Lemma output_to_target_rows_witness :
  length (output_to_target ex_output 640 480) = detection_count ex_output /\
  (forall t, In t (output_to_target ex_output 640 480) ->
     exists o d,
       nth_error ex_output (g_img t) = Some (Some o) /\ In d o /\
       g_cls t = Qtrunc (o_cls d) /\ g_conf t = o_conf d /\
       (finite_box (detection_box d) ->
        fbox_eq (target_corners 640 480 t) (detection_box d))).
Proof.
  apply (output_to_target_rows ex_output 640 480); intro H; discriminate H.
Defined.

(** ** The float layer respects equality of rationals *)

Lemma Qle_bool_comp (a a' b b' : Q) :
  a == a' -> b == b' -> Qle_bool a b = Qle_bool a' b'.
Proof.
  intros Ha Hb.
  destruct (Qle_bool a b) eqn:E, (Qle_bool a' b') eqn:E'; try reflexivity.
  - apply Qle_bool_iff in E. rewrite Ha, Hb in E. apply Qle_bool_iff in E. congruence.
  - apply Qle_bool_iff in E'. rewrite <- Ha, <- Hb in E'. apply Qle_bool_iff in E'.
    congruence.
Qed.

Lemma Qlt_bool_comp (a a' b b' : Q) :
  a == a' -> b == b' -> Qlt_bool a b = Qlt_bool a' b'.
Proof.
  intros Ha Hb. unfold Qlt_bool. rewrite (Qle_bool_comp b b' a a' Hb Ha). reflexivity.
Qed.

Lemma Qeq_bool_comp (a a' b b' : Q) :
  a == a' -> b == b' -> Qeq_bool a b = Qeq_bool a' b'.
Proof.
  intros Ha Hb.
  destruct (Qeq_bool a b) eqn:E, (Qeq_bool a' b') eqn:E'; try reflexivity.
  - apply Qeq_bool_iff in E. rewrite Ha, Hb in E. apply Qeq_bool_iff in E. congruence.
  - apply Qeq_bool_iff in E'. rewrite <- Ha, <- Hb in E'. apply Qeq_bool_iff in E'.
    congruence.
Qed.

Lemma qdiv_feq (x x' y y' : Q) :
  x == x' -> y == y' -> feq (qdiv x y) (qdiv x' y').
Proof.
  intros Hx Hy. unfold qdiv.
  rewrite (Qeq_bool_comp y y' 0 0 Hy (Qeq_refl 0)).
  destruct (Qeq_bool y' 0).
  - rewrite (Qcompare_comp x x' Hx 0 0 (Qeq_refl 0)). apply feq_refl.
  - cbn. rewrite Hx, Hy. reflexivity.
Qed.

Lemma fopp_feq (a a' : fl) : feq a a' -> feq (fopp a) (fopp a').
Proof.
  destruct a, a'; cbn; try contradiction; auto. intro H. rewrite H. reflexivity.
Qed.

Lemma fadd_feq (a a' b b' : fl) :
  feq a a' -> feq b b' -> feq (fadd a b) (fadd a' b').
Proof.
  destruct a, a', b, b'; cbn; try contradiction; auto.
  intros H1 H2. rewrite H1, H2. reflexivity.
Qed.

Lemma fsub_feq (a a' b b' : fl) :
  feq a a' -> feq b b' -> feq (fsub a b) (fsub a' b').
Proof.
  intros H1 H2. unfold fsub. apply fadd_feq; [exact H1 | apply fopp_feq; exact H2].
Qed.

Lemma fmul_feq (a a' b b' : fl) :
  feq a a' -> feq b b' -> feq (fmul a b) (fmul a' b').
Proof.
  destruct a as [x| | |], a' as [x'| | |], b as [y| | |], b' as [y'| | |];
    cbn [feq fmul]; try contradiction; auto; intros H1 H2;
    try (rewrite H1, H2; reflexivity);
    try (rewrite (Qcompare_comp _ _ H1 0 0 (Qeq_refl 0)); apply feq_refl);
    try (rewrite (Qcompare_comp _ _ H2 0 0 (Qeq_refl 0)); apply feq_refl);
    try (rewrite (Qcompare_comp 0 0 (Qeq_refl 0) _ _ H1); apply feq_refl);
    try (rewrite (Qcompare_comp 0 0 (Qeq_refl 0) _ _ H2); apply feq_refl).
Qed.

Lemma fdiv_feq (a a' b b' : fl) :
  feq a a' -> feq b b' -> feq (fdiv a b) (fdiv a' b').
Proof.
  destruct a as [x| | |], a' as [x'| | |], b as [y| | |], b' as [y'| | |];
    cbn [feq fdiv]; try contradiction; auto; intros H1 H2;
    try (apply qdiv_feq; assumption);
    try reflexivity;
    try (rewrite (Qlt_bool_comp _ _ 0 0 H2 (Qeq_refl 0)); apply feq_refl).
Qed.

Lemma fmax_feq (a a' b b' : fl) :
  feq a a' -> feq b b' -> feq (fmax a b) (fmax a' b').
Proof.
  destruct a as [x| | |], a' as [x'| | |], b as [y| | |], b' as [y'| | |];
    cbn [feq fmax]; try contradiction; auto.
  intros H1 H2. rewrite H1, H2. reflexivity.
Qed.

Lemma fmin_feq (a a' b b' : fl) :
  feq a a' -> feq b b' -> feq (fmin a b) (fmin a' b').
Proof.
  destruct a as [x| | |], a' as [x'| | |], b as [y| | |], b' as [y'| | |];
    cbn [feq fmin]; try contradiction; auto.
  intros H1 H2. rewrite H1, H2. reflexivity.
Qed.

Lemma flt_feq (a a' b b' : fl) :
  feq a a' -> feq b b' -> flt a b = flt a' b'.
Proof.
  destruct a as [x| | |], a' as [x'| | |], b as [y| | |], b' as [y'| | |];
    cbn [feq flt]; try contradiction; auto.
  intros H1 H2. apply Qlt_bool_comp; assumption.
Qed.

(** ** Symmetry of the IoU family *)

Lemma overlap_sym (a1 a2 b1 b2 : Q) : overlap a1 a2 b1 b2 == overlap b1 b2 a1 a2.
Proof.
  unfold overlap. rewrite (Q.min_comm a2 b2), (Q.max_comm a1 b1). reflexivity.
Qed.

Lemma bbox_inter_sym (a b : box) : bbox_inter a b == bbox_inter b a.
Proof.
  unfold bbox_inter.
  rewrite (overlap_sym (c0 a) (c2 a) (c0 b) (c2 b)),
    (overlap_sym (c1 a) (c3 a) (c1 b) (c3 b)). reflexivity.
Qed.

Lemma bbox_union_sym (a b : box) : bbox_union a b == bbox_union b a.
Proof. unfold bbox_union. cbv zeta. rewrite (bbox_inter_sym a b). ring. Qed.

Lemma hull_sym (a1 a2 b1 b2 : Q) :
  Qmax a2 b2 - Qmin a1 b1 == Qmax b2 a2 - Qmin b1 a1.
Proof. rewrite (Q.max_comm a2 b2), (Q.min_comm a1 b1). reflexivity. Qed.

Lemma fmul_square_opp (a b : fl) :
  feq (fmul (fsub a b) (fsub a b)) (fmul (fsub b a) (fsub b a)).
Proof.
  destruct a as [x| | |], b as [y| | |]; cbn; auto. ring.
Qed.

Lemma ciou_v_sym (atan : fl -> fl) (pi w1 h1 w2 h2 : Q) :
  feq (ciou_v atan pi w1 h1 w2 h2) (ciou_v atan pi w2 h2 w1 h1).
Proof.
  unfold ciou_v. cbv zeta. apply fmul_feq; [apply feq_refl | apply fmul_square_opp].
Qed.

Lemma box_iou1_sym (a b : box) : feq (box_iou1 a b) (box_iou1 b a).
Proof.
  unfold box_iou1, box_iou_den. apply qdiv_feq.
  - apply bbox_inter_sym.
  - rewrite (bbox_inter_sym a b). ring.
Qed.

Lemma wh_iou1_sym (a b : Q * Q) : feq (wh_iou1 a b) (wh_iou1 b a).
Proof.
  unfold wh_iou1, wh_iou_den, wh_inter. apply qdiv_feq.
  - rewrite (Q.min_comm (fst a) (fst b)), (Q.min_comm (snd a) (snd b)). reflexivity.
  - rewrite (Q.min_comm (fst a) (fst b)), (Q.min_comm (snd a) (snd b)). ring.
Qed.

(** X8. Every IoU of the file is symmetric in its two boxes: [box_iou],
    [wh_iou] and [bbox_iou] in the plain, GIoU, DIoU and CIoU modes, in
    corner and in centre/size form, give the same value (a number, an
    infinity or NaN) when the boxes are exchanged, whatever [atan] and [pi]
    are. *)
Theorem iou_symmetric (atan : fl -> fl) (pi : Q)
        (x1y1x2y2 GIoU DIoU CIoU : bool) (a b : box) (wh1 wh2 : Q * Q) :
  feq (bbox_iou1 atan pi x1y1x2y2 GIoU DIoU CIoU a b)
      (bbox_iou1 atan pi x1y1x2y2 GIoU DIoU CIoU b a) /\
  feq (box_iou1 a b) (box_iou1 b a) /\
  feq (wh_iou1 wh1 wh2) (wh_iou1 wh2 wh1).
Proof.
  split; [|split; [apply box_iou1_sym | apply wh_iou1_sym]].
  unfold bbox_iou1. cbv zeta.
  set (A := corners x1y1x2y2 a). set (B := corners x1y1x2y2 b).
  assert (Hiou : feq (qdiv (bbox_inter A B) (bbox_union A B))
                     (qdiv (bbox_inter B A) (bbox_union B A)))
    by (apply qdiv_feq; [apply bbox_inter_sym | apply bbox_union_sym]).
  destruct (GIoU || DIoU || CIoU); [|exact Hiou].
  destruct GIoU.
  - apply fsub_feq; [exact Hiou|]. apply qdiv_feq.
    + rewrite (bbox_union_sym A B).
      setoid_rewrite (hull_sym (c0 A) (c2 A) (c0 B) (c2 B)).
      setoid_rewrite (hull_sym (c1 A) (c3 A) (c1 B) (c3 B)).
      reflexivity.
    + setoid_rewrite (hull_sym (c0 A) (c2 A) (c0 B) (c2 B)).
      setoid_rewrite (hull_sym (c1 A) (c3 A) (c1 B) (c3 B)).
      reflexivity.
  - assert (Hrho : feq
              (qdiv (Qsqr (c0 B + c2 B - (c0 A + c2 A)) / 4 +
                     Qsqr (c1 B + c3 B - (c1 A + c3 A)) / 4)
                    (Qsqr (Qmax (c2 A) (c2 B) - Qmin (c0 A) (c0 B)) +
                     Qsqr (Qmax (c3 A) (c3 B) - Qmin (c1 A) (c1 B)) + eps16))
              (qdiv (Qsqr (c0 A + c2 A - (c0 B + c2 B)) / 4 +
                     Qsqr (c1 A + c3 A - (c1 B + c3 B)) / 4)
                    (Qsqr (Qmax (c2 B) (c2 A) - Qmin (c0 B) (c0 A)) +
                     Qsqr (Qmax (c3 B) (c3 A) - Qmin (c1 B) (c1 A)) + eps16))).
    { apply qdiv_feq.
      - unfold Qsqr. field.
      - unfold Qsqr.
        setoid_rewrite (hull_sym (c0 A) (c2 A) (c0 B) (c2 B)).
        setoid_rewrite (hull_sym (c1 A) (c3 A) (c1 B) (c3 B)).
        reflexivity. }
    destruct DIoU.
    + apply fsub_feq; assumption.
    + pose proof (ciou_v_sym atan pi (c2 A - c0 A) (c3 A - c1 A)
                             (c2 B - c0 B) (c3 B - c1 B)) as Hv.
      apply fsub_feq; [exact Hiou|]. apply fadd_feq; [exact Hrho|].
      apply fmul_feq; [exact Hv|]. unfold ciou_alpha.
      apply fdiv_feq; [exact Hv|].
      apply fadd_feq; [|apply feq_refl]. apply fadd_feq; [|exact Hv].
      apply fsub_feq; [apply feq_refl | exact Hiou].
Qed.

(** ** The class offset of non-maximum suppression *)

Lemma overlap_shift (c c' a1 a2 b1 b2 : Q) :
  c == c' -> overlap (a1 + c) (a2 + c) (b1 + c') (b2 + c') == overlap a1 a2 b1 b2.
Proof.
  intro H. unfold overlap. rewrite <- H.
  rewrite Q.plus_min_distr_r, Q.plus_max_distr_r.
  assert (E : Qmin a2 b2 + c - (Qmax a1 b1 + c) == Qmin a2 b2 - Qmax a1 b1) by ring.
  rewrite E. reflexivity.
Qed.

Lemma bbox_inter_shift (c c' : Q) (a b : box) :
  c == c' -> bbox_inter (shift_box c a) (shift_box c' b) == bbox_inter a b.
Proof.
  intro H. unfold bbox_inter, shift_box. cbn [c0 c1 c2 c3].
  rewrite !(overlap_shift c c') by exact H. reflexivity.
Qed.

Lemma box_area_shift (c : Q) (a : box) : box_area (shift_box c a) == box_area a.
Proof. unfold box_area, shift_box. cbn [c0 c1 c2 c3]. ring. Qed.

Lemma box_iou1_shift (c c' : Q) (a b : box) :
  c == c' -> feq (box_iou1 (shift_box c a) (shift_box c' b)) (box_iou1 a b).
Proof.
  intro H. unfold box_iou1, box_iou_den. apply qdiv_feq.
  - apply bbox_inter_shift. exact H.
  - rewrite (bbox_inter_shift c c' a b H), !box_area_shift. reflexivity.
Qed.

Lemma box_iou1_no_overlap (thr : Q) (a b : box) :
  0 <= thr -> disjoint a b -> fgt (box_iou1 a b) (Fin thr) = false.
Proof.
  intros Hthr Hd. pose proof (bbox_inter_disjoint a b Hd) as E.
  unfold box_iou1, qdiv. destruct (Qeq_bool (box_iou_den a b) 0).
  - rewrite (Qcompare_comp _ _ E 0 0 (Qeq_refl 0)). reflexivity.
  - cbn. apply Qlt_bool_false_iff. rewrite E. unfold Qdiv. rewrite Qmult_0_l. exact Hthr.
Qed.

Lemma shifted_boxes_disjoint (k1 k2 : Z) (c1' c2' : Q) (a b : box) :
  c1' == inject_Z k1 * max_wh -> c2' == inject_Z k2 * max_wh -> (k1 < k2)%Z ->
  coords_within max_wh a -> coords_within max_wh b ->
  disjoint (shift_box c1' a) (shift_box c2' b).
Proof.
  intros E1 E2 Hlt [_ [_ [[_ Ha] _]]] [[Hb _] _].
  left. unfold shift_box. cbn [c0 c2]. rewrite E1, E2.
  assert (Hk : inject_Z k1 + 1 <= inject_Z k2).
  { change 1 with (inject_Z 1). rewrite <- inject_Z_plus, <- Zle_Qle. lia. }
  assert (Hm : 0 < max_wh) by reflexivity.
  assert (Hmul : (inject_Z k1 + 1) * max_wh <= inject_Z k2 * max_wh)
    by (apply Qmult_le_compat_r; [exact Hk | lra]).
  lra.
Qed.

(** *** The class offset as float32 adds it *)

Lemma round_half_even_Z (q : Q) (n : Z) : q == inject_Z n -> round_half_even q = n.
Proof.
  intro H. unfold round_half_even. cbv zeta.
  rewrite (Qfloor_comp _ _ H), Qfloor_Z.
  assert (E : Qlt_bool (q - inject_Z n) (1 # 2) = true)
    by (apply Qlt_bool_iff; rewrite H; lra).
  rewrite E. reflexivity.
Qed.

Lemma pow2_pos (k : Z) : (0 <= k)%Z -> 0 < inject_Z (2 ^ k).
Proof.
  intro Hk. change 0 with (inject_Z 0). rewrite <- Zlt_Qlt.
  apply Z.pow_pos_nonneg; lia.
Qed.

Lemma binary_exponent_lt (q : Q) (m : Z) :
  (1 <= m)%Z -> Qabs q < inject_Z (2 ^ m) -> (binary_exponent q < m)%Z.
Proof.
  intros Hm Hq. unfold binary_exponent.
  destruct (Qle_bool 1 (Qabs q)) eqn:E.
  - apply Qle_bool_iff in E.
    assert (H1 : (1 <= Qfloor (Qabs q))%Z).
    { change 1%Z with (Qfloor 1). apply Qfloor_resp_le. exact E. }
    apply Z.log2_lt_pow2; [lia|].
    rewrite Zlt_Qlt. apply Qle_lt_trans with (Qabs q); [apply Qfloor_le | exact Hq].
  - pose proof (Z.log2_up_nonneg (Qceiling (/ Qabs q))). lia.
Qed.

Lemma on_grid_intro (k : Z) (q : Q) (n : Z) :
  q * inject_Z (2 ^ k) == inject_Z n -> on_grid k q = true.
Proof.
  intro H. unfold on_grid. apply Qeq_bool_iff.
  rewrite (Qfloor_comp _ _ H), Qfloor_Z. symmetry. exact H.
Qed.

Lemma on_grid_elim (k : Z) (q : Q) :
  on_grid k q = true -> exists n, q * inject_Z (2 ^ k) == inject_Z n.
Proof.
  unfold on_grid. intro H. apply Qeq_bool_iff in H.
  eexists. symmetry. exact H.
Qed.

(** A multiple of [2^-k] below [2^(24-k)] in size has at most 24
    significant bits: it is a float32, and rounding leaves it alone. *)
Lemma round32_on_grid (k : Z) (q : Q) :
  (0 <= k <= 23)%Z -> on_grid k q = true -> Qabs q < inject_Z (2 ^ (24 - k)) ->
  round32 q == q.
Proof.
  intros Hk Hg Hq. unfold round32.
  destruct (Qeq_bool q 0) eqn:E0.
  { apply Qeq_bool_iff in E0. symmetry. exact E0. }
  cbv zeta.
  pose proof (binary_exponent_lt q (24 - k) ltac:(lia) Hq) as He.
  destruct (on_grid_elim k q Hg) as [n Hn].
  set (e := binary_exponent q) in *.
  set (t := (23 - e - k)%Z).
  assert (Ht : (0 <= t)%Z) by (unfold t; lia).
  pose proof (pow2_pos k ltac:(lia)) as Pk.
  pose proof (pow2_pos t Ht) as Pt.
  assert (Eu : 2 ^ (e - 23) == / (inject_Z (2 ^ t) * inject_Z (2 ^ k))).
  { replace (e - 23)%Z with (- (t + k))%Z by (unfold t; lia).
    rewrite Qpower_opp, Qpower_plus by discriminate.
    change 2 with (inject_Z 2).
    rewrite <- (Zpower_Qpower 2 t Ht), <- (Zpower_Qpower 2 k ltac:(lia)).
    reflexivity. }
  assert (Hu : 0 < 2 ^ (e - 23)) by (apply Qpower_0_lt; reflexivity).
  set (u := 2 ^ (e - 23)) in *.
  assert (Hd : q / u == inject_Z (n * 2 ^ t)).
  { rewrite inject_Z_mult, <- Hn, Eu. field. split; lra. }
  rewrite (round_half_even_Z _ _ Hd), <- Hd. field. lra.
Qed.

(** One coordinate of the sum: an in-range multiple of [2^-k] plus an
    integer offset that leaves room for it. *)
Lemma shifted_coordinate_exact (k J : Z) (x c : Q) :
  (0 <= k <= 23)%Z -> (0 <= J)%Z -> ((J + 4096) * 2 ^ k < 2 ^ 24)%Z ->
  c == inject_Z J -> on_grid k x = true -> 0 <= x -> x <= max_wh ->
  round32 (x + round32 c) == x + c.
Proof.
  intros Hk HJ Hroom Hc Hg Hx0 Hx1.
  pose proof (pow2_pos k ltac:(lia)) as Pk.
  assert (Hpow : (2 ^ (24 - k) * 2 ^ k = 2 ^ 24)%Z)
    by (rewrite <- Z.pow_add_r by lia; f_equal; lia).
  assert (Hpk : (0 < 2 ^ k)%Z) by (apply Z.pow_pos_nonneg; lia).
  assert (HM : (J + 4096 < 2 ^ (24 - k))%Z) by nia.
  assert (HMq : inject_Z J + 4096 < inject_Z (2 ^ (24 - k))).
  { change 4096 with (inject_Z 4096). rewrite <- inject_Z_plus, <- Zlt_Qlt. exact HM. }
  assert (HJq : 0 <= inject_Z J)
    by (change 0 with (inject_Z 0); rewrite <- Zle_Qle; exact HJ).
  assert (Ec : round32 c == c).
  { apply (round32_on_grid k); [exact Hk | |].
    - apply (on_grid_intro k c (J * 2 ^ k)). rewrite Hc, inject_Z_mult. reflexivity.
    - rewrite Hc, Qabs_pos by exact HJq. lra. }
  rewrite <- Ec at 2.
  destruct (on_grid_elim k x Hg) as [n Hn].
  unfold max_wh in Hx1.
  apply (round32_on_grid k); [exact Hk | |].
  - apply (on_grid_intro k _ (n + J * 2 ^ k)).
    rewrite Ec, Hc, inject_Z_plus, inject_Z_mult, <- Hn. ring.
  - rewrite Ec, Hc. rewrite Qabs_pos by lra. lra.
Qed.

Lemma shift_box32_exact (k J : Z) (c : Q) (b : box) :
  (0 <= k <= 23)%Z -> (0 <= J)%Z -> ((J + 4096) * 2 ^ k < 2 ^ 24)%Z ->
  c == inject_Z J -> box_on_grid k b = true -> coords_within max_wh b ->
  box_eq (shift_box32 (round32 c) b) (shift_box c b).
Proof.
  intros Hk HJ Hroom Hc Hg [[A0 A1] [[B0 B1] [[C0 C1] [D0 D1]]]].
  unfold box_on_grid in Hg.
  apply andb_prop in Hg. destruct Hg as [Hg G3].
  apply andb_prop in Hg. destruct Hg as [Hg G2].
  apply andb_prop in Hg. destruct Hg as [G0 G1].
  unfold box_eq, shift_box32, shift_box. cbn [c0 c1 c2 c3].
  repeat split; apply (shifted_coordinate_exact k J); assumption.
Qed.

Lemma box_iou1_box_eq (a a' b b' : box) :
  box_eq a a' -> box_eq b b' -> feq (box_iou1 a b) (box_iou1 a' b').
Proof.
  intros [A0 [A1 [A2 A3]]] [B0 [B1 [B2 B3]]].
  assert (Ei : bbox_inter a b == bbox_inter a' b').
  { unfold bbox_inter, overlap. rewrite A0, A1, A2, A3, B0, B1, B2, B3. reflexivity. }
  unfold box_iou1, box_iou_den. apply qdiv_feq; [exact Ei|].
  rewrite Ei. unfold box_area. rewrite A0, A1, A2, A3, B0, B1, B2, B3. reflexivity.
Qed.

(** The offset of a class-aware or agnostic call is an integer that leaves
    room for a coordinate of up to 4096. *)
Lemma class_offset_room (agnostic : bool) (k j : Z) (cls : Q) :
  (0 <= k)%Z -> (0 <= j)%Z -> ((j + 1) * 2 ^ k < 2 ^ 12)%Z -> cls == inject_Z j ->
  exists J, (0 <= J)%Z /\ ((J + 4096) * 2 ^ k < 2 ^ 24)%Z /\ (k <= 23)%Z /\
            cls * (if agnostic then 0 else max_wh) == inject_Z J.
Proof.
  intros Hk Hj Hroom Hc.
  assert (Hpk : (0 < 2 ^ k)%Z) by (apply Z.pow_pos_nonneg; lia).
  assert (Hk23 : (k <= 23)%Z).
  { destruct (Z.le_gt_cases k 23) as [H|H]; [exact H|exfalso].
    assert (H12 : (2 ^ 12 <= 2 ^ k)%Z) by (apply Z.pow_le_mono_r; lia). nia. }
  change (2 ^ 24)%Z with (4096 * 2 ^ 12)%Z.
  destruct agnostic.
  - exists 0%Z. repeat split; try lia. rewrite Qmult_0_r. reflexivity.
  - exists (j * 4096)%Z. repeat split; try nia.
    rewrite Hc, inject_Z_mult. reflexivity.
Qed.

(** X9. The class offset as float32 adds it.  For candidates of one class
    (an integer j >= 0) whose box coordinates lie in [0, 4096] and are
    multiples of 2^-k, with (j + 1) * 2^k < 4096 (so 1/32 pixel for up to
    126 classes), the float32 sum [x[:, :4] + c] is the exact sum, and
    [box_iou] of the two shifted boxes is that of the original boxes: the
    offset does not change which of them suppresses the other.  Off that
    grid the float32 sum rounds the coordinates, and the comparison can
    change: at class 79 two boxes with coordinates in 1/64 pixel have IoU
    above 0.5 before the offset and below 0.5 after it. *)
Theorem nms_class_offset_same_class (thr : Q) (agnostic : bool) (k j : Z)
        (r1 r2 : cand6) (b1 b2 : box) :
  offset_boxes32 agnostic [r1; r2] = [b1; b2] ->
  (0 <= k)%Z -> (0 <= j)%Z -> ((j + 1) * 2 ^ k < 2 ^ 12)%Z ->
  d_cls r1 == inject_Z j -> d_cls r2 == inject_Z j ->
  box_on_grid k (d_box r1) = true -> box_on_grid k (d_box r2) = true ->
  coords_within max_wh (d_box r1) -> coords_within max_wh (d_box r2) ->
  (Forall2 box_eq [b1; b2] (offset_boxes agnostic [r1; r2]) /\
   feq (box_iou1 b1 b2) (box_iou1 (d_box r1) (d_box r2)) /\
   fgt (box_iou1 b1 b2) (Fin thr) = fgt (box_iou1 (d_box r1) (d_box r2)) (Fin thr)) /\
  (exists f1 f2,
      offset_boxes32 false [ex_row79_a; ex_row79_b] = [f1; f2] /\
      d_cls ex_row79_a == d_cls ex_row79_b /\
      fgt (box_iou1 (d_box ex_row79_a) (d_box ex_row79_b)) (Fin (1 # 2)) = true /\
      fgt (box_iou1 f1 f2) (Fin (1 # 2)) = false).
Proof.
  intros H Hk Hj Hroom E1 E2 G1 G2 W1 W2.
  unfold offset_boxes32 in H. cbn [map] in H. injection H as <- <-.
  split.
  - destruct (class_offset_room agnostic k j (d_cls r1) Hk Hj Hroom E1)
      as [J1 [HJ1 [R1 [Hk23 C1]]]].
    destruct (class_offset_room agnostic k j (d_cls r2) Hk Hj Hroom E2)
      as [J2 [HJ2 [R2 [_ C2]]]].
    pose proof (shift_box32_exact k J1 _ (d_box r1) (conj Hk Hk23) HJ1 R1 C1 G1 W1) as X1.
    pose proof (shift_box32_exact k J2 _ (d_box r2) (conj Hk Hk23) HJ2 R2 C2 G2 W2) as X2.
    assert (E : feq (box_iou1 (shift_box32 (round32 (d_cls r1 * (if agnostic then 0 else max_wh)))
                                           (d_box r1))
                              (shift_box32 (round32 (d_cls r2 * (if agnostic then 0 else max_wh)))
                                           (d_box r2)))
                    (box_iou1 (d_box r1) (d_box r2))).
    { eapply feq_trans; [apply (box_iou1_box_eq _ _ _ _ X1 X2)|].
      apply box_iou1_shift. rewrite E1, E2. reflexivity. }
    split; [|split].
    + unfold offset_boxes. cbn [map]. constructor; [exact X1|].
      constructor; [exact X2 | constructor].
    + exact E.
    + unfold fgt. apply flt_feq; [apply feq_refl | exact E].
  - eexists. eexists. split; [reflexivity|].
    split; [reflexivity|]. split; vm_compute; reflexivity.
Qed.

Lemma nms_class_offset_same_class_witness :
  (Forall2 box_eq
           [shift_box32 (round32 (1 * max_wh)) (mkbox 10 10 50 50);
            shift_box32 (round32 (1 * max_wh)) (mkbox 30 10 70 50)]
           (offset_boxes false [ex_row_cls1; ex_row_cls1']) /\
   feq (box_iou1 (shift_box32 (round32 (1 * max_wh)) (mkbox 10 10 50 50))
                 (shift_box32 (round32 (1 * max_wh)) (mkbox 30 10 70 50)))
       (box_iou1 (d_box ex_row_cls1) (d_box ex_row_cls1')) /\
   fgt (box_iou1 (shift_box32 (round32 (1 * max_wh)) (mkbox 10 10 50 50))
                 (shift_box32 (round32 (1 * max_wh)) (mkbox 30 10 70 50))) (Fin (1 # 2)) =
   fgt (box_iou1 (d_box ex_row_cls1) (d_box ex_row_cls1')) (Fin (1 # 2))) /\
  (exists f1 f2,
      offset_boxes32 false [ex_row79_a; ex_row79_b] = [f1; f2] /\
      d_cls ex_row79_a == d_cls ex_row79_b /\
      fgt (box_iou1 (d_box ex_row79_a) (d_box ex_row79_b)) (Fin (1 # 2)) = true /\
      fgt (box_iou1 f1 f2) (Fin (1 # 2)) = false).
Proof.
  apply (nms_class_offset_same_class (1 # 2) false 5 1 ex_row_cls1 ex_row_cls1').
  - reflexivity.
  - lia.
  - lia.
  - reflexivity.
  - reflexivity.
  - reflexivity.
  - reflexivity.
  - reflexivity.
  - repeat split; discriminate.
  - repeat split; discriminate.
Defined.

(** X10. In the class-aware mode of [non_max_suppression] two candidates
    whose classes are different integers and whose box coordinates lie in
    [0, 4096] never suppress each other, at any non-negative IoU threshold:
    after the class offset their boxes do not meet.  The range matters:
    boxes that reach beyond 4096 pixels can be shifted onto a box of another
    class and suppress it. *)
Theorem nms_class_offset_separates (thr : Q) (r1 r2 : cand6) (b1 b2 : box) :
  offset_boxes false [r1; r2] = [b1; b2] ->
  0 <= thr ->
  coords_within max_wh (d_box r1) -> coords_within max_wh (d_box r2) ->
  distinct_classes r1 r2 ->
  (fgt (box_iou1 b1 b2) (Fin thr) = false /\
   fgt (box_iou1 b2 b1) (Fin thr) = false) /\
  (exists f1 f2,
      offset_boxes false [ex_row_far0; ex_row_far1] = [f1; f2] /\
      distinct_classes ex_row_far0 ex_row_far1 /\
      fgt (box_iou1 f1 f2) (Fin (1 # 2)) = true).
Proof.
  intros H Hthr H1 H2 [k1 [k2 [E1 [E2 Hne]]]].
  unfold offset_boxes in H. cbn [map] in H. injection H as <- <-.
  split.
  - assert (Hs1 : d_cls r1 * max_wh == inject_Z k1 * max_wh) by (rewrite E1; reflexivity).
    assert (Hs2 : d_cls r2 * max_wh == inject_Z k2 * max_wh) by (rewrite E2; reflexivity).
    destruct (Z.lt_total k1 k2) as [Hlt | [Heq | Hgt]]; [|contradiction|].
    + pose proof (shifted_boxes_disjoint k1 k2 _ _ _ _ Hs1 Hs2 Hlt H1 H2) as Hd.
      split; apply box_iou1_no_overlap; try exact Hthr; [exact Hd|].
      destruct Hd as [Hd|[Hd|[Hd|Hd]]]; unfold disjoint; auto.
    + pose proof (shifted_boxes_disjoint k2 k1 _ _ _ _ Hs2 Hs1 Hgt H2 H1) as Hd.
      split; apply box_iou1_no_overlap; try exact Hthr; [|exact Hd].
      destruct Hd as [Hd|[Hd|[Hd|Hd]]]; unfold disjoint; auto.
  - do 2 eexists. split; [reflexivity|]. split.
    + exists 0%Z, 1%Z. repeat split; discriminate.
    + vm_compute. reflexivity.
Qed.

Lemma nms_class_offset_separates_witness :
  (fgt (box_iou1 (shift_box (0 * max_wh) (mkbox 10 10 50 50))
                 (shift_box (1 * max_wh) (mkbox 10 10 50 50))) (Fin (1 # 2)) = false /\
   fgt (box_iou1 (shift_box (1 * max_wh) (mkbox 10 10 50 50))
                 (shift_box (0 * max_wh) (mkbox 10 10 50 50))) (Fin (1 # 2)) = false) /\
  (exists f1 f2,
      offset_boxes false [ex_row_far0; ex_row_far1] = [f1; f2] /\
      distinct_classes ex_row_far0 ex_row_far1 /\
      fgt (box_iou1 f1 f2) (Fin (1 # 2)) = true).
Proof.
  apply (nms_class_offset_separates (1 # 2) ex_row_cls0 ex_row_cls1 _ _ eq_refl).
  - discriminate.
  - unfold coords_within; cbn; repeat split; discriminate.
  - unfold coords_within; cbn; repeat split; discriminate.
  - exists 0%Z, 1%Z. repeat split; discriminate.
Defined.

(** ** GIoU and DIoU against the plain IoU *)

(** One axis: the overlap, the two extents and the extent of the hull. *)
Lemma hull_axis (a1 a2 b1 b2 : Q) :
  a1 <= a2 -> b1 <= b2 ->
  a2 - a1 <= Qmax a2 b2 - Qmin a1 b1 /\
  b2 - b1 <= Qmax a2 b2 - Qmin a1 b1 /\
  ((overlap a1 a2 b1 b2 == 0 /\
    (a2 - a1) + (b2 - b1) <= Qmax a2 b2 - Qmin a1 b1) \/
   Qmax a2 b2 - Qmin a1 b1 + overlap a1 a2 b1 b2 == (a2 - a1) + (b2 - b1)).
Proof.
  intros Ha Hb. unfold overlap.
  destruct (Q.max_spec a2 b2) as [[? E1]|[? E1]];
    destruct (Q.min_spec a1 b1) as [[? E2]|[? E2]];
    destruct (Q.min_spec a2 b2) as [[? E3]|[? E3]];
    destruct (Q.max_spec a1 b1) as [[? E4]|[? E4]];
    destruct (Q.max_spec (Qmin a2 b2 - Qmax a1 b1) 0) as [[? E5]|[? E5]];
    (split; [lra|]); (split; [lra|]);
    first [left; split; lra | right; lra].
Qed.

Lemma hull_centre (a1 a2 b1 b2 : Q) :
  a1 <= a2 -> b1 <= b2 ->
  - (2 * (Qmax a2 b2 - Qmin a1 b1)) <= b1 + b2 - (a1 + a2) /\
  b1 + b2 - (a1 + a2) <= 2 * (Qmax a2 b2 - Qmin a1 b1).
Proof.
  intros Ha Hb.
  pose proof (Q.le_max_l a2 b2). pose proof (Q.le_max_r a2 b2).
  pose proof (Q.le_min_l a1 b1). pose proof (Q.le_min_r a1 b1).
  split; lra.
Qed.

(** The hull of two boxes is at least as large as their union. *)
Lemma hull_area (a b : box) :
  ordered a -> ordered b ->
  box_area a + box_area b - bbox_inter a b <=
  (Qmax (c2 a) (c2 b) - Qmin (c0 a) (c0 b)) * (Qmax (c3 a) (c3 b) - Qmin (c1 a) (c1 b)).
Proof.
  intros [Hax Hay] [Hbx Hby]. unfold box_area, bbox_inter.
  destruct (hull_axis (c0 a) (c2 a) (c0 b) (c2 b) Hax Hbx) as [X1 [X2 X3]].
  destruct (hull_axis (c1 a) (c3 a) (c1 b) (c3 b) Hay Hby) as [Y1 [Y2 Y3]].
  pose proof (overlap_nonneg (c0 a) (c2 a) (c0 b) (c2 b)) as Ox.
  pose proof (overlap_nonneg (c1 a) (c3 a) (c1 b) (c3 b)) as Oy.
  pose proof (overlap_le_l (c0 a) (c2 a) (c0 b) (c2 b) Hax) as Ox1.
  pose proof (overlap_le_r (c0 a) (c2 a) (c0 b) (c2 b) Hbx) as Ox2.
  pose proof (overlap_le_l (c1 a) (c3 a) (c1 b) (c3 b) Hay) as Oy1.
  pose proof (overlap_le_r (c1 a) (c3 a) (c1 b) (c3 b) Hby) as Oy2.
  set (W := Qmax (c2 a) (c2 b) - Qmin (c0 a) (c0 b)) in *.
  set (H := Qmax (c3 a) (c3 b) - Qmin (c1 a) (c1 b)) in *.
  set (ox := overlap (c0 a) (c2 a) (c0 b) (c2 b)) in *.
  set (oy := overlap (c1 a) (c3 a) (c1 b) (c3 b)) in *.
  clearbody W H ox oy.
  destruct X3 as [[E1 E2]|E1]; [nra|].
  destruct Y3 as [[F1 F2]|F1]; nra.
Qed.

Lemma quotient_unit_interval (n d : Q) :
  0 <= n -> 0 < d -> n <= d -> 0 <= n / d /\ n / d <= 1.
Proof.
  intros Hn Hd Hle. split.
  - apply Qle_shift_div_l; lra.
  - apply Qle_shift_div_r; lra.
Qed.

(** X11. For two boxes whose corners are in order (in corner form, or in
    centre/size form with non-negative sizes) the three variants of
    [bbox_iou] without aspect-ratio term return numbers: the plain IoU lies
    in [0, 1], and GIoU and DIoU lie in [-1, 1] and never exceed the plain
    IoU. *)
Theorem giou_diou_bounds (atan : fl -> fl) (pi : Q) (x1y1x2y2 : bool) (a b : box) :
  ordered (corners x1y1x2y2 a) -> ordered (corners x1y1x2y2 b) ->
  exists iou g d,
    bbox_iou1 atan pi x1y1x2y2 false false false a b = Fin iou /\
    bbox_iou1 atan pi x1y1x2y2 true false false a b = Fin g /\
    bbox_iou1 atan pi x1y1x2y2 false true false a b = Fin d /\
    (0 <= iou /\ iou <= 1) /\
    (- (1) <= g /\ g <= iou) /\
    (- (1) <= d /\ d <= iou).
Proof.
  intros HA HB. unfold bbox_iou1. cbv zeta. cbn [orb].
  set (A := corners x1y1x2y2 a) in *. set (B := corners x1y1x2y2 b) in *.
  destruct (bbox_union_pos A B HA HB) as [HU HIU].
  pose proof (bbox_inter_nonneg A B) as HI.
  pose proof (hull_area A B HA HB) as Hhull.
  pose proof (bbox_union_area A B) as EU.
  pose proof eps16_pos as Heps.
  destruct HA as [HAx HAy], HB as [HBx HBy].
  destruct (hull_centre (c0 A) (c2 A) (c0 B) (c2 B) HAx HBx) as [Cx1 Cx2].
  destruct (hull_centre (c1 A) (c3 A) (c1 B) (c3 B) HAy HBy) as [Cy1 Cy2].
  set (W := Qmax (c2 A) (c2 B) - Qmin (c0 A) (c0 B)) in *.
  set (H := Qmax (c3 A) (c3 B) - Qmin (c1 A) (c1 B)) in *.
  set (U := bbox_union A B) in *. set (I := bbox_inter A B) in *.
  set (dx := c0 B + c2 B - (c0 A + c2 A)) in *.
  set (dy := c1 B + c3 B - (c1 A + c3 A)) in *.
  assert (HC : 0 < W * H + eps16) by lra.
  assert (HD : 0 < Qsqr W + Qsqr H + eps16) by (unfold Qsqr; nra).
  rewrite (qdiv_pos I U HU), (qdiv_pos _ _ HC), (qdiv_pos _ _ HD).
  cbn [fsub fopp fadd].
  do 3 eexists. split; [reflexivity|]. split; [reflexivity|]. split; [reflexivity|].
  destruct (quotient_unit_interval I U HI HU HIU) as [Q1 Q2].
  assert (HG : 0 <= W * H + eps16 - U /\ W * H + eps16 - U <= W * H + eps16)
    by (split; lra).
  destruct (quotient_unit_interval _ _ (proj1 HG) HC (proj2 HG)) as [G1 G2].
  assert (HR : 0 <= Qsqr dx / 4 + Qsqr dy / 4 /\
               Qsqr dx / 4 + Qsqr dy / 4 <= Qsqr W + Qsqr H + eps16).
  { unfold Qsqr, Qdiv. change (/ 4) with (1 # 4). clearbody W H dx dy.
    split; nra. }
  destruct (quotient_unit_interval _ _ (proj1 HR) HD (proj2 HR)) as [R1 R2].
  set (qi := I / U) in *.
  set (qg := (W * H + eps16 - U) / (W * H + eps16)) in *.
  set (qd := (Qsqr dx / 4 + Qsqr dy / 4) / (Qsqr W + Qsqr H + eps16)) in *.
  clearbody qi qg qd.
  repeat split; lra.
Qed.

Lemma giou_diou_bounds_witness :
  exists iou g d,
    bbox_iou1 ex_atan ex_pi true false false false ex_unit_box ex_far_box = Fin iou /\
    bbox_iou1 ex_atan ex_pi true true false false ex_unit_box ex_far_box = Fin g /\
    bbox_iou1 ex_atan ex_pi true false true false ex_unit_box ex_far_box = Fin d /\
    (0 <= iou /\ iou <= 1) /\
    (- (1) <= g /\ g <= iou) /\
    (- (1) <= d /\ d <= iou).
Proof.
  apply (giou_diou_bounds ex_atan ex_pi true ex_unit_box ex_far_box);
    split; discriminate.
Defined.

(** ** The anchor check and the shape filter of [build_targets] *)

Lemma inv_lt_swap (x t : Q) : 0 < x -> 0 < t -> (1 / t < x <-> 1 / x < t).
Proof.
  intros Hx Ht.
  assert (Eu : 1 / t * t == 1) by (field; lra).
  assert (Ev : 1 / x * x == 1) by (field; lra).
  assert (Hu : 0 < 1 / t) by (apply Qlt_shift_div_l; lra).
  assert (Hv : 0 < 1 / x) by (apply Qlt_shift_div_l; lra).
  set (u := 1 / t) in *. set (v := 1 / x) in *. clearbody u v.
  split; intro H; nra.
Qed.

Lemma ratio_positive (w a : Q) :
  0 < w -> 0 < a ->
  0 < w / a /\
  ratio_min w a = Fin (Qmin (w / a) (1 / (w / a))) /\
  ratio_max w a = Fin (Qmax (w / a) (1 / (w / a))).
Proof.
  intros Hw Ha.
  assert (Hr : 0 < w / a) by (apply Qlt_shift_div_l; lra).
  split; [exact Hr|].
  unfold ratio_min, ratio_max. cbv zeta. rewrite (qdiv_pos w a Ha).
  cbn [fdiv]. rewrite (qdiv_pos 1 (w / a) Hr). split; reflexivity.
Qed.

Lemma bool_eq_iff (b c : bool) : (b = true <-> c = true) -> b = c.
Proof.
  destruct b, c; intros [H1 H2]; try reflexivity.
  - symmetry. apply H1. reflexivity.
  - apply H2. reflexivity.
Qed.

(** For positive sizes the test of the anchor check on one label and one
    anchor is the test of the shape filter. *)
Lemma anchor_fit_shape_match (thr : Q) (s a : Q * Q) :
  0 < thr -> positive_size s -> positive_size a ->
  exists q, anchor_fit s a = Fin q /\
            fgt (Fin q) (Fin (1 / thr)) = shape_match thr a (size_cand s).
Proof.
  intros Ht [Hw Hh] [Haw Hah].
  destruct (ratio_positive (fst s) (fst a) Hw Haw) as [Hr [Emin Emax]].
  destruct (ratio_positive (snd s) (snd a) Hh Hah) as [Hr' [Emin' Emax']].
  unfold anchor_fit, shape_match. cbn [size_cand k_w k_h].
  rewrite Emin, Emin', Emax, Emax'. cbn [fmin fmax].
  eexists. split; [reflexivity|].
  unfold fgt. cbn [flt]. apply bool_eq_iff. rewrite !Qlt_bool_iff.
  set (r := fst s / fst a) in *. set (r' := snd s / snd a) in *.
  assert (Hi : 0 < 1 / r) by (apply Qlt_shift_div_l; lra).
  assert (Hi' : 0 < 1 / r') by (apply Qlt_shift_div_l; lra).
  rewrite !Q.min_glb_lt_iff, !Q.max_lub_lt_iff.
  rewrite (inv_lt_swap r thr Hr Ht), (inv_lt_swap r' thr Hr' Ht).
  rewrite (inv_lt_swap (1 / r) thr Hi Ht), (inv_lt_swap (1 / r') thr Hi' Ht).
  assert (E : 1 / (1 / r) == r) by (field; lra).
  assert (E' : 1 / (1 / r') == r') by (field; lra).
  rewrite E, E'. tauto.
Qed.

Lemma fold_fmax_fin (t : Q) (row : list fl) (v : Q) (bs : list bool) :
  Forall2 (fun x b => exists q, x = Fin q /\ fgt (Fin q) (Fin t) = b) row bs ->
  exists m, fold_left fmax row (Fin v) = Fin m /\
            fgt (Fin m) (Fin t) = fgt (Fin v) (Fin t) || existsb (fun b => b) bs.
Proof.
  intro H. revert v. induction H as [|x b row bs [q [-> Hq]] _ IH]; intro v.
  - exists v. cbn. rewrite orb_false_r. split; reflexivity.
  - cbn [fold_left fmax existsb]. destruct (IH (Qmax v q)) as [m [Em Hm]].
    exists m. split; [exact Em|]. rewrite Hm, <- Hq, orb_assoc. f_equal.
    unfold fgt. cbn [flt]. apply bool_eq_iff.
    rewrite orb_true_iff, !Qlt_bool_iff. rewrite Q.max_lt_iff. tauto.
Qed.

(** X12. The anchor check measures what training will do.  For label and
    anchor sizes that are all positive, a positive threshold and at least
    one anchor, [metric] of [check_anchors] returns as best possible recall
    the fraction of labels for which some anchor passes the shape filter of
    [build_targets] at [anchor_t = thr], and as anchors above threshold the
    mean number of anchors per label that pass it: the test
    [min(r, 1/r).min > 1/thr] is the test [max(r, 1/r).max < thr]. *)
Theorem anchor_metric_matches_shape_filter (thr : Q) (wh k : list (Q * Q)) :
  0 < thr -> k <> [] ->
  Forall positive_size wh -> Forall positive_size k ->
  anchor_metric thr wh k =
  Some (fmean (map (fun s => indicator
                               (existsb (fun a => shape_match thr a (size_cand s)) k))
                   wh),
        fmean (map (fun s => fsum (map (fun a => indicator
                                                   (shape_match thr a (size_cand s)))
                                       k))
                   wh)).
Proof.
  intros Ht Hk Hwh Hpos. rewrite Forall_forall in Hwh, Hpos.
  unfold anchor_metric. cbv zeta.
  destruct k as [|a0 k']; [contradiction|]. set (k := a0 :: k') in *.
  assert (Et : Qeq_bool thr 0 = false).
  { destruct (Qeq_bool thr 0) eqn:E; [|reflexivity]. apply Qeq_bool_iff in E. lra. }
  assert (Hrow : forall s, In s wh ->
            Forall2 (fun x b => exists q, x = Fin q /\ fgt (Fin q) (Fin (1 / thr)) = b)
                    (map (anchor_fit s) k)
                    (map (fun a => shape_match thr a (size_cand s)) k)).
  { intros s Hs. clear Hk. induction k as [|a l IH]; cbn [map]; constructor.
    - apply anchor_fit_shape_match; [exact Ht | apply Hwh, Hs | apply Hpos; left; reflexivity].
    - apply IH. intros a' Ha'. apply Hpos. right. exact Ha'. }
  assert (Hbest : forall s, In s wh ->
            exists m, fmax_row (map (anchor_fit s) k) = Some (Fin m) /\
                      fgt (Fin m) (Fin (1 / thr)) =
                      existsb (fun a => shape_match thr a (size_cand s)) k).
  { intros s Hs. pose proof (Hrow s Hs) as H. unfold k in *. cbn [map] in *.
    inversion H as [|x b row bs [q [Ex Hq]] Hrest]; subst.
    rewrite Ex. cbn [fmax_row].
    destruct (fold_fmax_fin (1 / thr) _ q _ Hrest) as [m [Em Hm]].
    exists m. split; [rewrite Em; reflexivity|].
    rewrite Hm, Hq. cbn [existsb]. f_equal.
    clear. induction k' as [|a l IH]; cbn; [reflexivity|]. rewrite IH. reflexivity. }
  assert (Hm : mapM fmax_row (map (fun s => map (anchor_fit s) k) wh) =
               Some (map (fun s => match fmax_row (map (anchor_fit s) k) with
                                   | Some v => v
                                   | None => NaN
                                   end) wh)).
  { rewrite <- (map_map (fun s => map (anchor_fit s) k)
                        (fun row => match fmax_row row with Some v => v | None => NaN end)).
    apply mapM_all_some. intros row Hrow'. apply in_map_iff in Hrow'.
    destruct Hrow' as [s [<- Hs]]. destruct (Hbest s Hs) as [m [-> _]]. reflexivity. }
  rewrite Hm, Et. f_equal. f_equal.
  - f_equal. rewrite map_map. apply map_ext_in. intros s Hs.
    destruct (Hbest s Hs) as [m [-> Hgt]]. rewrite Hgt. reflexivity.
  - f_equal. rewrite map_map. apply map_ext_in. intros s Hs. f_equal.
    pose proof (Hrow s Hs) as H. clear - H.
    induction k as [|a l IH]; cbn [map] in *; [reflexivity|].
    inversion H as [|x b row bs [q [Ex Hq]] Hrest]; subst.
    rewrite Ex, Hq. f_equal. apply IH. exact Hrest.
Qed.

Lemma anchor_metric_matches_shape_filter_witness :
  anchor_metric 4 ex_label_sizes ex_anchor_sizes =
  Some (fmean (map (fun s => indicator
                               (existsb (fun a => shape_match 4 a (size_cand s))
                                        ex_anchor_sizes))
                   ex_label_sizes),
        fmean (map (fun s => fsum (map (fun a => indicator
                                                   (shape_match 4 a (size_cand s)))
                                       ex_anchor_sizes))
                   ex_label_sizes)).
Proof.
  apply (anchor_metric_matches_shape_filter 4 ex_label_sizes ex_anchor_sizes).
  - reflexivity.
  - discriminate.
  - repeat constructor.
  - repeat constructor.
Defined.

(** ** [build_targets]: where the assignments land *)

Lemma Qtrunc_nonneg (q : Q) : 0 <= q -> Qtrunc q = Qfloor q.
Proof.
  intro H. unfold Qtrunc. apply Qle_bool_iff in H. rewrite H. reflexivity.
Qed.

Lemma Qfloor_nonneg (q : Q) : 0 <= q -> (0 <= Qfloor q)%Z.
Proof. intro H. rewrite <- (Qfloor_Z 0). apply Qfloor_resp_le. exact H. Qed.

Lemma Qfloor_bounds (q : Q) :
  inject_Z (Qfloor q) <= q /\ q < inject_Z (Qfloor q) + 1.
Proof.
  pose proof (Qfloor_le q) as H1. pose proof (Qlt_floor q) as H2.
  rewrite inject_Z_plus in H2. change (inject_Z 1) with 1 in H2. split; assumption.
Qed.

Lemma inject_Z_lt_inv (a b : Z) : inject_Z a < inject_Z b -> (a < b)%Z.
Proof. intro H. rewrite Zlt_Qlt. exact H. Qed.

(** One axis of an assignment.  The offset is 0, or +0.5 for a centre in
    the low half of its cell, or -0.5 for one in the high half (seen from
    the far edge of a grid of [n] cells). *)
Lemma axis_cell (n : Z) (v o : Q) :
  0 <= v ->
  (o == 0 \/ (o == 1 # 2 /\ near_low v = true) \/
   (o == - (1 # 2) /\ near_low (inject_Z n - v) = true)) ->
  decodable (v - inject_Z (Qtrunc (v - o))) /\
  (v < inject_Z n -> (0 <= Qtrunc (v - o) < n)%Z).
Proof.
  intros Hv Ho. unfold decodable.
  destruct (Qfloor_bounds v) as [F1 F2].
  pose proof (Qfloor_nonneg v Hv) as F0.
  destruct Ho as [E | [[E Hn] | [E Hn]]].
  - assert (Et : Qtrunc (v - o) = Qfloor v).
    { rewrite (Qtrunc_comp (v - o) v) by (rewrite E; ring). apply Qtrunc_nonneg, Hv. }
    rewrite Et. split; [split; lra|].
    intro Hlt. split; [exact F0|]. apply inject_Z_lt_inv. lra.
  - apply near_low_true in Hn. destruct Hn as [Hfrac Hone]. unfold Qmod1 in Hfrac.
    assert (Et : Qtrunc (v - o) = (Qfloor v - 1)%Z).
    { rewrite (Qtrunc_comp (v - o) (v - (1 # 2))) by (rewrite E; ring).
      rewrite Qtrunc_nonneg by lra. apply Qfloor_unique.
      - unfold Z.sub. rewrite inject_Z_plus. change (inject_Z (- (1))) with (- (1)). lra.
      - replace (Qfloor v - 1 + 1)%Z with (Qfloor v) by lia. lra. }
    rewrite Et. unfold Z.sub. rewrite inject_Z_plus.
    change (inject_Z (- (1))) with (- (1)).
    split; [split; lra|]. intro Hlt.
    assert (H1 : (1 <= Qfloor v)%Z).
    { rewrite <- (Qfloor_Z 1). apply Qfloor_resp_le. change (inject_Z 1) with 1. lra. }
    assert (H2 : (Qfloor v < n)%Z) by (apply inject_Z_lt_inv; lra).
    lia.
  - apply near_low_true in Hn. destruct Hn as [Hfrac Hone].
    destruct (Qmod1_range v) as [M0 M1].
    destruct (Qlt_le_dec 0 (Qmod1 v)) as [Hpos | Hzero].
    + rewrite (Qmod1_mirror n v Hpos) in Hfrac. unfold Qmod1 in Hfrac, Hpos.
      assert (Et : Qtrunc (v - o) = (Qfloor v + 1)%Z).
      { rewrite (Qtrunc_comp (v - o) (v + (1 # 2))) by (rewrite E; ring).
        rewrite Qtrunc_nonneg by lra. apply Qfloor_unique.
        - rewrite inject_Z_plus. change (inject_Z 1) with 1. lra.
        - rewrite !inject_Z_plus. change (inject_Z 1) with 1. lra. }
      rewrite Et. rewrite inject_Z_plus. change (inject_Z 1) with 1.
      split; [split; lra|]. intros _.
      assert (H2 : (Qfloor v + 1 < n)%Z).
      { apply inject_Z_lt_inv. rewrite inject_Z_plus. change (inject_Z 1) with 1. lra. }
      lia.
    + assert (Hz : Qmod1 v == 0) by lra. unfold Qmod1 in Hz.
      assert (Et : Qtrunc (v - o) = Qfloor v).
      { rewrite (Qtrunc_comp (v - o) (v + (1 # 2))) by (rewrite E; ring).
        rewrite Qtrunc_nonneg by lra. apply Qfloor_unique.
        - lra.
        - rewrite inject_Z_plus. change (inject_Z 1) with 1. lra. }
      rewrite Et. split; [split; lra|]. intros _.
      split; [exact F0|]. apply inject_Z_lt_inv. lra.
Qed.

(** The two axes of a row that [expand] emits. *)
Lemma expand_row_cell (nx ny : nat) (t : list cand) (r : cand * (Q * Q)) :
  In r (expand (Qofnat nx) (Qofnat ny) t) ->
  0 <= k_x (fst r) -> 0 <= k_y (fst r) ->
  (decodable (k_x (fst r) - inject_Z (fst (gij r))) /\
   (k_x (fst r) < Qofnat nx -> (0 <= fst (gij r) < Z.of_nat nx)%Z)) /\
  (decodable (k_y (fst r) - inject_Z (snd (gij r))) /\
   (k_y (fst r) < Qofnat ny -> (0 <= snd (gij r) < Z.of_nat ny)%Z)).
Proof.
  unfold expand. intro H. apply in_flat_map in H. destruct H as [d [_ H]].
  apply in_map_iff in H. destruct H as [c [<- Hc]].
  apply filter_In in Hc. destruct Hc as [_ Hflag].
  cbn [fst snd gij]. intros Hx Hy. unfold Qofnat.
  destruct d; cbn [dir_flag off fst snd] in *; unfold g_half; split;
    apply axis_cell; try assumption;
    first [ left; reflexivity
          | right; left; split; [reflexivity | exact Hflag]
          | right; right; split; [reflexivity | exact Hflag] ].
Qed.

(** The candidates that reach [expand] are scaled copies of the targets. *)
Lemma shape_filter_source (anchor_t : Q) (anchors_i : list (Q * Q)) (n : nat)
      (targets : list target) (g : cand) (c : cand) :
  In c (shape_filter anchor_t anchors_i
          (map (map (fun t => cand_mul t g)) (repeat_targets n targets))) ->
  exists k t, In t targets /\ c = cand_mul (with_anchor k t) g.
Proof.
  unfold shape_filter, repeat_targets. rewrite map_map.
  intro H. apply in_flat_map in H. destruct H as [[anchor copies] [Hin Hr]].
  cbn in Hr. apply filter_In in Hr. destruct Hr as [Hr _].
  apply in_combine_seq_map in Hin. destruct Hin as [k [_ ->]].
  rewrite map_map in Hr. apply in_map_iff in Hr. destruct Hr as [t [<- Ht]].
  exists k, t. split; [exact Ht | reflexivity].
Qed.

(** The layer of a batch with targets, as the source builds it. *)
Lemma build_targets_layer_expand (anchor_t : Q) (anchors_i : list (Q * Q))
      (shape : list nat) (n : nat) (targets : list target) (lt : layer_targets)
      (ny nx : nat) :
  targets <> [] ->
  nth_error shape 2 = Some ny -> nth_error shape 3 = Some nx ->
  build_targets_layer anchor_t anchors_i shape (length targets)
                      (repeat_targets n targets) = Some lt ->
  assemble anchors_i
           (expand (Qofnat nx) (Qofnat ny)
                   (shape_filter anchor_t anchors_i
                      (map (map (fun r => cand_mul r (gain_of (Qofnat nx) (Qofnat ny))))
                           (repeat_targets n targets)))) = Some lt.
Proof.
  intros Hne Hy Hx. unfold build_targets_layer. rewrite Hx, Hy.
  destruct targets as [|t0 targets]; [contradiction|].
  cbn [length Nat.eqb negb]. intro H. exact H.
Qed.

Lemma build_targets_layer_empty (anchor_t : Q) (anchors_i : list (Q * Q))
      (shape : list nat) (n : nat) (lt : layer_targets) :
  build_targets_layer anchor_t anchors_i shape 0 (repeat_targets n []) = Some lt ->
  lt = no_assignment.
Proof.
  unfold build_targets_layer.
  destruct (nth_error shape 3); [|discriminate].
  destruct (nth_error shape 2); [|discriminate].
  cbn [Nat.eqb negb]. destruct n as [|n]; cbn; intro H; [discriminate|].
  injection H as <-. reflexivity.
Qed.

Lemma assemble_cell (anchors_i : list (Q * Q)) (t : list (cand * (Q * Q)))
      (lt : layer_targets) (n : nat) :
  assemble anchors_i t = Some lt ->
  (forall gi, nth_error (idx_gi lt) n = Some gi ->
              exists r, nth_error t n = Some r /\ gi = fst (gij r)) /\
  (forall gj, nth_error (idx_gj lt) n = Some gj ->
              exists r, nth_error t n = Some r /\ gj = snd (gij r)) /\
  (forall b, nth_error (tbox lt) n = Some b ->
             exists r, nth_error t n = Some r /\
                       b = (k_x (fst r) - inject_Z (fst (gij r)),
                            k_y (fst r) - inject_Z (snd (gij r)),
                            k_w (fst r), k_h (fst r))).
Proof.
  unfold assemble. destruct (mapM _ t) as [an|]; [|discriminate].
  intro H. injection H as <-. cbn [idx_gi idx_gj tbox].
  split; [|split]; intros v Hv; apply nth_error_map_some in Hv; exact Hv.
Qed.

(** X13. For ground truths whose centre lies inside the image ([0 <= x < 1]
    and [0 <= y < 1]) every grid index that [build_targets] emits for a
    layer addresses a cell of that layer's grid: [0 <= gi < nx] and
    [0 <= gj < ny], for the origin cell and for the neighbours alike. *)
Theorem build_targets_cells_in_grid
        (p : list (list nat)) (targets : list target) (det : Detect)
        (anchor_t : Q) (outs : list layer_targets)
        (i : nat) (lt : layer_targets) (shape : list nat) (ny nx : nat) :
  build_targets p targets det anchor_t = Some outs ->
  Forall centre_in_image targets ->
  nth_error outs i = Some lt ->
  nth_error p i = Some shape ->
  nth_error shape 2 = Some ny -> nth_error shape 3 = Some nx ->
  (0 < ny)%nat -> (0 < nx)%nat ->
  forall n gj gi,
    nth_error (idx_gj lt) n = Some gj -> nth_error (idx_gi lt) n = Some gi ->
    (0 <= gj < Z.of_nat ny)%Z /\ (0 <= gi < Z.of_nat nx)%Z.
Proof.
  intros Hb Hin Hi Hp Hy Hx Hny Hnx n gj gi Hgj Hgi.
  destruct (build_targets_layer_of _ _ _ _ _ _ _ Hb Hi)
    as [anchors_i [shape' [_ [Hp' Hl]]]].
  rewrite Hp in Hp'. injection Hp' as <-.
  destruct targets as [|t0 targets'] eqn:Et.
  { apply build_targets_layer_empty in Hl. subst lt. destruct n; discriminate. }
  rewrite <- Et in *.
  assert (Hne : targets <> []) by (rewrite Et; discriminate).
  pose proof (build_targets_layer_expand _ _ _ _ _ _ _ _ Hne Hy Hx Hl) as Hasm.
  destruct (assemble_cell _ _ _ n Hasm) as [Agi [Agj _]].
  destruct (Agi gi Hgi) as [r [Hr ->]]. destruct (Agj gj Hgj) as [r' [Hr' ->]].
  rewrite Hr in Hr'. injection Hr' as <-.
  apply nth_error_In in Hr.
  pose proof (expand_In _ _ _ _ Hr) as Hsrc.
  apply shape_filter_source in Hsrc. destruct Hsrc as [k [t [Ht Ec]]].
  rewrite Forall_forall in Hin. destruct (Hin t Ht) as [[X0 X1] [Y0 Y1]].
  assert (Hnxq : 0 < Qofnat nx) by (apply inject_Z_pos; lia).
  assert (Hnyq : 0 < Qofnat ny) by (apply inject_Z_pos; lia).
  assert (Ex : k_x (fst r) = t_x t * Qofnat nx) by (rewrite Ec; reflexivity).
  assert (Ey : k_y (fst r) = t_y t * Qofnat ny) by (rewrite Ec; reflexivity).
  assert (Gx : 0 <= k_x (fst r) /\ k_x (fst r) < Qofnat nx) by (rewrite Ex; split; nra).
  assert (Gy : 0 <= k_y (fst r) /\ k_y (fst r) < Qofnat ny) by (rewrite Ey; split; nra).
  destruct (expand_row_cell nx ny _ r Hr (proj1 Gx) (proj1 Gy)) as [[_ Bx] [_ By]].
  split; [apply By, Gy | apply Bx, Gx].
Qed.

Lemma build_targets_cells_in_grid_witness :
  (0 <= 2 < Z.of_nat 8)%Z /\ (0 <= 1 < Z.of_nat 8)%Z.
Proof.
  apply (build_targets_cells_in_grid
           ex_p [ex_gt_corner] ex_det1 4 ex_outs_corner 0 ex_layer_corner
           [1; 3; 8; 8; 6]%nat 8 8 eq_refl) with (n := 1%nat);
    try reflexivity; try lia.
  constructor; [|constructor].
  unfold centre_in_image, ex_gt_corner; cbn. repeat split; discriminate.
Defined.

(** X14. For ground truths whose centre has non-negative coordinates every
    box target that [build_targets] emits has its x and y offset strictly
    between -0.5 and 1.5, which is the range of [sigmoid * 2 - 0.5] that
    [compute_loss] decodes predictions with: in the origin cell the offset
    is in [0, 1), in a neighbour on the low side in [1, 1.5), on the high
    side in (-0.5, 0]. *)
Theorem build_targets_offsets_decodable
        (p : list (list nat)) (targets : list target) (det : Detect)
        (anchor_t : Q) (outs : list layer_targets) (i : nat) (lt : layer_targets) :
  build_targets p targets det anchor_t = Some outs ->
  Forall centre_nonneg targets ->
  nth_error outs i = Some lt ->
  forall n dx dy w h,
    nth_error (tbox lt) n = Some (dx, dy, w, h) ->
    decodable dx /\ decodable dy.
Proof.
  intros Hb Hin Hi n dx dy w h Hbox.
  destruct (build_targets_layer_of _ _ _ _ _ _ _ Hb Hi)
    as [anchors_i [shape [_ [Hp Hl]]]].
  destruct targets as [|t0 targets'] eqn:Et.
  { apply build_targets_layer_empty in Hl. subst lt. destruct n; discriminate. }
  rewrite <- Et in *.
  assert (Hne : targets <> []) by (rewrite Et; discriminate).
  destruct (nth_error shape 3) as [nx|] eqn:Hx;
    [|unfold build_targets_layer in Hl; rewrite Hx in Hl; discriminate].
  destruct (nth_error shape 2) as [ny|] eqn:Hy;
    [|unfold build_targets_layer in Hl; rewrite Hx, Hy in Hl; discriminate].
  pose proof (build_targets_layer_expand _ _ _ _ _ _ _ _ Hne Hy Hx Hl) as Hasm.
  destruct (assemble_cell _ _ _ n Hasm) as [_ [_ Abox]].
  destruct (Abox _ Hbox) as [r [Hr E]]. injection E as -> -> _ _.
  apply nth_error_In in Hr.
  pose proof (expand_In _ _ _ _ Hr) as Hsrc.
  apply shape_filter_source in Hsrc. destruct Hsrc as [k [t [Ht Ec]]].
  rewrite Forall_forall in Hin. destruct (Hin t Ht) as [X0 Y0].
  assert (Hnxq : 0 <= Qofnat nx) by (apply inject_Z_nonneg; lia).
  assert (Hnyq : 0 <= Qofnat ny) by (apply inject_Z_nonneg; lia).
  assert (Gx : 0 <= k_x (fst r)) by (rewrite Ec; cbn; nra).
  assert (Gy : 0 <= k_y (fst r)) by (rewrite Ec; cbn; nra).
  destruct (expand_row_cell nx ny _ r Hr Gx Gy) as [[Bx _] [By _]].
  split; assumption.
Qed.

Lemma build_targets_offsets_decodable_witness :
  decodable (4 # 4) /\ decodable (0 # 4).
Proof.
  apply (build_targets_offsets_decodable
           ex_p [ex_gt_corner] ex_det1 4 ex_outs_corner 0 ex_layer_corner eq_refl)
    with (n := 1%nat) (w := 8 # 8) (h := 8 # 8); try reflexivity.
  constructor; [|constructor].
  unfold centre_nonneg, ex_gt_corner; cbn. split; discriminate.
Defined.

(** ** [build_targets]: nothing that matches is left out *)

Lemma nth_error_combine {A B : Type} (l : list A) (l' : list B) (k : nat) (a : A) (b : B) :
  nth_error l k = Some a -> nth_error l' k = Some b ->
  nth_error (combine l l') k = Some (a, b).
Proof.
  revert l' k. induction l as [|x l IH]; intros l' k Ha Hb.
  - destruct k; discriminate.
  - destruct l' as [|y l']; [destruct k; discriminate|].
    destruct k as [|k]; cbn in *.
    + injection Ha as ->. injection Hb as ->. reflexivity.
    + apply IH; assumption.
Qed.

Lemma shape_filter_complete (anchor_t : Q) (anchors_i : list (Q * Q)) (n : nat)
      (targets : list target) (g : cand) (t : target) (k : nat) (anchor : Q * Q) :
  In t targets -> (k < n)%nat -> nth_error anchors_i k = Some anchor ->
  shape_match anchor_t anchor (cand_mul (with_anchor k t) g) = true ->
  In (cand_mul (with_anchor k t) g)
     (shape_filter anchor_t anchors_i
        (map (map (fun t => cand_mul t g)) (repeat_targets n targets))).
Proof.
  intros Ht Hk Ha Hm. unfold shape_filter, repeat_targets. rewrite map_map.
  apply in_flat_map.
  exists (anchor, map (fun t => cand_mul t g) (map (with_anchor k) targets)). split.
  - apply nth_error_In with (n := k). apply nth_error_combine; [exact Ha|].
    rewrite nth_error_map, nth_error_seq.
    destruct (Nat.ltb_spec k n); [reflexivity | lia].
  - cbn [fst snd]. apply filter_In. split; [|exact Hm].
    rewrite map_map. apply in_map_iff. exists t. split; [reflexivity | exact Ht].
Qed.

Lemma expand_origin_In (nx ny : Q) (t : list cand) (c : cand) :
  In c t -> In (c, (0 + fst (off Dorigin), 0 + snd (off Dorigin))) (expand nx ny t).
Proof.
  intro H. unfold expand, directions. cbn [flat_map]. apply in_or_app. left.
  apply (in_map (fun r => (r, (0 + fst (off Dorigin), 0 + snd (off Dorigin))))).
  apply filter_In. split; [exact H | reflexivity].
Qed.

(** The entries of the parallel lists at the position of a row. *)
Lemma assemble_nth (anchors_i : list (Q * Q)) (t : list (cand * (Q * Q)))
      (lt : layer_targets) (n : nat) (r : cand * (Q * Q)) :
  assemble anchors_i t = Some lt -> nth_error t n = Some r ->
  nth_error (tcls lt) n = Some (Qtrunc (k_cls (fst r))) /\
  nth_error (idx_b lt) n = Some (Qtrunc (k_img (fst r))) /\
  nth_error (idx_a lt) n = Some (Qtrunc (k_a (fst r))) /\
  nth_error (idx_gj lt) n = Some (snd (gij r)) /\
  nth_error (idx_gi lt) n = Some (fst (gij r)) /\
  nth_error (ttar lt) n = Some (k_x (fst r), k_y (fst r), k_w (fst r), k_h (fst r)) /\
  exists anchor,
    tensor_index anchors_i (Qtrunc (k_a (fst r))) = Some anchor /\
    nth_error (anch lt) n = Some anchor.
Proof.
  unfold assemble. destruct (mapM _ t) as [an|] eqn:Ean; [|discriminate].
  intros H Hr. injection H as <-. cbn [tcls idx_b idx_a idx_gj idx_gi ttar anch].
  rewrite !nth_error_map, Hr. cbn [option_map].
  repeat (split; [reflexivity|]).
  destruct (mapM_nth_error_inv _ _ _ Ean _ _ Hr) as [anchor [Hk Hidx]].
  exists anchor. split; assumption.
Qed.

(** X15. [build_targets] leaves out nothing that matches.  For every ground
    truth and every anchor of a layer to which the ground truth's size, in
    grid units, is within the threshold in both dimensions, the layer holds
    an assignment of that ground truth to that anchor in the cell its centre
    falls into: the same position of the lists carries the anchor index and
    the anchor, the image and the class, the scaled box, and the truncated
    centre as grid indices. *)
Theorem build_targets_complete
        (p : list (list nat)) (targets : list target) (det : Detect)
        (anchor_t : Q) (outs : list layer_targets)
        (i : nat) (lt : layer_targets) (anchors_i : list (Q * Q))
        (shape : list nat) (ny nx : nat)
        (t : target) (k : nat) (anchor : Q * Q) :
  build_targets p targets det anchor_t = Some outs ->
  nth_error outs i = Some lt ->
  nth_error (anchors det) i = Some anchors_i ->
  nth_error p i = Some shape ->
  nth_error shape 2 = Some ny -> nth_error shape 3 = Some nx ->
  In t targets -> (k < na det)%nat -> nth_error anchors_i k = Some anchor ->
  within_threshold anchor_t anchor (t_w t * Qofnat nx) (t_h t * Qofnat ny) ->
  exists n,
    nth_error (idx_b lt) n = Some (Qtrunc (t_img t)) /\
    nth_error (idx_a lt) n = Some (Z.of_nat k) /\
    nth_error (idx_gj lt) n = Some (Qtrunc (t_y t * Qofnat ny)) /\
    nth_error (idx_gi lt) n = Some (Qtrunc (t_x t * Qofnat nx)) /\
    nth_error (anch lt) n = Some anchor /\
    nth_error (tcls lt) n = Some (Qtrunc (t_cls t)) /\
    nth_error (ttar lt) n =
    Some (t_x t * Qofnat nx, t_y t * Qofnat ny, t_w t * Qofnat nx, t_h t * Qofnat ny).
Proof.
  intros Hb Hi Han Hp Hy Hx Ht Hk Ha [Hw Hh].
  destruct (build_targets_layer_of _ _ _ _ _ _ _ Hb Hi)
    as [anchors_i' [shape' [Han' [Hp' Hl]]]].
  rewrite Han in Han'. injection Han' as <-.
  rewrite Hp in Hp'. injection Hp' as <-.
  assert (Hne : targets <> []) by (intro E; rewrite E in Ht; destruct Ht).
  pose proof (build_targets_layer_expand _ _ _ _ _ _ _ _ Hne Hy Hx Hl) as Hasm.
  set (g := gain_of (Qofnat nx) (Qofnat ny)) in *.
  set (c := cand_mul (with_anchor k t) g).
  assert (Hm : shape_match anchor_t anchor c = true)
    by (unfold shape_match; apply flt_fmax_intro; assumption).
  pose proof (shape_filter_complete anchor_t anchors_i (na det) targets g t k anchor
                                    Ht Hk Ha Hm) as Hc.
  pose proof (expand_origin_In (Qofnat nx) (Qofnat ny) _ c Hc) as Hr.
  apply In_nth_error in Hr. destruct Hr as [n Hn].
  destruct (assemble_nth _ _ _ n _ Hasm Hn)
    as [A1 [A2 [A3 [A4 [A5 [A6 [anchor' [A7 A8]]]]]]]].
  cbn [fst snd gij] in *.
  assert (Ek : Qtrunc (k_a c) = Z.of_nat k) by (apply Qtrunc_of_nat_mul_1).
  rewrite Ek in A3, A7.
  unfold tensor_index in A7. destruct (Z.leb_spec 0 (Z.of_nat k)); [|lia].
  rewrite Nat2Z.id, Ha in A7. injection A7 as <-.
  exists n. split.
  { rewrite A2. f_equal. apply Qtrunc_comp. cbn. ring. }
  split; [exact A3|]. split.
  { rewrite A4. f_equal. apply Qtrunc_comp. cbn. unfold g_half. ring. }
  split.
  { rewrite A5. f_equal. apply Qtrunc_comp. cbn. unfold g_half. ring. }
  split; [exact A8|]. split.
  { rewrite A1. f_equal. apply Qtrunc_comp. cbn. ring. }
  exact A6.
Qed.

Lemma build_targets_complete_witness :
  exists n,
    nth_error (idx_b ex_layer_centre) n = Some (Qtrunc (t_img ex_gt_centre)) /\
    nth_error (idx_a ex_layer_centre) n = Some (Z.of_nat 1) /\
    nth_error (idx_gj ex_layer_centre) n = Some (Qtrunc (t_y ex_gt_centre * Qofnat 8)) /\
    nth_error (idx_gi ex_layer_centre) n = Some (Qtrunc (t_x ex_gt_centre * Qofnat 8)) /\
    nth_error (anch ex_layer_centre) n = Some (2, 2) /\
    nth_error (tcls ex_layer_centre) n = Some (Qtrunc (t_cls ex_gt_centre)) /\
    nth_error (ttar ex_layer_centre) n =
    Some (t_x ex_gt_centre * Qofnat 8, t_y ex_gt_centre * Qofnat 8,
          t_w ex_gt_centre * Qofnat 8, t_h ex_gt_centre * Qofnat 8).
Proof.
  apply (build_targets_complete
           ex_p [ex_gt_centre] ex_det 4 ex_outs_centre 0 ex_layer_centre
           [(1, 1); (2, 2); (10, 10)] [1; 3; 8; 8; 6]%nat 8 8 ex_gt_centre 1 (2, 2));
    try reflexivity.
  - left. reflexivity.
  - cbn. lia.
  - split; reflexivity.
Defined.

(** ** Non-maximum suppression: one entry per image *)

Lemma nms_loop_length (late : nat -> bool) (nc : nat) (conf_thres iou_thres : Q)
      (merge : bool) (classes : option (list Z)) (agnostic : bool)
      (images : list (list pred)) (xi0 : nat)
      (outs : list (option (list detection))) :
  nms_loop late nc conf_thres iou_thres merge classes agnostic xi0 images = Returned outs ->
  length outs = length images.
Proof.
  revert xi0 outs. induction images as [|x images IH]; intros xi0 outs H; cbn in H.
  - injection H as <-. reflexivity.
  - destruct (nms_image nc conf_thres iou_thres merge classes agnostic x) as [|o];
      [discriminate|].
    destruct (match o with Some _ => late xi0 | None => false end).
    + injection H as <-. cbn. rewrite length_map. reflexivity.
    + destruct (nms_loop late nc conf_thres iou_thres merge classes agnostic
                         (S xi0) images) as [|os] eqn:El; [discriminate|].
      injection H as <-. cbn. f_equal. eapply IH. exact El.
Qed.

Lemma nms_loop_late (late : nat -> bool) (nc : nat) (conf_thres iou_thres : Q)
      (merge : bool) (classes : option (list Z)) (agnostic : bool)
      (images : list (list pred)) (xi0 : nat)
      (outs : list (option (list detection))) :
  nms_loop late nc conf_thres iou_thres merge classes agnostic xi0 images = Returned outs ->
  forall k rows, nth_error outs k = Some (Some rows) -> late (xi0 + k)%nat = true ->
  forall j, (k < j < length outs)%nat -> nth_error outs j = Some None.
Proof.
  revert xi0 outs. induction images as [|x images IH]; intros xi0 outs H k rows Hk Hl j Hj;
    cbn in H.
  - injection H as <-. destruct k; discriminate.
  - destruct (nms_image nc conf_thres iou_thres merge classes agnostic x) as [|o];
      [discriminate|].
    destruct (match o with Some _ => late xi0 | None => false end) eqn:Eb.
    + injection H as <-. destruct j as [|j]; [lia|]. cbn in Hj |- *.
      rewrite length_map in Hj. rewrite nth_error_map.
      destruct (nth_error images j) eqn:Ej; [reflexivity|].
      apply nth_error_None in Ej. lia.
    + destruct (nms_loop late nc conf_thres iou_thres merge classes agnostic
                         (S xi0) images) as [|os] eqn:El; [discriminate|].
      injection H as <-. destruct k as [|k]; cbn in Hk.
      * injection Hk as ->. rewrite Nat.add_0_r in Hl. congruence.
      * destruct j as [|j]; [lia|]. cbn in Hj |- *.
        apply (IH _ _ El k rows Hk); [|lia].
        replace (S xi0 + k)%nat with (xi0 + S k)%nat by lia. exact Hl.
Qed.

(** X16. Whenever [non_max_suppression] returns, its output has exactly
    one entry per image of the batch (and the batch is not empty).  When
    the time limit has passed after an image that produced detections, the
    loop stops there: every later image has the entry [None], whatever it
    contains. *)
Theorem nms_one_entry_per_image
        (late : nat -> bool) (p : prediction) (conf_thres iou_thres : Q)
        (merge : bool) (classes : option (list Z)) (agnostic : bool)
        (outs : list (option (list detection))) :
  non_max_suppression late p conf_thres iou_thres merge classes agnostic = Returned outs ->
  length outs = length (pr_images p) /\ (0 < length outs)%nat /\
  (forall xi rows,
      nth_error outs xi = Some (Some rows) -> late xi = true ->
      forall xj, (xi < xj < length outs)%nat -> nth_error outs xj = Some None).
Proof.
  unfold non_max_suppression. intro H.
  destruct (pr_images p) as [|x0 images] eqn:Ep; [discriminate|].
  pose proof (nms_loop_length _ _ _ _ _ _ _ _ _ _ H) as Hlen.
  split; [exact Hlen|]. split; [rewrite Hlen; cbn; lia|].
  intros xi rows Hxi Hl xj Hj.
  exact (nms_loop_late _ _ _ _ _ _ _ _ _ _ H xi rows Hxi Hl xj Hj).
Qed.

Lemma nms_one_entry_per_image_witness :
  length ex_late_outs = length (pr_images ex_prediction2) /\
  (0 < length ex_late_outs)%nat /\
  (forall xi rows,
      nth_error ex_late_outs xi = Some (Some rows) -> ex_always_late xi = true ->
      forall xj, (xi < xj < length ex_late_outs)%nat ->
                 nth_error ex_late_outs xj = Some None).
Proof.
  exact (nms_one_entry_per_image ex_always_late ex_prediction2 (1 # 10) (1 # 2)
                                 false None false ex_late_outs eq_refl).
Defined.

(** ** Non-maximum suppression: the class filter *)

Lemma merge_nms_row (thr : Q) (x : list cand6) (boxes : list box) (scores : list Q)
      (i : list nat) (rows : list detection) (d : detection) :
  merge_nms thr x boxes scores i = Some rows -> In d rows ->
  exists c, In c x /\ o_conf d = d_conf c /\ o_cls d = d_cls c.
Proof.
  unfold merge_nms.
  destruct (mapM (merge_row thr x boxes scores) i) as [rows0|] eqn:E; [|discriminate].
  intro H. injection H as <-. intro Hd.
  apply in_map_iff in Hd. destruct Hd as [[k d'] [Hk Hin]]. cbn in Hk. subst d'.
  apply filter_In in Hin. destruct Hin as [Hin _].
  destruct (mapM_In _ _ _ _ E Hin) as [j [_ Hrow]].
  unfold merge_row in Hrow.
  destruct (nth_error boxes j) as [b|]; [|discriminate].
  destruct (nth_error x j) as [r|] eqn:Er; [|discriminate].
  destruct (merged_box (merge_weights thr b boxes scores) x) as [[[m0 m1] m2] m3].
  injection Hrow as _ <-. exists r.
  split; [eapply nth_error_In; exact Er | split; reflexivity].
Qed.

Lemma gather_row (x : list cand6) (i : list nat) (rows : list detection) (d : detection) :
  mapM (fun k => option_map detection_of (nth_error x k)) i = Some rows -> In d rows ->
  exists c, In c x /\ d = detection_of c.
Proof.
  intros H Hd. destruct (mapM_In _ _ _ _ H Hd) as [k [_ Hk]].
  destruct (nth_error x k) as [c|] eqn:Ec; [|discriminate].
  cbn in Hk. injection Hk as <-. exists c.
  split; [eapply nth_error_In; exact Ec | reflexivity].
Qed.

Lemma select_rows_row (thr : Q) (merge : bool) (x : list cand6) (boxes : list box)
      (scores : list Q) (i : list nat) (rows : list detection) (d : detection) :
  select_rows thr merge x boxes scores i = Some rows -> In d rows ->
  exists c, In c x /\ o_conf d = d_conf c /\ o_cls d = d_cls c.
Proof.
  unfold select_rows. cbv zeta.
  assert (Hplain : mapM (fun k => option_map detection_of (nth_error x k)) i = Some rows ->
                   In d rows -> exists c, In c x /\ o_conf d = d_conf c /\ o_cls d = d_cls c).
  { intros H Hd. destruct (gather_row _ _ _ _ H Hd) as [c [Hc ->]].
    exists c. split; [exact Hc | split; reflexivity]. }
  destruct (merge && (Nat.ltb 1 (length x) && Nat.ltb (length x) 3000)); [|exact Hplain].
  destruct (merge_nms thr x boxes scores i) as [mrows|] eqn:Em; [|exact Hplain].
  intro H. injection H as <-. apply merge_nms_row with (1 := Em).
Qed.

Lemma candidates_allowed (nc : nat) (conf_thres : Q) (c0 : Z) (cs : list Z)
      (x : list pred) (rows : list cand6) :
  candidates nc conf_thres (Some (c0 :: cs)) x = Returned rows ->
  forall r, In r rows -> class_allowed (c0 :: cs) r = true.
Proof.
  unfold candidates. cbv zeta. intros H r Hr.
  destruct (if Nat.ltb 1 nc
            then Returned (flat_map (multi_label_rows conf_thres) (map scale_cls x))
            else match mapM best_class_row (map scale_cls x) with
                 | None => Raised
                 | Some rows0 =>
                     Returned (filter (fun r0 => Qlt_bool conf_thres (d_conf r0)) rows0)
                 end) as [|rows0]; [discriminate|].
  injection H as <-. apply filter_In in Hr. exact (proj2 Hr).
Qed.

Lemma candidates_no_filter (nc : nat) (conf_thres : Q) (x : list pred) :
  candidates nc conf_thres (Some []) x = candidates nc conf_thres None x.
Proof. reflexivity. Qed.

Lemma nms_image_cands (nc : nat) (conf_thres iou_thres : Q) (merge : bool)
      (classes : option (list Z)) (agnostic : bool) (x : list pred)
      (rows : list detection) :
  nms_image nc conf_thres iou_thres merge classes agnostic x = Returned (Some rows) ->
  exists cands,
    candidates nc conf_thres classes
               (filter (fun r => Qlt_bool conf_thres (p_obj r)) x) = Returned cands /\
    cands <> [] /\
    select_rows iou_thres merge cands (offset_boxes agnostic cands) (map d_conf cands)
                (kept_indices iou_thres (offset_boxes agnostic cands) (map d_conf cands))
    = Some rows.
Proof.
  unfold nms_image. intro H.
  destruct (filter (fun r => Qlt_bool conf_thres (p_obj r)) x) as [|r0 x'] eqn:Ex;
    [discriminate|].
  destruct (candidates nc conf_thres classes (r0 :: x')) as [|cands] eqn:Ec;
    [discriminate|].
  destruct cands as [|c0 cands]; [discriminate|].
  cbv zeta in H.
  destruct (select_rows iou_thres merge (c0 :: cands)
              (offset_boxes agnostic (c0 :: cands)) (map d_conf (c0 :: cands))
              (kept_indices iou_thres (offset_boxes agnostic (c0 :: cands))
                            (map d_conf (c0 :: cands))))
    as [rows'|] eqn:Es; [|discriminate].
  injection H as <-. exists (c0 :: cands).
  split; [reflexivity|]. split; [discriminate | exact Es].
Qed.

Lemma nms_loop_ext_classes (late : nat -> bool) (nc : nat) (conf_thres iou_thres : Q)
      (merge : bool) (agnostic : bool) (images : list (list pred)) (xi0 : nat) :
  nms_loop late nc conf_thres iou_thres merge (Some []) agnostic xi0 images =
  nms_loop late nc conf_thres iou_thres merge None agnostic xi0 images.
Proof.
  revert xi0. induction images as [|x images IH]; intro xi0; cbn [nms_loop];
    [reflexivity|].
  assert (E : nms_image nc conf_thres iou_thres merge (Some []) agnostic x =
              nms_image nc conf_thres iou_thres merge None agnostic x) by reflexivity.
  rewrite E, IH. reflexivity.
Qed.

(** X17. With a non-empty list [classes] every detection that
    [non_max_suppression] returns has one of the listed classes, in the
    multi-label and in the best-class branch, with or without merging.  An
    empty list filters nothing: the result is that of [classes=None]. *)
Theorem nms_class_filter
        (late : nat -> bool) (p : prediction) (conf_thres iou_thres : Q)
        (merge : bool) (c0 : Z) (cs : list Z) (agnostic : bool)
        (outs : list (option (list detection))) :
  non_max_suppression late p conf_thres iou_thres merge (Some (c0 :: cs)) agnostic
  = Returned outs ->
  (forall xi rows d,
      nth_error outs xi = Some (Some rows) -> In d rows -> class_in (c0 :: cs) d) /\
  non_max_suppression late p conf_thres iou_thres merge (Some []) agnostic =
  non_max_suppression late p conf_thres iou_thres merge None agnostic.
Proof.
  unfold non_max_suppression. intro H. split.
  - intros xi rows d Hxi Hd.
    destruct (pr_images p) as [|x0 images] eqn:Ep; [discriminate|].
    destruct (nms_loop_rows _ _ _ _ _ _ _ _ _ _ H xi rows Hxi) as [x [_ Hi]].
    destruct (nms_image_cands _ _ _ _ _ _ _ _ Hi) as [cands [Hc [_ Hs]]].
    destruct (select_rows_row _ _ _ _ _ _ _ _ Hs Hd) as [c [Hin [_ Hcls]]].
    pose proof (candidates_allowed _ _ _ _ _ _ Hc c Hin) as Ha.
    unfold class_allowed in Ha. apply existsb_exists in Ha.
    destruct Ha as [k [Hk Hq]]. apply Qeq_bool_iff in Hq.
    exists k. split; [exact Hk|]. rewrite Hcls. exact Hq.
  - destruct (pr_images p); [reflexivity|]. apply nms_loop_ext_classes.
Qed.

Lemma nms_class_filter_witness :
  class_in [1%Z] ex_cls1_first.
Proof.
  exact (proj1 (nms_class_filter ex_never_late ex_prediction_2cls (1 # 10) (1 # 2)
                                 false 1%Z [] false ex_cls1_outs eq_refl)
               0%nat ex_cls1_rows ex_cls1_first eq_refl (or_introl eq_refl)).
Defined.

(** ** Non-maximum suppression: the order of the returned rows *)

Lemma StronglySorted_app_remove {A : Type} (R : A -> A -> Prop) (l1 l2 : list A) (x : A) :
  StronglySorted R (l1 ++ x :: l2) -> StronglySorted R (l1 ++ l2).
Proof.
  induction l1 as [|a l1 IH]; cbn; intro H.
  - inversion H; assumption.
  - inversion H as [|? ? Hs Hall]; subst. constructor; [apply IH; exact Hs|].
    apply Forall_app in Hall. destruct Hall as [H1 H2].
    apply Forall_app. split; [exact H1|]. inversion H2; assumption.
Qed.

Lemma nms_greedy_keeps_order {R : nat * (box * Q) -> nat * (box * Q) -> Prop}
      (thr : Q) (order kept : list (nat * (box * Q))) :
  StronglySorted R (rev kept ++ order) -> StronglySorted R (nms_greedy thr order kept).
Proof.
  revert kept. induction order as [|e order IH]; intros kept H; cbn [nms_greedy].
  - rewrite app_nil_r in H. exact H.
  - destruct (existsb (fun k => suppresses thr k e) kept).
    + apply IH. eapply StronglySorted_app_remove. exact H.
    + apply IH. cbn [rev]. rewrite <- app_assoc. exact H.
Qed.

Lemma nms_entries_sorted (boxes : list box) (scores : list Q) (thr : Q) :
  StronglySorted not_below (nms_entries boxes scores thr).
Proof.
  unfold nms_entries. apply nms_greedy_keeps_order. cbn [rev app].
  apply sort_desc_sorted.
Qed.

Lemma In_firstn {A : Type} (n : nat) (l : list A) (x : A) :
  In x (firstn n l) -> In x l.
Proof.
  revert n. induction l as [|a l IH]; intros n H; destruct n; cbn in H;
    try contradiction.
  destruct H as [H | H]; [left; exact H | right; eapply IH; exact H].
Qed.

Lemma StronglySorted_firstn {A : Type} (R : A -> A -> Prop) (n : nat) (l : list A) :
  StronglySorted R l -> StronglySorted R (firstn n l).
Proof.
  revert n. induction l as [|a l IH]; intros n H; destruct n; cbn; try constructor.
  - apply IH. inversion H; assumption.
  - inversion H as [|? ? _ Hall]; subst.
    apply Forall_forall. intros y Hy. rewrite Forall_forall in Hall.
    apply Hall. eapply In_firstn. exact Hy.
Qed.

Lemma StronglySorted_filter {A : Type} (R : A -> A -> Prop) (f : A -> bool) (l : list A) :
  StronglySorted R l -> StronglySorted R (filter f l).
Proof.
  induction 1 as [|a l Hs IH Hall]; cbn; [constructor|].
  destruct (f a); [|exact IH]. constructor; [exact IH|].
  apply Forall_forall. intros y Hy. apply filter_In in Hy.
  rewrite Forall_forall in Hall. apply Hall. exact (proj1 Hy).
Qed.

Lemma Forall2_In_r {A B : Type} (P : A -> B -> Prop) (l : list A) (l' : list B) (y : B) :
  Forall2 P l l' -> In y l' -> exists x, In x l /\ P x y.
Proof.
  induction 1 as [|a b l l' Hab _ IH]; intro Hy; [destruct Hy|].
  destruct Hy as [<- | Hy].
  - exists a. split; [left; reflexivity | exact Hab].
  - destruct (IH Hy) as [x [Hx Hp]]. exists x. split; [right; exact Hx | exact Hp].
Qed.

Lemma StronglySorted_transfer {A B : Type} (RA : A -> A -> Prop) (RB : B -> B -> Prop)
      (P : A -> B -> Prop) (l : list A) (l' : list B) :
  (forall a a' b b', P a b -> P a' b' -> RA a a' -> RB b b') ->
  Forall2 P l l' -> StronglySorted RA l -> StronglySorted RB l'.
Proof.
  intros Hrel H. induction H as [|a b l l' Hab Hrest IH]; intro Hs; [constructor|].
  inversion Hs as [|? ? Hs' Hall]; subst. constructor; [apply IH; exact Hs'|].
  apply Forall_forall. intros y Hy.
  destruct (Forall2_In_r _ _ _ _ Hrest Hy) as [x [Hx Hp]].
  rewrite Forall_forall in Hall. exact (Hrel _ _ _ _ Hab Hp (Hall x Hx)).
Qed.

Lemma mapM_Forall2 {A B C : Type} (f : A -> option B) (g : C -> A)
      (P : C -> B -> Prop) (l : list C) (ys : list B) :
  (forall c y, In c l -> f (g c) = Some y -> P c y) ->
  mapM f (map g l) = Some ys -> Forall2 P l ys.
Proof.
  revert ys. induction l as [|c l IH]; intros ys Hp H; cbn in H.
  - injection H as <-. constructor.
  - destruct (f (g c)) as [y|] eqn:Ef; [|discriminate].
    destruct (mapM f (map g l)) as [ys0|] eqn:El; [|discriminate].
    injection H as <-. constructor.
    + apply Hp; [left; reflexivity | exact Ef].
    + apply IH; [|reflexivity]. intros c' y' Hc'. apply Hp. right. exact Hc'.
Qed.

Lemma nth_error_combine_inv {A B : Type} (l : list A) (l' : list B) (k : nat) (a : A) (b : B) :
  nth_error (combine l l') k = Some (a, b) ->
  nth_error l k = Some a /\ nth_error l' k = Some b.
Proof.
  revert l' k. induction l as [|x l IH]; intros l' k H.
  - destruct k; discriminate.
  - destruct l' as [|y l']; [destruct k; discriminate|].
    destruct k as [|k]; cbn in H |- *.
    + injection H as -> ->. split; reflexivity.
    + apply IH. exact H.
Qed.

(** The score of a kept entry is the confidence of the candidate row its
    index selects. *)
Lemma entry_row_conf (x : list cand6) (boxes : list box) (e : nat * (box * Q)) :
  In e (enumerate (combine boxes (map d_conf x))) ->
  exists c, nth_error x (fst e) = Some c /\ d_conf c = entry_score e.
Proof.
  destruct e as [k [b s]]. intro H. unfold enumerate in H.
  apply enumerate_from_nth in H. destruct H as [_ H]. rewrite Nat.sub_0_r in H.
  apply nth_error_combine_inv in H. destruct H as [_ H].
  apply nth_error_map_some in H. destruct H as [c [Hc ->]].
  exists c. split; [exact Hc | reflexivity].
Qed.

(** The kept indices are the first components of a sorted list of entries
    of the input. *)
Lemma kept_indices_entries (thr : Q) (boxes : list box) (scores : list Q) :
  exists es,
    kept_indices thr boxes scores = map fst es /\
    StronglySorted not_below es /\
    (forall e, In e es -> In e (enumerate (combine boxes scores))) /\
    (combine boxes scores <> [] -> es <> []).
Proof.
  unfold kept_indices, nms. cbv zeta.
  pose proof (nms_entries_sorted boxes scores thr) as Hs.
  destruct (nms_entries_spec boxes scores thr) as [Hin [_ [_ Hhd]]].
  assert (Hne : combine boxes scores <> [] -> nms_entries boxes scores thr <> []).
  { intros Hc E. destruct (combine boxes scores) as [|bs l] eqn:Ec; [contradiction|].
    destruct (Hhd (0%nat, bs) (or_introl eq_refl)) as [e0 [He0 _]].
    rewrite E in He0. discriminate. }
  destruct (Nat.ltb max_det (length (map fst (nms_entries boxes scores thr)))).
  - exists (firstn max_det (nms_entries boxes scores thr)).
    split; [apply firstn_map|]. split; [apply StronglySorted_firstn; exact Hs|]. split.
    + intros e He. apply Hin. eapply In_firstn. exact He.
    + intros Hc E. specialize (Hne Hc).
      destruct (nms_entries boxes scores thr); [contradiction | discriminate].
  - exists (nms_entries boxes scores thr). repeat split; assumption.
Qed.

Lemma sorted_map_snd (l : list (nat * detection)) :
  StronglySorted (fun r1 r2 => conf_not_below (snd r1) (snd r2)) l ->
  StronglySorted conf_not_below (map snd l).
Proof.
  induction 1 as [|r l _ IH Hall]; cbn; constructor; [exact IH|].
  apply Forall_forall. intros d Hd. apply in_map_iff in Hd.
  destruct Hd as [r' [<- Hr']]. rewrite Forall_forall in Hall. apply Hall. exact Hr'.
Qed.

Lemma select_rows_sorted (thr : Q) (merge : bool) (x : list cand6) (boxes : list box)
      (rows : list detection) :
  select_rows thr merge x boxes (map d_conf x)
              (kept_indices thr boxes (map d_conf x)) = Some rows ->
  StronglySorted conf_not_below rows.
Proof.
  destruct (kept_indices_entries thr boxes (map d_conf x)) as [es [-> [Hs [Hin _]]]].
  assert (Hplain : mapM (fun k => option_map detection_of (nth_error x k)) (map fst es)
                   = Some rows -> StronglySorted conf_not_below rows).
  { intro H.
    apply (StronglySorted_transfer not_below conf_not_below
             (fun e d => o_conf d = entry_score e) es rows); [| |exact Hs].
    - unfold not_below, conf_not_below. intros a a' b b' -> ->. exact (fun H => H).
    - eapply mapM_Forall2; [|exact H]. intros e d He Hd.
      destruct (entry_row_conf x boxes e (Hin e He)) as [c [Hc <-]].
      cbn in Hd. rewrite Hc in Hd. cbn in Hd. injection Hd as <-. reflexivity. }
  unfold select_rows. cbv zeta.
  destruct (merge && (Nat.ltb 1 (length x) && Nat.ltb (length x) 3000)); [|exact Hplain].
  unfold merge_nms.
  destruct (mapM (merge_row thr x boxes (map d_conf x)) (map fst es)) as [rows0|] eqn:E;
    [|exact Hplain].
  intro H. injection H as <-.
  assert (H0 : StronglySorted (fun r1 r2 => conf_not_below (snd r1) (snd r2)) rows0).
  { apply (StronglySorted_transfer not_below _
             (fun e r => o_conf (snd r) = entry_score e) es rows0); [| |exact Hs].
    - unfold not_below, conf_not_below. intros a a' b b' -> ->. exact (fun H => H).
    - eapply mapM_Forall2; [|exact E]. intros e r He Hr.
      destruct (entry_row_conf x boxes e (Hin e He)) as [c [Hc <-]].
      cbn beta in Hr. unfold merge_row in Hr.
      destruct (nth_error boxes (fst e)) as [b|]; [|discriminate].
      rewrite Hc in Hr.
      destruct (merged_box (merge_weights thr b boxes (map d_conf x)) x)
        as [[[m0 m1] m2] m3].
      injection Hr as <-. reflexivity. }
  apply sorted_map_snd. apply StronglySorted_filter. exact H0.
Qed.

Lemma select_rows_plain_nonempty (thr : Q) (x : list cand6) (boxes : list box)
      (rows : list detection) :
  x <> [] -> length boxes = length x ->
  select_rows thr false x boxes (map d_conf x)
              (kept_indices thr boxes (map d_conf x)) = Some rows ->
  rows <> [] /\ forall d, In d rows -> exists c, In c x /\ d = detection_of c.
Proof.
  intros Hx Hlen. unfold select_rows. cbv zeta. cbn [andb]. intro H. split.
  - destruct (kept_indices_entries thr boxes (map d_conf x)) as [es [E [_ [_ Hne]]]].
    rewrite E in H. apply mapM_length in H. rewrite length_map in H.
    assert (Hc : combine boxes (map d_conf x) <> []).
    { destruct x as [|c x']; [contradiction|]. destruct boxes; [discriminate|].
      discriminate. }
    specialize (Hne Hc). intro Er. rewrite Er in H. cbn in H.
    destruct es; [contradiction | discriminate].
  - intros d Hd. eapply gather_row; eassumption.
Qed.

(** X18. The rows [non_max_suppression] returns for an image come in order
    of non-increasing confidence, with or without merging.  Without merging
    an entry that is not [None] is never empty, and each of its rows is a
    candidate row of the image unchanged (corner box, confidence, class). *)
Theorem nms_rows_ordered
        (late : nat -> bool) (p : prediction) (conf_thres iou_thres : Q)
        (merge : bool) (classes : option (list Z)) (agnostic : bool)
        (outs : list (option (list detection))) :
  non_max_suppression late p conf_thres iou_thres merge classes agnostic = Returned outs ->
  forall xi rows,
    nth_error outs xi = Some (Some rows) ->
    StronglySorted conf_not_below rows /\
    (merge = false ->
     rows <> [] /\
     exists x cands,
       nth_error (pr_images p) xi = Some x /\
       candidates (pr_nc p) conf_thres classes
                  (filter (fun r => Qlt_bool conf_thres (p_obj r)) x) = Returned cands /\
       forall d, In d rows -> exists c, In c cands /\ d = detection_of c).
Proof.
  unfold non_max_suppression. intros H xi rows Hxi.
  destruct (pr_images p) as [|x0 images] eqn:Ep; [discriminate|].
  destruct (nms_loop_rows _ _ _ _ _ _ _ _ _ _ H xi rows Hxi) as [x [Hx Hi]].
  destruct (nms_image_cands _ _ _ _ _ _ _ _ Hi) as [cands [Hc [Hne Hs]]].
  split.
  - eapply select_rows_sorted. exact Hs.
  - intros ->.
    assert (Hlen : length (offset_boxes agnostic cands) = length cands)
      by (unfold offset_boxes; apply length_map).
    destruct (select_rows_plain_nonempty _ _ _ _ Hne Hlen Hs) as [Hr Hrows].
    split; [exact Hr|]. exists x, cands. repeat split; assumption.
Qed.

Lemma nms_rows_ordered_witness :
  StronglySorted conf_not_below ex_cls1_rows /\
  (false = false ->
   ex_cls1_rows <> [] /\
   exists x cands,
     nth_error (pr_images ex_prediction_2cls) 0 = Some x /\
     candidates (pr_nc ex_prediction_2cls) (1 # 10) (Some [1%Z])
                (filter (fun r => Qlt_bool (1 # 10) (p_obj r)) x) = Returned cands /\
     forall d, In d ex_cls1_rows -> exists c, In c cands /\ d = detection_of c).
Proof.
  exact (nms_rows_ordered ex_never_late ex_prediction_2cls (1 # 10) (1 # 2)
                          false (Some [1%Z]) false ex_cls1_outs eq_refl
                          0%nat ex_cls1_rows eq_refl).
Defined.

(** ** [compute_ap]: the range of the result *)

Lemma maximum_accumulate_from_unit (l : list Q) (m : Q) :
  unit_interval m -> Forall unit_interval l ->
  Forall unit_interval (maximum_accumulate_from m l).
Proof.
  revert m. induction l as [|a l IH]; intros m Hm Hl; cbn; [constructor|].
  inversion Hl as [|? ? Ha Hl']; subst.
  assert (H : unit_interval (Qmax m a)).
  { destruct Hm, Ha. unfold unit_interval.
    destruct (Q.max_spec m a) as [[_ E]|[_ E]]; lra. }
  constructor; [exact H | apply IH; assumption].
Qed.

Lemma envelope_unit (mpre : list Q) :
  Forall unit_interval mpre -> Forall unit_interval (envelope mpre).
Proof.
  intro H. unfold envelope. apply Forall_rev. apply Forall_rev in H.
  unfold maximum_accumulate. destruct (rev mpre) as [|x l]; [constructor|].
  inversion H; subst. constructor; [assumption|].
  apply maximum_accumulate_from_unit; assumption.
Qed.

(** A linear interpolation between two samples stays between them. *)
Lemma segment_unit (x x0 x1 y0 y1 : Q) :
  x0 <= x -> x < x1 -> unit_interval y0 -> unit_interval y1 ->
  unit_interval ((y1 - y0) / (x1 - x0) * (x - x0) + y0).
Proof.
  intros H0 H1 [A0 A1] [B0 B1]. unfold unit_interval.
  assert (Hd : 0 < x1 - x0) by lra.
  assert (Ht : 0 <= (x - x0) / (x1 - x0) /\ (x - x0) / (x1 - x0) <= 1).
  { split; [apply Qle_shift_div_l; lra | apply Qle_shift_div_r; lra]. }
  assert (E : (y1 - y0) / (x1 - x0) * (x - x0) + y0 ==
              y0 + (x - x0) / (x1 - x0) * (y1 - y0)) by (field; lra).
  rewrite E. set (t := (x - x0) / (x1 - x0)) in *. clearbody t. split; nra.
Qed.

Lemma interp_from_unit (x : Q) (rest : list (Q * Q)) (x0 y0 : Q) :
  x0 <= x -> unit_interval y0 -> Forall (fun p => unit_interval (snd p)) rest ->
  unit_interval (interp_from x x0 y0 rest).
Proof.
  revert x0 y0. induction rest as [|[x1 y1] rest IH]; intros x0 y0 Hx Hy Hall;
    cbn [interp_from]; [exact Hy|].
  inversion Hall as [|? ? H1 Hall']; subst. cbn in H1.
  destruct (Qle_bool x1 x) eqn:E1.
  - apply Qle_bool_iff in E1. apply IH; assumption.
  - destruct (Qeq_bool x0 x); [exact Hy|].
    assert (Hlt : x < x1).
    { apply Qnot_le_lt. intro Hle. apply Qle_bool_iff in Hle. congruence. }
    apply segment_unit; assumption.
Qed.

Lemma interp1_unit (x : Q) (pts : list (Q * Q)) :
  Forall (fun p => unit_interval (snd p)) pts -> unit_interval (interp1 x pts).
Proof.
  intro H. unfold interp1. destruct pts as [|[x0 y0] rest]; [split; lra|].
  inversion H as [|? ? H0 Hrest]; subst. cbn in H0.
  destruct (Qlt_bool x x0) eqn:E; [exact H0|].
  apply Qlt_bool_false_iff in E. apply interp_from_unit; assumption.
Qed.

Lemma combine_snd_Forall {A B : Type} (P : B -> Prop) (l : list A) (l' : list B) :
  Forall P l' -> Forall (fun p => P (snd p)) (combine l l').
Proof.
  intro H. apply Forall_forall. intros [a b] Hab. apply in_combine_r in Hab.
  rewrite Forall_forall in H. apply H. exact Hab.
Qed.

Lemma sorted_head_le_last (x0 : Q) (xs : list Q) :
  Sorted Qle (x0 :: xs) -> x0 <= last xs x0.
Proof.
  revert x0. induction xs as [|x1 xs IH]; intros x0 H; [cbn; lra|].
  inversion H as [|? ? Hs Hd]; subst. inversion Hd; subst.
  specialize (IH x1 Hs). rewrite last_cons_default. lra.
Qed.

(** The trapezoid rule over a grid that does not go backwards, for values
    between 0 and 1: between 0 and the length of the grid. *)
Lemma trapz_unit (x0 : Q) (xs y : list Q) :
  Sorted Qle (x0 :: xs) -> Forall unit_interval y ->
  0 <= trapz y (x0 :: xs) /\ trapz y (x0 :: xs) <= last xs x0 - x0.
Proof.
  revert x0 y. induction xs as [|x1 xs IH]; intros x0 y Hs Hy.
  - destruct y as [|y0 [|y1 y']]; cbn; lra.
  - pose proof (sorted_head_le_last x0 (x1 :: xs) Hs) as Hlast.
    destruct y as [|y0 [|y1 y']]; try (cbn [trapz]; lra).
    change (trapz (y0 :: y1 :: y') (x0 :: x1 :: xs))
      with ((x1 - x0) * (y1 + y0) / 2 + trapz (y1 :: y') (x1 :: xs)).
    inversion Hs as [|? ? Hs' Hd]; subst. inversion Hd; subst.
    inversion Hy as [|? ? [A0 A1] Hy']; subst.
    pose proof Hy' as Hy''. inversion Hy'' as [|? ? [B0 B1] _]; subst.
    destruct (IH x1 (y1 :: y') Hs' Hy') as [I0 I1].
    assert (E : last (x1 :: xs) x0 == last xs x1) by (rewrite last_cons_default; reflexivity).
    rewrite E. unfold Qdiv. change (/ 2) with (1 # 2).
    set (T := trapz (y1 :: y') (x1 :: xs)) in *. clearbody T.
    set (L := last xs x1) in *. clearbody L.
    split; nra.
Qed.

Lemma linspace_sorted (a n : nat) :
  Sorted Qle (map (fun k => inject_Z (Z.of_nat k) / 100) (seq a n)).
Proof.
  revert a. induction n as [|n IH]; intro a; cbn [seq map]; constructor.
  - apply IH.
  - destruct n as [|n]; cbn [seq map]; constructor.
    apply Qmult_le_compat_r; [|discriminate].
    rewrite <- Zle_Qle. lia.
Qed.

(** X19. For a recall curve (values in [0, 1] that never decrease) that is
    not empty and a precision curve of the same length with values in
    [0, 1], [compute_ap] returns an average precision between 0 and 1. *)
Theorem compute_ap_unit_interval (recall precision : list Q) :
  recall <> [] -> length recall = length precision ->
  recall_curve recall -> Forall unit_interval precision ->
  exists ap, compute_ap recall precision = Some ap /\ 0 <= ap /\ ap <= 1.
Proof.
  intros Hne Hlen _ Hp. unfold compute_ap.
  destruct (rev recall) as [|rlast rr] eqn:Er.
  { apply (f_equal (@rev Q)) in Er. rewrite rev_involutive in Er. contradiction. }
  rewrite Hlen, Nat.eqb_refl. cbn [negb]. eexists. split; [reflexivity|].
  set (mrec := [0] ++ recall ++ [Qmin (rlast + (1 # 1000)) 1]).
  set (mpre := envelope ([0] ++ precision ++ [0])).
  assert (Hm : Forall unit_interval mpre).
  { apply envelope_unit. apply Forall_app. split; [repeat constructor; discriminate|].
    apply Forall_app. split; [exact Hp | repeat constructor; discriminate]. }
  assert (Hy : Forall unit_interval (interp linspace101 mrec mpre)).
  { unfold interp. apply Forall_forall. intros v Hv. apply in_map_iff in Hv.
    destruct Hv as [x [<- _]]. apply interp1_unit. apply combine_snd_Forall. exact Hm. }
  pose proof (trapz_unit (inject_Z (Z.of_nat 0) / 100)
                         (map (fun k => inject_Z (Z.of_nat k) / 100) (seq 1 100))
                         (interp linspace101 mrec mpre) (linspace_sorted 0 101) Hy)
    as [T0 T1].
  change (inject_Z (Z.of_nat 0) / 100 ::
          map (fun k => inject_Z (Z.of_nat k) / 100) (seq 1 100))
    with linspace101 in T0, T1.
  assert (El : last (map (fun k => inject_Z (Z.of_nat k) / 100) (seq 1 100))
                    (inject_Z (Z.of_nat 0) / 100) == 1)
    by reflexivity.
  assert (E0 : inject_Z (Z.of_nat 0) / 100 == 0) by reflexivity.
  rewrite El, E0 in T1. split; lra.
Qed.

Lemma compute_ap_unit_interval_witness :
  exists ap, compute_ap ex_recall ex_precision = Some ap /\ 0 <= ap /\ ap <= 1.
Proof.
  apply (compute_ap_unit_interval ex_recall ex_precision).
  - discriminate.
  - reflexivity.
  - split.
    + repeat constructor; discriminate.
    + repeat constructor; discriminate.
  - repeat constructor; discriminate.
Defined.

(** ** [compute_loss] on a batch without ground truth *)



Section LossNoTargets.

Variable sigmoid : Q -> Q.
Variable atan : fl -> fl.
Variable pi : Q.
Variable bce_with_logits : Q -> Q -> fl -> fl.
Variable fpow : fl -> Q -> fl.


End LossNoTargets.



(** ** Class weights *)

Lemma Qsum_map_div (s : Q) (l : list Q) :
  Qsum (map (fun w => w / s) l) == Qsum l / s.
Proof.
  induction l as [|a l IH]; cbn [map Qsum fold_right].
  - unfold Qdiv. ring.
  - fold (Qsum (map (fun w => w / s) l)). fold (Qsum l). rewrite IH.
    unfold Qdiv. ring.
Qed.

Lemma Qsum_pos (l : list Q) : Forall (fun q => 0 < q) l -> l <> [] -> 0 < Qsum l.
Proof.
  intros H Hne. destruct l as [|a l]; [contradiction|].
  inversion H as [|? ? Ha Hl]; subst. clear H Hne.
  revert a Ha. induction Hl as [|b l Hb Hl IH]; intros a Ha; cbn [Qsum fold_right].
  - lra.
  - specialize (IH b Hb). cbn [Qsum fold_right] in IH. lra.
Qed.

Lemma Qofnat_pos (n : nat) : (0 < n)%nat -> 0 < Qofnat n.
Proof. intro H. apply inject_Z_pos. lia. Qed.

Lemma Qofnat_le (a b : nat) : (a <= b)%nat -> Qofnat a <= Qofnat b.
Proof. intro H. unfold Qofnat. rewrite <- Zle_Qle. lia. Qed.

Lemma bincount_nonneg (classes : list Z) (minlength : nat) :
  Forall (fun c => (0 <= c)%Z) classes ->
  bincount classes minlength =
  Some (map (fun k => count_occ Z.eq_dec classes (Z.of_nat k))
            (seq 0 (Nat.max minlength (list_max (map (fun c => S (Z.to_nat c)) classes))))).
Proof.
  intro H. unfold bincount.
  assert (E : existsb (fun c => (c <? 0)%Z) classes = false).
  { apply not_true_is_false. intro Hex. apply existsb_exists in Hex.
    destruct Hex as [c [Hc Hlt]]. rewrite Forall_forall in H. specialize (H c Hc).
    apply Z.ltb_lt in Hlt. lia. }
  rewrite E. reflexivity.
Qed.

Lemma Qtrunc_nonneg_Z (q : Q) : 0 <= q -> (0 <= Qtrunc q)%Z.
Proof. intro H. rewrite (Qtrunc_nonneg q H). apply Qfloor_nonneg. exact H. Qed.

(** The weight of a bin before normalisation. *)
Lemma inverse_count_pos (w : nat) : 0 < 1 / Qofnat (if Nat.eqb w 0 then 1%nat else w).
Proof.
  apply Qlt_shift_div_l; [|lra]. apply Qofnat_pos.
  destruct (Nat.eqb_spec w 0); lia.
Qed.

Lemma inverse_count_antitone (a b : nat) :
  (a <= b)%nat ->
  1 / Qofnat (if Nat.eqb b 0 then 1%nat else b) <=
  1 / Qofnat (if Nat.eqb a 0 then 1%nat else a).
Proof.
  intro H.
  set (a' := if Nat.eqb a 0 then 1%nat else a).
  set (b' := if Nat.eqb b 0 then 1%nat else b).
  assert (Ha : (0 < a')%nat) by (unfold a'; destruct (Nat.eqb_spec a 0); lia).
  assert (Hab : (a' <= b')%nat)
    by (unfold a', b'; destruct (Nat.eqb_spec a 0), (Nat.eqb_spec b 0); lia).
  pose proof (Qofnat_pos a' Ha) as Pa. pose proof (Qofnat_le a' b' Hab) as Pab.
  assert (Pb : 0 < Qofnat b') by lra.
  apply Qle_shift_div_l; [exact Pa|].
  assert (E : 1 / Qofnat b' * Qofnat a' == Qofnat a' / Qofnat b') by (field; lra).
  rewrite E. apply Qle_shift_div_r; lra.
Qed.

(** X21. When every image has a label array and no class is negative,
    [labels_to_class_weights] returns one weight per class, at least [nc]
    of them: the weights are positive, they sum to 1, and they follow the
    inverse frequency, a class with no more labels than another never
    getting the smaller weight (a class without labels counts as having
    one).  With [labels[0] is None] the result is empty, and an empty
    [labels] raises. *)
Theorem class_weights_inverse_frequency
        (labels : list (option (list label))) (arrays : list (list label)) (nc : nat) :
  labels <> [] -> mapM (fun l => l) labels = Some arrays ->
  Forall (fun l => 0 <= lb_cls l) (concat arrays) ->
  labels_to_class_weights [] nc = None /\
  labels_to_class_weights (None :: labels) nc = Some [] /\
  exists w,
    labels_to_class_weights labels nc = Some w /\
    (nc <= length w)%nat /\
    Forall (fun q => 0 < q) w /\
    (w <> [] -> Qsum w == 1) /\
    (forall i j wi wj,
        nth_error w i = Some wi -> nth_error w j = Some wj ->
        (class_count arrays i <= class_count arrays j)%nat -> wj <= wi).
Proof.
  intros Hne Hm Hcls. split; [reflexivity|]. split; [reflexivity|].
  unfold labels_to_class_weights.
  destruct labels as [|[l0|] labels']; [contradiction| |cbn in Hm; discriminate].
  rewrite Hm.
  assert (Hnn : Forall (fun c => (0 <= c)%Z) (label_classes arrays)).
  { unfold label_classes. apply Forall_forall. intros c Hc. apply in_map_iff in Hc.
    destruct Hc as [l [<- Hl]]. apply Qtrunc_nonneg_Z.
    rewrite Forall_forall in Hcls. apply Hcls. exact Hl. }
  rewrite (bincount_nonneg _ nc Hnn). cbv zeta. rewrite !map_map.
  set (n := Nat.max nc (list_max (map (fun c => S (Z.to_nat c)) (label_classes arrays)))).
  set (u := fun k : nat =>
              1 / Qofnat (if Nat.eqb (count_occ Z.eq_dec (label_classes arrays) (Z.of_nat k)) 0
                          then 1%nat
                          else count_occ Z.eq_dec (label_classes arrays) (Z.of_nat k))).
  set (s := Qsum (map u (seq 0 n))).
  assert (Hu : forall k, 0 < u k) by (intro k; apply inverse_count_pos).
  assert (Hpos : Forall (fun q => 0 < q) (map u (seq 0 n))).
  { apply Forall_forall. intros q Hq. apply in_map_iff in Hq.
    destruct Hq as [k [<- _]]. apply Hu. }
  assert (Hs : n <> 0%nat -> 0 < s).
  { intro Hn. apply Qsum_pos; [exact Hpos|].
    destruct n; [contradiction | discriminate]. }
  eexists. split; [reflexivity|].
  split; [rewrite length_map, length_seq; unfold n; lia|].
  split; [|split].
  - apply Forall_forall. intros q Hq. apply in_map_iff in Hq.
    destruct Hq as [k [<- Hk]]. apply Qlt_shift_div_l; [|rewrite Qmult_0_l; apply Hu].
    apply Hs. apply in_seq in Hk. lia.
  - intro Hw.
    assert (Hn : n <> 0%nat) by (intro E; apply Hw; rewrite E; reflexivity).
    rewrite <- (map_map u (fun w => w / s)), Qsum_map_div. fold s.
    field. specialize (Hs Hn). lra.
  - intros i j wi wj Hi Hj Hc.
    apply nth_error_map_some in Hi. destruct Hi as [ki [Hki ->]].
    apply nth_error_map_some in Hj. destruct Hj as [kj [Hkj ->]].
    assert (Hin : (i < n)%nat).
    { assert (H : (i < length (seq 0 n))%nat) by (apply nth_error_Some; congruence).
      rewrite length_seq in H. exact H. }
    assert (Hjn : (j < n)%nat).
    { assert (H : (j < length (seq 0 n))%nat) by (apply nth_error_Some; congruence).
      rewrite length_seq in H. exact H. }
    rewrite nth_error_seq in Hki, Hkj.
    destruct (Nat.ltb_spec i n); [|lia]. destruct (Nat.ltb_spec j n); [|lia].
    injection Hki as <-. injection Hkj as <-. cbn [Nat.add].
    assert (Hsp : 0 < s) by (apply Hs; lia).
    unfold Qdiv. apply Qmult_le_compat_r.
    + apply inverse_count_antitone. exact Hc.
    + apply Qlt_le_weak, Qinv_lt_0_compat, Hsp.
Qed.

Lemma class_weights_inverse_frequency_witness :
  labels_to_class_weights [] 3 = None /\
  labels_to_class_weights (None :: ex_labels) 3 = Some [] /\
  exists w,
    labels_to_class_weights ex_labels 3 = Some w /\
    (3 <= length w)%nat /\
    Forall (fun q => 0 < q) w /\
    (w <> [] -> Qsum w == 1) /\
    (forall i j wi wj,
        nth_error w i = Some wi -> nth_error w j = Some wj ->
        (class_count ex_label_arrays i <= class_count ex_label_arrays j)%nat -> wj <= wi).
Proof.
  apply (class_weights_inverse_frequency ex_labels ex_label_arrays 3).
  - discriminate.
  - reflexivity.
  - repeat constructor; discriminate.
Defined.

(** ** [check_anchor_order] *)

Lemma Qsign_pos (q : Q) : 0 < q -> Qsign q = 1%Z.
Proof.
  intro H. unfold Qsign. apply Z.sgn_pos.
  unfold Qlt in H. cbn in H. lia.
Qed.

Lemma Qsign_neg (q : Q) : q < 0 -> Qsign q = (- 1)%Z.
Proof.
  intro H. unfold Qsign. apply Z.sgn_neg.
  unfold Qlt in H. cbn in H. lia.
Qed.

Lemma rev_concat {A : Type} (l : list (list A)) :
  rev (concat l) = concat (map (@rev A) (rev l)).
Proof.
  induction l as [|x l IH]; cbn; [reflexivity|].
  rewrite rev_app_distr, IH, map_app, concat_app. cbn. rewrite app_nil_r. reflexivity.
Qed.

(** The first area belongs to the first layer, the last area to the last. *)
Lemma anchor_areas_ends (grid : list (list (Q * Q))) (F L : list (Q * Q)) :
  hd_error grid = Some F -> hd_error (rev grid) = Some L -> F <> [] -> L <> [] ->
  exists f l a_rest r_rest,
    In f F /\ In l L /\
    anchor_areas grid = anchor_area f :: a_rest /\
    rev (anchor_areas grid) = anchor_area l :: r_rest.
Proof.
  intros HF HL HFne HLne. unfold anchor_areas.
  destruct grid as [|G rest]; [discriminate|]. cbn in HF. injection HF as HF. subst G.
  destruct F as [|f F0]; [contradiction|].
  rewrite <- map_rev, rev_concat.
  destruct (rev ((f :: F0) :: rest)) as [|G rest']; [discriminate|].
  cbn in HL. injection HL as HL. subst G.
  destruct (rev L) as [|l L0] eqn:El.
  { apply (f_equal (@rev (Q * Q))) in El. rewrite rev_involutive in El.
    cbn in El. contradiction. }
  exists f, l. do 2 eexists. split; [left; reflexivity|]. split.
  - apply in_rev. rewrite El. left. reflexivity.
  - split; cbn [map concat app]; [reflexivity|]. rewrite El. reflexivity.
Qed.

Lemma stride_ends (stride : list Q) (s0 slast : Q) :
  hd_error stride = Some s0 -> hd_error (rev stride) = Some slast ->
  exists s_rest r_rest, stride = s0 :: s_rest /\ rev stride = slast :: r_rest.
Proof.
  intros H0 H1. destruct stride as [|s stride]; [discriminate|].
  cbn in H0. injection H0 as ->.
  destruct (rev (s0 :: stride)) as [|r rs]; [discriminate|].
  cbn in H1. injection H1 as ->. do 2 eexists. split; reflexivity.
Qed.

(** One call on a head whose end layers are separated by area. *)
Lemma check_anchor_order_step (m : DetectHead) (F L : list (Q * Q)) (s0 slast : Q)
      (up : bool) :
  hd_error (dh_anchor_grid m) = Some F -> hd_error (rev (dh_anchor_grid m)) = Some L ->
  F <> [] -> L <> [] ->
  (if up then layer_below F L else layer_below L F) ->
  hd_error (dh_stride m) = Some s0 -> hd_error (rev (dh_stride m)) = Some slast ->
  ~ s0 == slast ->
  check_anchor_order m =
  if Bool.eqb up (Qlt_bool s0 slast) then Some (m, false)
  else Some ({| dh_anchors := rev (dh_anchors m);
                dh_anchor_grid := rev (dh_anchor_grid m);
                dh_stride := dh_stride m |}, true).
Proof.
  intros HF HL HFne HLne Hsep Hs0 Hs1 Hds.
  destruct (anchor_areas_ends _ _ _ HF HL HFne HLne)
    as [f [l [a_rest [r_rest [Hf [Hl [Ea Er]]]]]]].
  destruct (stride_ends _ _ _ Hs0 Hs1) as [s_rest [sr_rest [Es Esr]]].
  unfold check_anchor_order. cbv zeta.
  rewrite Ea in Er. rewrite Es in Esr. rewrite Ea, Er, Es, Esr.
  assert (Hsd : Qsign (slast - s0) = if Qlt_bool s0 slast then 1%Z else (- 1)%Z).
  { destruct (Qlt_bool s0 slast) eqn:E.
    - apply Qlt_bool_iff in E. apply Qsign_pos. lra.
    - apply Qlt_bool_false_iff in E. apply Qsign_neg.
      destruct (Qle_lt_or_eq _ _ E) as [Hlt | Heq]; [lra|].
      exfalso. apply Hds. symmetry. exact Heq. }
  assert (Had : Qsign (anchor_area l - anchor_area f) = if up then 1%Z else (- 1)%Z).
  { destruct up.
    - apply Qsign_pos. specialize (Hsep f l Hf Hl). lra.
    - apply Qsign_neg. specialize (Hsep l f Hl Hf). lra. }
  rewrite Hsd, Had. destruct up, (Qlt_bool s0 slast); reflexivity.
Qed.

(** X22. [check_anchor_order] settles in one call when the first and the
    last layer are separated by anchor area (every anchor of one is smaller
    than every anchor of the other) and the first and last stride differ:
    the stride is never touched, [anchors] and [anchor_grid] are reversed
    together or not at all, and a second call finds the order right and
    changes nothing.  Without the separation a call need not settle: there
    is a head that two calls take back to where it started. *)
Theorem check_anchor_order_settles (m : DetectHead) (F L : list (Q * Q)) (s0 slast : Q) :
  hd_error (dh_anchor_grid m) = Some F -> hd_error (rev (dh_anchor_grid m)) = Some L ->
  F <> [] -> L <> [] ->
  layer_below F L \/ layer_below L F ->
  hd_error (dh_stride m) = Some s0 -> hd_error (rev (dh_stride m)) = Some slast ->
  ~ s0 == slast ->
  (exists m' reversed,
      check_anchor_order m = Some (m', reversed) /\
      dh_stride m' = dh_stride m /\
      (reversed = true ->
       dh_anchors m' = rev (dh_anchors m) /\
       dh_anchor_grid m' = rev (dh_anchor_grid m)) /\
      (reversed = false -> m' = m) /\
      check_anchor_order m' = Some (m', false)) /\
  (exists m1,
      check_anchor_order ex_head_mixed = Some (m1, true) /\
      check_anchor_order m1 = Some (ex_head_mixed, true)).
Proof.
  intros HF HL HFne HLne Hsep Hs0 Hs1 Hds. split.
  - assert (Hup : exists up : bool, if up then layer_below F L else layer_below L F).
    { destruct Hsep as [H | H]; [exists true | exists false]; exact H. }
    destruct Hup as [up Hup].
    pose proof (check_anchor_order_step m F L s0 slast up HF HL HFne HLne Hup Hs0 Hs1 Hds)
      as Hstep.
    destruct (Bool.eqb up (Qlt_bool s0 slast)) eqn:E.
    + exists m, false. split; [exact Hstep|]. split; [reflexivity|].
      split; [discriminate|]. split; [reflexivity | exact Hstep].
    + eexists. exists true. split; [exact Hstep|]. cbn [dh_stride dh_anchors dh_anchor_grid].
      split; [reflexivity|]. split; [split; reflexivity|]. split; [discriminate|].
      rewrite (check_anchor_order_step _ L F s0 slast (negb up)); cbn [dh_anchor_grid dh_stride].
      * destruct up, (Qlt_bool s0 slast); cbn in E |- *; try discriminate; reflexivity.
      * exact HL.
      * rewrite rev_involutive. exact HF.
      * exact HLne.
      * exact HFne.
      * destruct up; exact Hup.
      * exact Hs0.
      * exact Hs1.
      * exact Hds.
  - eexists. split; vm_compute; reflexivity.
Qed.

Lemma check_anchor_order_settles_witness :
  (exists m' reversed,
      check_anchor_order ex_head = Some (m', reversed) /\
      dh_stride m' = dh_stride ex_head /\
      (reversed = true ->
       dh_anchors m' = rev (dh_anchors ex_head) /\
       dh_anchor_grid m' = rev (dh_anchor_grid ex_head)) /\
      (reversed = false -> m' = ex_head) /\
      check_anchor_order m' = Some (m', false)) /\
  (exists m1,
      check_anchor_order ex_head_mixed = Some (m1, true) /\
      check_anchor_order m1 = Some (ex_head_mixed, true)).
Proof.
  apply (check_anchor_order_settles ex_head [(64, 64); (80, 96)] [(8, 8); (16, 16)] 8 16);
    try reflexivity; try discriminate.
  right. unfold layer_below, anchor_area. intros f l Hf Hl. cbn in Hf, Hl.
  destruct Hf as [<- | [<- | []]]; destruct Hl as [<- | [<- | []]]; reflexivity.
Defined.

(** ** [compute_loss] on a well-formed batch: no exception *)

Lemma mapM_some {A B : Type} (f : A -> option B) (l : list A) :
  (forall x, In x l -> f x <> None) -> exists ys, mapM f l = Some ys.
Proof.
  induction l as [|x l IH]; intro H; cbn; [eexists; reflexivity|].
  destruct (f x) as [y|] eqn:Ef; [|exfalso; apply (H x (or_introl eq_refl)); exact Ef].
  destruct IH as [ys Hys]; [intros x' Hx'; apply H; right; exact Hx'|].
  rewrite Hys. eexists. reflexivity.
Qed.

Lemma tensor_index_nat {A : Type} (l : list A) (k : nat) :
  tensor_index l (Z.of_nat k) = nth_error l k.
Proof.
  unfold tensor_index. destruct (Z.leb_spec 0 (Z.of_nat k)); [|lia].
  rewrite Nat2Z.id. reflexivity.
Qed.

Lemma assemble_some (anchors_i : list (Q * Q)) (t : list (cand * (Q * Q))) :
  (forall r, In r t -> tensor_index anchors_i (Qtrunc (k_a (fst r))) <> None) ->
  exists lt, assemble anchors_i t = Some lt.
Proof.
  intro H. unfold assemble.
  destruct (mapM_some (fun r => tensor_index anchors_i (Qtrunc (k_a (fst r)))) t H)
    as [an ->].
  eexists. reflexivity.
Qed.

Lemma build_targets_layer_some (anchor_t : Q) (anchors_i : list (Q * Q))
      (shape : list nat) (n : nat) (targets : list target) :
  (4 <= length shape)%nat -> (targets = [] -> (0 < n)%nat) ->
  exists lt, build_targets_layer anchor_t anchors_i shape (length targets)
                                 (repeat_targets n targets) = Some lt.
Proof.
  intros Hs Hn. destruct targets as [|t0 targets'].
  - exists no_assignment. apply build_targets_layer_no_targets; [apply Hn; reflexivity | exact Hs].
  - unfold build_targets_layer.
    destruct shape as [|s0 [|s1 [|s2 [|s3 shape']]]]; cbn in Hs; try lia.
    cbn [nth_error length Nat.eqb negb].
    apply assemble_some. intros r Hr. apply expand_In in Hr.
    apply shape_filter_sound in Hr. destruct Hr as [k [anchor [Hk [Hka _]]]].
    rewrite Hka, Qtrunc_of_nat_mul_1, tensor_index_nat, Hk. discriminate.
Qed.

Lemma build_targets_some (p : list (list nat)) (targets : list target) (det : Detect)
      (anchor_t : Q) :
  length (anchors det) = nl det -> (nl det <= length p)%nat ->
  Forall (fun shape => (4 <= length shape)%nat) p ->
  (targets = [] -> (0 < na det)%nat) ->
  exists outs, build_targets p targets det anchor_t = Some outs.
Proof.
  intros Hlen Hnl Hp Hna. unfold build_targets. apply mapM_some.
  intros i Hi. apply in_seq in Hi.
  destruct (nth_error (anchors det) i) as [anchors_i|] eqn:Ea;
    [|apply nth_error_None in Ea; lia].
  destruct (nth_error p i) as [shape|] eqn:Es;
    [|apply nth_error_None in Es; lia].
  destruct (build_targets_layer_some anchor_t anchors_i shape (na det) targets) as [lt ->];
    [|exact Hna|discriminate].
  rewrite Forall_forall in Hp. apply Hp. eapply nth_error_In. exact Es.
Qed.

Lemma combine_map_same {A B C : Type} (f : A -> B) (g : A -> C) (l : list A) :
  combine (map f l) (map g l) = map (fun x => (f x, g x)) l.
Proof. induction l as [|x l IH]; cbn; [reflexivity | f_equal; exact IH]. Qed.

(** The slots and the classes of a layer, row by row. *)
Lemma assemble_slots (anchors_i : list (Q * Q)) (t : list (cand * (Q * Q)))
      (lt : layer_targets) :
  assemble anchors_i t = Some lt ->
  slots lt = map (fun r => (Qtrunc (k_img (fst r)), Qtrunc (k_a (fst r)),
                            snd (gij r), fst (gij r))) t /\
  tcls lt = map (fun r => Qtrunc (k_cls (fst r))) t.
Proof.
  unfold assemble. destruct (mapM _ t) as [an|]; [|discriminate].
  intro H. injection H as <-. unfold slots. cbn [idx_b idx_a idx_gj idx_gi tcls].
  rewrite !combine_map_same, map_map. split; reflexivity.
Qed.

Lemma Qtrunc_range (q : Q) (n : nat) :
  0 <= q -> q < Qofnat n -> (0 <= Qtrunc q < Z.of_nat n)%Z.
Proof.
  intros H0 H1. rewrite (Qtrunc_nonneg q H0). split; [apply Qfloor_nonneg, H0|].
  apply inject_Z_lt_inv. pose proof (Qfloor_le q). unfold Qofnat in H1. lra.
Qed.

(** Every row of a layer addresses a cell of the batch and names a class. *)
Lemma layer_rows_in_range (anchor_t : Q) (anchors_i : list (Q * Q)) (shape : list nat)
      (n ny nx bs nc : nat) (targets : list target) (lt : layer_targets) :
  length anchors_i = n ->
  nth_error shape 2 = Some ny -> nth_error shape 3 = Some nx ->
  (0 < ny)%nat -> (0 < nx)%nat ->
  Forall (target_in_batch bs nc) targets ->
  build_targets_layer anchor_t anchors_i shape (length targets)
                      (repeat_targets n targets) = Some lt ->
  Forall (fun s => let '(b, a, gj, gi) := s in
                   (0 <= b < Z.of_nat bs)%Z /\ (0 <= a < Z.of_nat n)%Z /\
                   (0 <= gj < Z.of_nat ny)%Z /\ (0 <= gi < Z.of_nat nx)%Z) (slots lt) /\
  Forall (fun c => (0 <= c < Z.of_nat nc)%Z) (tcls lt).
Proof.
  intros Hn Hy Hx Hny Hnx Hin Hl.
  destruct targets as [|t0 targets'] eqn:Et.
  { apply build_targets_layer_empty in Hl. subst lt. split; constructor. }
  rewrite <- Et in *.
  assert (Hne : targets <> []) by (rewrite Et; discriminate).
  pose proof (build_targets_layer_expand _ _ _ _ _ _ _ _ Hne Hy Hx Hl) as Hasm.
  destruct (assemble_slots _ _ _ Hasm) as [-> ->].
  rewrite Forall_forall in Hin.
  assert (Hrow : forall r,
             In r (expand (Qofnat nx) (Qofnat ny)
                     (shape_filter anchor_t anchors_i
                        (map (map (fun r0 => cand_mul r0 (gain_of (Qofnat nx) (Qofnat ny))))
                             (repeat_targets n targets)))) ->
             ((0 <= Qtrunc (k_img (fst r)) < Z.of_nat bs)%Z /\
              (0 <= Qtrunc (k_a (fst r)) < Z.of_nat n)%Z /\
              (0 <= snd (gij r) < Z.of_nat ny)%Z /\
              (0 <= fst (gij r) < Z.of_nat nx)%Z) /\
             (0 <= Qtrunc (k_cls (fst r)) < Z.of_nat nc)%Z).
  { intros r Hr. pose proof (expand_In _ _ _ _ Hr) as Hsrc.
    pose proof (shape_filter_sound _ _ _ _ _ _ Hsrc) as [k [anchor [Hk [Hka _]]]].
    apply shape_filter_source in Hsrc. destruct Hsrc as [k' [t [Ht Ec]]].
    destruct (Hin t Ht) as [[[X0 X1] [Y0 Y1]] [[B0 B1] [C0 C1]]].
    assert (Hnxq : 0 < Qofnat nx) by (apply inject_Z_pos; lia).
    assert (Hnyq : 0 < Qofnat ny) by (apply inject_Z_pos; lia).
    assert (Gx : 0 <= k_x (fst r) /\ k_x (fst r) < Qofnat nx) by (rewrite Ec; cbn; split; nra).
    assert (Gy : 0 <= k_y (fst r) /\ k_y (fst r) < Qofnat ny) by (rewrite Ec; cbn; split; nra).
    destruct (expand_row_cell nx ny _ r Hr (proj1 Gx) (proj1 Gy)) as [[_ Bx] [_ By]].
    assert (Eb : Qtrunc (k_img (fst r)) = Qtrunc (t_img t))
      by (apply Qtrunc_comp; rewrite Ec; cbn; ring).
    assert (Ecl : Qtrunc (k_cls (fst r)) = Qtrunc (t_cls t))
      by (apply Qtrunc_comp; rewrite Ec; cbn; ring).
    rewrite Eb, Ecl, Hka, Qtrunc_of_nat_mul_1.
    assert (Hkn : (k < n)%nat) by (rewrite <- Hn; apply nth_error_Some; congruence).
    split; [split; [apply Qtrunc_range; assumption|]|apply Qtrunc_range; assumption].
    split; [lia|]. split; [apply By, Gy | apply Bx, Gx]. }
  split; apply Forall_forall; intros v Hv; apply in_map_iff in Hv;
    destruct Hv as [r [<- Hr]]; apply Hrow; exact Hr.
Qed.

Lemma tensor_locate_some {A : Type} (l : list A) (i : Z) :
  (0 <= i < Z.of_nat (length l))%Z ->
  exists a, tensor_locate l i = Some (Z.to_nat i, a) /\ In a l.
Proof.
  intro H. unfold tensor_locate. destruct (Z.leb_spec 0 i); [|lia].
  destruct (nth_error l (Z.to_nat i)) as [a|] eqn:E.
  - exists a. split; [reflexivity | eapply nth_error_In; exact E].
  - apply nth_error_None in E. lia.
Qed.

Lemma locate_rectangular (bs na ny nx no : nat) (t : tensor5) (b a gj gi : Z) :
  rectangular bs na ny nx no t ->
  (0 <= b < Z.of_nat bs)%Z -> (0 <= a < Z.of_nat na)%Z ->
  (0 <= gj < Z.of_nat ny)%Z -> (0 <= gi < Z.of_nat nx)%Z ->
  exists cell row, locate t (b, a, gj, gi) = Some (cell, row) /\ length row = no.
Proof.
  intros [Hbs Hall] Hb Ha Hj Hi. unfold locate.
  destruct (tensor_locate_some t b) as [img [-> Himg]]; [lia|].
  rewrite Forall_forall in Hall. destruct (Hall img Himg) as [Hna Hall1].
  destruct (tensor_locate_some img a) as [anc [-> Hanc]]; [lia|].
  rewrite Forall_forall in Hall1. destruct (Hall1 anc Hanc) as [Hny Hall2].
  destruct (tensor_locate_some anc gj) as [row [-> Hrow]]; [lia|].
  rewrite Forall_forall in Hall2. destruct (Hall2 row Hrow) as [Hnx Hall3].
  destruct (tensor_locate_some row gi) as [cell [-> Hcell]]; [lia|].
  cbn [option_map fst snd]. do 2 eexists. split; [reflexivity|].
  rewrite Forall_forall in Hall3. apply Hall3. exact Hcell.
Qed.

Lemma shape_of_rectangular (bs na ny nx no : nat) (t : tensor5) :
  rectangular bs na ny nx no t -> (0 < bs)%nat -> (0 < na)%nat -> (0 < ny)%nat ->
  nth_error (shape_of t) 2 = Some ny /\ nth_error (shape_of t) 3 = Some nx.
Proof.
  intros [Hbs Hall] Hb Ha Hy. unfold shape_of. cbv zeta. cbn [nth_error].
  destruct t as [|img t']; [cbn in Hbs; lia|]. cbn [nth].
  inversion Hall as [|? ? [Hna Hall1] _]; subst.
  destruct img as [|anc img']; [cbn in Ha; lia|]. cbn [nth].
  inversion Hall1 as [|? ? [Hny Hall2] _]; subst.
  split; [reflexivity|].
  destruct anc as [|row anc']; [cbn in Hy; lia|]. cbn [nth].
  inversion Hall2 as [|? ? [Hnx _] _]; subst. reflexivity.
Qed.

Lemma cls_target_some (cp cn : Q) (logits : list Q) (c : Z) :
  (0 <= c < Z.of_nat (length logits))%Z -> cls_target cp cn logits c <> None.
Proof.
  intro H. unfold cls_target.
  destruct (tensor_locate_some logits c H) as [a [-> _]]. discriminate.
Qed.

Lemma in_combine_both {A B : Type} (l : list A) (l' : list B) (a : A) (b : B) :
  In (a, b) (combine l l') -> In a l /\ In b l'.
Proof.
  intro H. split; [eapply in_combine_l | eapply in_combine_r]; exact H.
Qed.

Section LossReturns.

Variable sigmoid : Q -> Q.
Variable atan : fl -> fl.
Variable pi : Q.
Variable bce_with_logits : Q -> Q -> fl -> fl.
Variable fpow : fl -> Q -> fl.

(** One layer: the slots exist in the prediction, and with several classes
    every assigned class has a logit. *)
Lemma layer_loss_returns (m : model) (pi_ : tensor5) (lt : layer_targets) (b : Q)
      (acc : fl * fl * fl) (bs ny nx : nat) :
  rectangular bs (na (m_det m)) ny nx (5 + m_nc m) pi_ ->
  Forall (fun s => let '(b, a, gj, gi) := s in
                   (0 <= b < Z.of_nat bs)%Z /\ (0 <= a < Z.of_nat (na (m_det m)))%Z /\
                   (0 <= gj < Z.of_nat ny)%Z /\ (0 <= gi < Z.of_nat nx)%Z) (slots lt) ->
  Forall (fun c => (0 <= c < Z.of_nat (m_nc m))%Z) (tcls lt) ->
  exists acc',
    layer_loss sigmoid atan pi bce_with_logits fpow m pi_ lt b acc = Returned acc'.
Proof.
  intros Hrect Hslots Hcls. destruct acc as [[lcls lbox] lobj].
  unfold layer_loss. cbv zeta.
  destruct (negb (Nat.eqb (length (idx_b lt)) 0)); [|eexists; reflexivity].
  rewrite Forall_forall in Hslots, Hcls.
  assert (Hloc : forall s, In s (slots lt) ->
             exists cell row, locate pi_ s = Some (cell, row) /\
                              length row = (5 + m_nc m)%nat).
  { intros [[[b0 a0] gj] gi] Hs. destruct (Hslots _ Hs) as [Hb [Ha [Hj Hi]]].
    eapply locate_rectangular; eassumption. }
  destruct (mapM_some (locate pi_) (slots lt)) as [found Hf].
  { intros s Hs. destruct (Hloc s Hs) as [cell [row [-> _]]]. discriminate. }
  rewrite Hf.
  destruct (Nat.ltb 1 (m_nc m)); [|eexists; reflexivity].
  cbn [smooth_BCE].
  destruct (mapM_some
              (fun rc => cls_target (1 - (1 # 2) * 0) ((1 # 2) * 0)
                                    (skipn 5 (fst rc)) (snd rc))
              (combine (map snd found) (tcls lt))) as [t Ht].
  { intros [row c] Hrc. apply in_combine_both in Hrc. destruct Hrc as [Hrow Hc].
    cbn [fst snd]. apply cls_target_some.
    apply in_map_iff in Hrow. destruct Hrow as [[cell row'] [E Hin]]. cbn in E. subst row'.
    destruct (mapM_In _ _ _ _ Hf Hin) as [s [Hs Hl]].
    destruct (Hloc s Hs) as [cell' [row' [Hl' Hlen]]].
    rewrite Hl in Hl'. injection Hl' as _ <-.
    rewrite length_skipn, Hlen. replace (5 + m_nc m - 5)%nat with (m_nc m) by lia.
    apply Hcls. exact Hc. }
  rewrite Ht. eexists. reflexivity.
Qed.

Lemma loss_layers_returns_all (m : model) (p : list tensor5) (layers : list layer_targets)
      (balance : list Q) (acc : fl * fl * fl) (bs : nat) :
  (length p <= length balance)%nat ->
  Forall2 (fun pi_ lt =>
             exists ny nx,
               rectangular bs (na (m_det m)) ny nx (5 + m_nc m) pi_ /\
               Forall (fun s => let '(b, a, gj, gi) := s in
                                (0 <= b < Z.of_nat bs)%Z /\
                                (0 <= a < Z.of_nat (na (m_det m)))%Z /\
                                (0 <= gj < Z.of_nat ny)%Z /\
                                (0 <= gi < Z.of_nat nx)%Z) (slots lt) /\
               Forall (fun c => (0 <= c < Z.of_nat (m_nc m))%Z) (tcls lt))
          p layers ->
  exists acc',
    loss_layers sigmoid atan pi bce_with_logits fpow m p layers balance acc = Returned acc'.
Proof.
  intros Hbal Hall. revert balance acc Hbal.
  induction Hall as [|pi_ lt p layers [ny [nx [Hrect [Hs Hc]]]] Hall IH];
    intros balance acc Hbal; cbn [loss_layers].
  - eexists. reflexivity.
  - destruct balance as [|b balance]; [cbn in Hbal; lia|].
    destruct (layer_loss_returns m pi_ lt b acc bs ny nx Hrect Hs Hc) as [acc1 ->].
    apply IH. cbn in Hbal. lia.
Qed.

End LossReturns.

Lemma Forall2_nth {A B : Type} (R : A -> B -> Prop) (l : list A) (l' : list B) :
  length l = length l' ->
  (forall i a b, nth_error l i = Some a -> nth_error l' i = Some b -> R a b) ->
  Forall2 R l l'.
Proof.
  revert l'. induction l as [|a l IH]; intros l' Hlen H; destruct l' as [|b l'];
    try discriminate; constructor.
  - apply (H 0%nat); reflexivity.
  - apply IH; [cbn in Hlen; lia|]. intros i a' b' Ha Hb. apply (H (S i)); assumption.
Qed.

(** X23. On a well-formed batch [compute_loss] raises nothing.  If the
    detection head has one layer per prediction tensor (one to four, three
    or four when there are images to draw) with [na] anchors each, every
    prediction is a full [bs x na x ny x nx x (5 + nc)] tensor with a
    non-empty grid, and every ground truth has its centre inside the image,
    an image index below [bs] and a class below [nc], then every index the
    function computes is in range and it returns a loss (which may still be
    NaN). *)
Theorem compute_loss_returns
        (sigmoid : Q -> Q) (atan : fl -> fl) (pi : Q)
        (bce_with_logits : Q -> Q -> fl -> fl) (fpow : fl -> Q -> fl)
        (p : list tensor5) (targets : list target) (m : model) (n_imgs bs : nat) :
  Detect_wf (m_det m) -> (0 < na (m_det m))%nat ->
  nl (m_det m) = length p -> (1 <= length p <= 4)%nat ->
  (n_imgs = 0%nat \/ (3 <= length p)%nat) ->
  (0 < bs)%nat ->
  Forall (fun pi_ => exists ny nx,
                       (0 < ny)%nat /\ (0 < nx)%nat /\
                       rectangular bs (na (m_det m)) ny nx (5 + m_nc m) pi_) p ->
  Forall (target_in_batch bs (m_nc m)) targets ->
  exists r,
    compute_loss sigmoid atan pi bce_with_logits fpow p targets m n_imgs = Returned r.
Proof.
  intros [Hlen Hanc] Hna Hnl Hnp Himgs Hbs Hp Ht. unfold compute_loss.
  destruct (build_targets_some (map shape_of p) targets (m_det m)
                               (h_anchor_t (m_hyp m)) Hlen) as [layers Hb].
  { rewrite length_map. lia. }
  { apply Forall_forall. intros s Hs. apply in_map_iff in Hs.
    destruct Hs as [t [<- _]]. cbn. lia. }
  { intros _. exact Hna. }
  rewrite Hb. cbv zeta.
  assert (Hll : length layers = length p).
  { unfold build_targets in Hb. apply mapM_length in Hb.
    rewrite length_seq in Hb. lia. }
  assert (Eb : negb (Nat.eqb n_imgs 0) &&
               (Nat.ltb (length p) 3 || Nat.ltb (length layers) 3) = false).
  { destruct Himgs as [-> | H3]; [reflexivity|]. rewrite Hll.
    destruct (Nat.ltb_spec (length p) 3); [lia|]. apply andb_false_r. }
  rewrite Eb.
  destruct (loss_layers_returns_all sigmoid atan pi bce_with_logits fpow m p layers
              (if Nat.eqb (length p) 3 then [4; 1; 4 # 10] else [4; 1; 4 # 10; 1 # 10])
              (Fin 0, Fin 0, Fin 0) bs) as [[[lcls lbox] lobj] Hl].
  - destruct (Nat.eqb_spec (length p) 3) as [E|E]; cbn [length]; lia.
  - apply Forall2_nth; [symmetry; exact Hll|]. intros i pi_ lt Hpi Hlt.
    rewrite Forall_forall in Hp.
    destruct (Hp pi_ (nth_error_In _ _ Hpi)) as [ny [nx [Hny [Hnx Hrect]]]].
    exists ny, nx. split; [exact Hrect|].
    destruct (build_targets_layer_of _ _ _ _ _ _ _ Hb Hlt)
      as [anchors_i [shape [Han [Hsh Hlayer]]]].
    rewrite nth_error_map, Hpi in Hsh. cbn in Hsh. injection Hsh as <-.
    destruct (shape_of_rectangular _ _ _ _ _ _ Hrect Hbs Hna Hny) as [Sy Sx].
    assert (Hai : length anchors_i = na (m_det m)).
    { rewrite Forall_forall in Hanc. apply Hanc. eapply nth_error_In. exact Han. }
    exact (layer_rows_in_range _ _ _ _ _ _ _ _ _ _ Hai Sy Sx Hny Hnx Ht Hlayer).
  - rewrite Hl.
    destruct (rev p) as [|last_pi rp] eqn:Er.
    { apply (f_equal (@length tensor5)) in Er. rewrite length_rev in Er. cbn in Er. lia. }
    eexists. reflexivity.
Qed.

Lemma compute_loss_returns_witness :
  exists r,
    compute_loss ex_sigmoid ex_atan ex_pi ex_bce ex_pow ex_p3 [ex_gt_loss] ex_model 1
    = Returned r.
Proof.
  apply (compute_loss_returns ex_sigmoid ex_atan ex_pi ex_bce ex_pow
                              ex_p3 [ex_gt_loss] ex_model 1 1).
  - split; [reflexivity | repeat constructor].
  - cbn. lia.
  - reflexivity.
  - cbn. lia.
  - right. cbn. lia.
  - lia.
  - constructor; [|constructor; [|constructor; [|constructor]]].
    + exists 4%nat, 4%nat. split; [lia|]. split; [lia|]. split; [reflexivity|].
      repeat (constructor; try reflexivity).
    + exists 2%nat, 2%nat. split; [lia|]. split; [lia|]. split; [reflexivity|].
      repeat (constructor; try reflexivity).
    + exists 1%nat, 1%nat. split; [lia|]. split; [lia|]. split; [reflexivity|].
      repeat (constructor; try reflexivity).
  - constructor; [|constructor].
    unfold target_in_batch, centre_in_image, ex_gt_loss; cbn.
    repeat split; discriminate.
Defined.

(** ** Non-maximum suppression: merging requires company *)

Lemma filter_none {A : Type} (P : A -> bool) (l : list A) :
  (forall x, In x l -> P x = false) -> filter P l = [].
Proof.
  induction l as [|a l IH]; intro H; cbn; [reflexivity|].
  rewrite (H a (or_introl eq_refl)). apply IH. intros x Hx. apply H. right. exact Hx.
Qed.

Lemma filter_at_most_one {A : Type} (P : A -> bool) (l : list A) (k : nat) :
  (forall j x, nth_error l j = Some x -> P x = true -> j = k) ->
  (length (filter P l) <= 1)%nat.
Proof.
  revert k. induction l as [|a l IH]; intros k H; cbn; [lia|].
  destruct (P a) eqn:Ea.
  - assert (Hk : 0%nat = k) by (apply (H 0%nat a); [reflexivity | exact Ea]).
    rewrite filter_none; [cbn; lia|].
    intros x Hx. destruct (P x) eqn:Ex; [|reflexivity].
    apply In_nth_error in Hx. destruct Hx as [j Hj].
    specialize (H (S j) x Hj Ex). lia.
  - apply (IH (Nat.pred k)). intros j x Hj Hx. specialize (H (S j) x Hj Hx). lia.
Qed.

Lemma has_support_isolated (thr : Q) (boxes : list box) (k : nat) (b : box) :
  (forall j b', j <> k -> nth_error boxes j = Some b' ->
                fgt (box_iou1 b b') (Fin thr) = false) ->
  has_support thr b boxes = false.
Proof.
  intro H. unfold has_support. apply Nat.ltb_ge.
  apply (filter_at_most_one _ _ k). intros j b' Hj Hgt.
  destruct (Nat.eq_dec j k) as [E|E]; [exact E|].
  rewrite (H j b' E Hj) in Hgt. discriminate.
Qed.

(** The kept indices address rows of the detections matrix. *)
Lemma kept_indices_valid (thr : Q) (x : list cand6) (boxes : list box) (k : nat) :
  length boxes = length x ->
  In k (kept_indices thr boxes (map d_conf x)) ->
  exists b c, nth_error boxes k = Some b /\ nth_error x k = Some c.
Proof.
  intros Hlen Hk.
  destruct (kept_indices_entries thr boxes (map d_conf x)) as [es [E [_ [Hin _]]]].
  rewrite E in Hk. apply in_map_iff in Hk. destruct Hk as [[k' [b s]] [Ek He]].
  cbn in Ek. subst k'. specialize (Hin _ He). unfold enumerate in Hin.
  apply enumerate_from_nth in Hin. destruct Hin as [_ Hin]. rewrite Nat.sub_0_r in Hin.
  apply nth_error_combine_inv in Hin. destruct Hin as [Hb Hs].
  apply nth_error_map_some in Hs. destruct Hs as [c [Hc _]].
  exists b, c. split; assumption.
Qed.

Lemma select_rows_merge_isolated (thr : Q) (x : list cand6) (boxes : list box) :
  length boxes = length x -> (1 < length x < 3000)%nat ->
  (forall i j bi bj, i <> j -> nth_error boxes i = Some bi -> nth_error boxes j = Some bj ->
                     fgt (box_iou1 bi bj) (Fin thr) = false) ->
  select_rows thr true x boxes (map d_conf x)
              (kept_indices thr boxes (map d_conf x)) = Some [].
Proof.
  intros Hlen Hn Hiso. unfold select_rows. cbv zeta.
  destruct (Nat.ltb_spec 1 (length x)); [|lia].
  destruct (Nat.ltb_spec (length x) 3000); [|lia]. cbn [andb].
  unfold merge_nms.
  destruct (mapM_some (merge_row thr x boxes (map d_conf x))
                      (kept_indices thr boxes (map d_conf x))) as [rows0 Hm].
  { intros k Hk. destruct (kept_indices_valid thr x boxes k Hlen Hk) as [b [c [Hb Hc]]].
    unfold merge_row. rewrite Hb, Hc.
    destruct (merged_box (merge_weights thr b boxes (map d_conf x)) x)
      as [[[m0 m1] m2] m3]. discriminate. }
  rewrite Hm. rewrite filter_none; [reflexivity|].
  intros [k d] Hkd. cbn [fst]. unfold redundant.
  destruct (nth_error boxes k) as [b|] eqn:Eb; [|reflexivity].
  apply (has_support_isolated thr boxes k b).
  intros j b' Hj Hb'. apply (Hiso k j b b'); [congruence | exact Eb | exact Hb'].
Qed.

Lemma select_rows_plain_some (thr : Q) (x : list cand6) (boxes : list box) :
  length boxes = length x ->
  exists rows,
    select_rows thr false x boxes (map d_conf x)
                (kept_indices thr boxes (map d_conf x)) = Some rows.
Proof.
  intro Hlen. unfold select_rows. cbv zeta. cbn [andb].
  apply mapM_some. intros k Hk.
  destruct (kept_indices_valid thr x boxes k Hlen Hk) as [b [c [_ Hc]]].
  rewrite Hc. discriminate.
Qed.

(** X24. Merging requires company.  With [merge=True] (and [redundant]
    set, as it is) an image whose candidates, between 2 and 2999 of them,
    do not overlap one another above the IoU threshold gets an empty
    detection tensor: every box is kept by the suppression pass and then
    dropped for want of a second overlapping box.  The same image with
    [merge=False] gets a non-empty one. *)
Theorem nms_merge_drops_isolated
        (nc : nat) (conf_thres iou_thres : Q) (classes : option (list Z))
        (agnostic : bool) (x : list pred) (cands : list cand6) :
  candidates nc conf_thres classes
             (filter (fun r => Qlt_bool conf_thres (p_obj r)) x) = Returned cands ->
  (1 < length cands < 3000)%nat ->
  (forall i j bi bj,
      i <> j ->
      nth_error (offset_boxes agnostic cands) i = Some bi ->
      nth_error (offset_boxes agnostic cands) j = Some bj ->
      fgt (box_iou1 bi bj) (Fin iou_thres) = false) ->
  nms_image nc conf_thres iou_thres true classes agnostic x = Returned (Some []) /\
  exists rows,
    nms_image nc conf_thres iou_thres false classes agnostic x = Returned (Some rows) /\
    rows <> [].
Proof.
  intros Hc Hn Hiso.
  assert (Hlen : length (offset_boxes agnostic cands) = length cands)
    by (unfold offset_boxes; apply length_map).
  assert (Hx : filter (fun r => Qlt_bool conf_thres (p_obj r)) x <> []).
  { intro E. rewrite E, candidates_nil in Hc. injection Hc as <-. cbn in Hn. lia. }
  assert (Hne : cands <> []) by (intro E; rewrite E in Hn; cbn in Hn; lia).
  unfold nms_image.
  destruct (filter (fun r => Qlt_bool conf_thres (p_obj r)) x) as [|r0 x'];
    [contradiction|].
  rewrite Hc. destruct cands as [|c0 cands']; [contradiction|].
  cbv zeta. split.
  - rewrite (select_rows_merge_isolated iou_thres (c0 :: cands') _ Hlen Hn Hiso).
    reflexivity.
  - destruct (select_rows_plain_some iou_thres (c0 :: cands')
                (offset_boxes agnostic (c0 :: cands')) Hlen) as [rows Hs].
    rewrite Hs. exists rows. split; [reflexivity|].
    exact (proj1 (select_rows_plain_nonempty _ _ _ _ Hne Hlen Hs)).
Qed.

Lemma nms_merge_drops_isolated_witness :
  nms_image 1 (1 # 10) (1 # 2) true None false [ex_pred_A; ex_pred_far]
  = Returned (Some []) /\
  exists rows,
    nms_image 1 (1 # 10) (1 # 2) false None false [ex_pred_A; ex_pred_far]
    = Returned (Some rows) /\
    rows <> [].
Proof.
  apply (nms_merge_drops_isolated 1 (1 # 10) (1 # 2) None false
                                  [ex_pred_A; ex_pred_far] ex_apart_cands).
  - reflexivity.
  - cbn. lia.
  - intros i j bi bj Hij Hi Hj.
    assert (Li : (i < 2)%nat)
      by (apply (nth_error_Some (offset_boxes false ex_apart_cands)); congruence).
    assert (Lj : (j < 2)%nat)
      by (apply (nth_error_Some (offset_boxes false ex_apart_cands)); congruence).
    destruct i as [|[|i]]; destruct j as [|[|j]]; try lia;
      injection Hi as <-; injection Hj as <-; reflexivity.
Defined.

(** ** Non-maximum suppression: where a merged box can lie *)

(** The sums of the merge step for one kept box [b] and one column [f]. *)
Lemma merge_sums (thr : Q) (b : box) (g : cand6 -> box) (f : box -> Q) (lo hi : Q)
      (x : list cand6) :
  (forall c, In c x -> 0 < d_conf c) ->
  (forall c, In c x -> lo <= f (d_box c) <= hi) ->
  let w := merge_weights thr b (map g x) (map d_conf x) in
  let s := Qsum (map (fun wr => fst wr * f (d_box (snd wr))) (combine w x)) in
  0 <= Qsum w /\ lo * Qsum w <= s /\ s <= hi * Qsum w /\
  (existsb (fun c => fgt (box_iou1 b (g c)) (Fin thr)) x = true -> 0 < Qsum w).
Proof.
  cbv zeta. induction x as [|c x IH]; intros Hpos Hin.
  - cbn. repeat split; try lra; discriminate.
  - destruct IH as [I0 [I1 [I2 I3]]].
    { intros c' Hc'. apply Hpos. right. exact Hc'. }
    { intros c' Hc'. apply Hin. right. exact Hc'. }
    specialize (Hpos c (or_introl eq_refl)). specialize (Hin c (or_introl eq_refl)).
    unfold merge_weights in *. cbn [map combine fst snd Qsum fold_right existsb].
    fold (Qsum (map (fun bs => if fgt (box_iou1 b (fst bs)) (Fin thr)
                               then 1 * snd bs else 0 * snd bs)
                    (combine (map g x) (map d_conf x)))) in *.
    set (W := Qsum (map (fun bs => if fgt (box_iou1 b (fst bs)) (Fin thr)
                                   then 1 * snd bs else 0 * snd bs)
                        (combine (map g x) (map d_conf x)))) in *.
    set (w := map (fun bs => if fgt (box_iou1 b (fst bs)) (Fin thr)
                             then 1 * snd bs else 0 * snd bs)
                  (combine (map g x) (map d_conf x))) in *.
    fold (Qsum (map (fun wr => fst wr * f (d_box (snd wr))) (combine w x))) in *.
    set (S := Qsum (map (fun wr => fst wr * f (d_box (snd wr))) (combine w x))) in *.
    clearbody S W. destruct Hin as [L H].
    set (v := f (d_box c)) in *. set (s := d_conf c) in *. clearbody v s.
    destruct (fgt (box_iou1 b (g c)) (Fin thr)); cbn [orb].
    + repeat split; try nra.
    + repeat split; try nra. intro E. specialize (I3 E). nra.
Qed.

Lemma has_support_overlap (thr : Q) (b : box) (g : cand6 -> box) (x : list cand6) :
  has_support thr b (map g x) = true ->
  existsb (fun c => fgt (box_iou1 b (g c)) (Fin thr)) x = true.
Proof.
  unfold has_support. intro H. apply Nat.ltb_lt in H.
  destruct (filter (fun b' => fgt (box_iou1 b b') (Fin thr)) (map g x)) as [|b' l] eqn:E;
    [cbn in H; lia|].
  assert (Hb : In b' (filter (fun b' => fgt (box_iou1 b b') (Fin thr)) (map g x)))
    by (rewrite E; left; reflexivity).
  apply filter_In in Hb. destruct Hb as [Hb Hgt].
  apply in_map_iff in Hb. destruct Hb as [c [<- Hc]].
  apply existsb_exists. exists c. split; assumption.
Qed.

(** A merged coordinate is a weighted mean of the candidates' coordinates. *)
Lemma merged_col_within (thr : Q) (b : box) (g : cand6 -> box) (f : box -> Q) (lo hi : Q)
      (x : list cand6) :
  (forall c, In c x -> 0 < d_conf c) ->
  (forall c, In c x -> lo <= f (d_box c) <= hi) ->
  has_support thr b (map g x) = true ->
  fl_within lo hi
    (qdiv (Qsum (map (fun wr => fst wr * f (d_box (snd wr)))
                     (combine (merge_weights thr b (map g x) (map d_conf x)) x)))
          (Qsum (merge_weights thr b (map g x) (map d_conf x)))).
Proof.
  intros Hpos Hin Hs.
  destruct (merge_sums thr b g f lo hi x Hpos Hin) as [_ [L [U P]]].
  specialize (P (has_support_overlap thr b g x Hs)).
  rewrite (qdiv_pos _ _ P). cbn [fl_within]. split.
  - apply Qle_shift_div_l; [exact P | exact L].
  - apply Qle_shift_div_r; [exact P | exact U].
Qed.

Lemma merge_nms_in_rect (thr : Q) (g : cand6 -> box) (rect : box) (x : list cand6)
      (i : list nat) (rows : list detection) :
  (forall c, In c x -> 0 < d_conf c) ->
  (forall c, In c x -> fbox_in_rect rect (fbox_of (d_box c))) ->
  merge_nms thr x (map g x) (map d_conf x) i = Some rows ->
  Forall (fun d => fbox_in_rect rect (detection_box d)) rows.
Proof.
  intros Hpos Hin. unfold merge_nms.
  destruct (mapM (merge_row thr x (map g x) (map d_conf x)) i) as [rows0|] eqn:E;
    [|discriminate].
  intro H. injection H as <-. apply Forall_forall. intros d Hd.
  apply in_map_iff in Hd. destruct Hd as [[k d'] [Hk Hf]]. cbn in Hk. subst d'.
  apply filter_In in Hf. destruct Hf as [Hf Hsup]. cbn [fst] in Hsup. unfold redundant in Hsup.
  destruct (mapM_In _ _ _ _ E Hf) as [j [_ Hrow]].
  unfold merge_row in Hrow.
  destruct (nth_error (map g x) j) as [b|] eqn:Eb; [|discriminate].
  destruct (nth_error x j) as [r|] eqn:Er; [|discriminate].
  unfold merged_box in Hrow. cbv beta zeta iota in Hrow.
  injection Hrow as Hj <-. subst j. rewrite Eb in Hsup.
  unfold fbox_in_rect, detection_box. cbn [f0 f1 f2 f3 o_x1 o_y1 o_x2 o_y2].
  repeat split.
  - apply merged_col_within; [exact Hpos | | exact Hsup].
    intros c Hc. exact (proj1 (Hin c Hc)).
  - apply merged_col_within; [exact Hpos | | exact Hsup].
    intros c Hc. exact (proj1 (proj2 (Hin c Hc))).
  - apply merged_col_within; [exact Hpos | | exact Hsup].
    intros c Hc. exact (proj1 (proj2 (proj2 (Hin c Hc)))).
  - apply merged_col_within; [exact Hpos | | exact Hsup].
    intros c Hc. exact (proj2 (proj2 (proj2 (Hin c Hc)))).
Qed.

(** X27. Where merged boxes lie.  With [merge=True], a threshold
    [conf_thres] that is not negative and a rectangle that contains the
    boxes of all candidates of an image, every row returned for the image
    has four coordinates that are numbers inside that rectangle: merging
    averages candidate boxes with positive weights and so never produces
    NaN, an infinity, or a box outside the candidates' span. *)
Theorem nms_merged_boxes_in_span
        (nc : nat) (conf_thres iou_thres : Q) (classes : option (list Z))
        (agnostic : bool) (x : list pred) (cands : list cand6) (rect : box)
        (rows : list detection) :
  0 <= conf_thres ->
  candidates nc conf_thres classes
             (filter (fun r => Qlt_bool conf_thres (p_obj r)) x) = Returned cands ->
  (forall c, In c cands -> fbox_in_rect rect (fbox_of (d_box c))) ->
  nms_image nc conf_thres iou_thres true classes agnostic x = Returned (Some rows) ->
  Forall (fun d => fbox_in_rect rect (detection_box d)) rows.
Proof.
  intros Hthr Hc Hin Hn.
  destruct (nms_image_cands _ _ _ _ _ _ _ _ Hn) as [cands' [Hc' [_ Hs]]].
  rewrite Hc in Hc'. injection Hc' as <-.
  assert (Hpos : forall c, In c cands -> 0 < d_conf c).
  { intros c Hcin. destruct (candidates_conf _ _ _ _ _ Hc c Hcin) as [Hlt _]. lra. }
  assert (Hplain : forall rows',
             mapM (fun k => option_map detection_of (nth_error cands k))
                  (kept_indices iou_thres (offset_boxes agnostic cands) (map d_conf cands))
             = Some rows' ->
             Forall (fun d => fbox_in_rect rect (detection_box d)) rows').
  { intros rows' Hg. apply Forall_forall. intros d Hd.
    destruct (gather_row _ _ _ _ Hg Hd) as [c [Hcin ->]]. exact (Hin c Hcin). }
  unfold select_rows in Hs. cbv zeta in Hs. cbn [andb] in Hs.
  destruct (Nat.ltb 1 (length cands) && Nat.ltb (length cands) 3000);
    [|exact (Hplain rows Hs)].
  destruct (merge_nms iou_thres cands (offset_boxes agnostic cands) (map d_conf cands)
              (kept_indices iou_thres (offset_boxes agnostic cands) (map d_conf cands)))
    as [mrows|] eqn:Em; [|exact (Hplain rows Hs)].
  injection Hs as <-. unfold offset_boxes in Em.
  exact (merge_nms_in_rect iou_thres _ rect cands _ mrows Hpos Hin Em).
Qed.

Lemma nms_merged_boxes_in_span_witness :
  Forall (fun d => fbox_in_rect (mkbox 0 0 12 10) (detection_box d)) ex_merged_rows.
Proof.
  apply (nms_merged_boxes_in_span 1 (1 # 10) (1 # 2) None false
                                  [ex_pred_A; ex_pred_B] ex_pair_cands
                                  (mkbox 0 0 12 10) ex_merged_rows).
  - discriminate.
  - reflexivity.
  - intros c Hc. cbn in Hc.
    destruct Hc as [<-|[<-|[]]]; repeat split; discriminate.
  - reflexivity.
Defined.

(** ** [bbox_iou]: the aspect-ratio term of CIoU *)

Lemma square_ratio_nonneg (p d : Q) : ~ p == 0 -> 0 <= 4 / Qsqr p * (d * d).
Proof.
  intro Hp. unfold Qsqr.
  assert (Hpp : 0 < p * p) by nra.
  assert (H4 : 0 < 4 / (p * p)) by (apply Qlt_shift_div_l; lra).
  set (k := 4 / (p * p)) in *. clearbody k. nra.
Qed.

Lemma penalty_nonneg (v D : Q) : 0 <= v -> 0 < D -> 0 <= v * (v / D).
Proof.
  intros Hv HD.
  assert (H : 0 <= v / D) by (apply Qle_shift_div_l; lra).
  set (t := v / D) in *. clearbody t. nra.
Qed.

(** X25. For boxes whose corners are ordered, when [torch.atan] returns
    numbers for the two width-to-height ratios (and pi is not zero), the
    CIoU returned by [bbox_iou] is a number that never exceeds the DIoU of
    the same boxes, and equals it when the two arctangents agree. *)
Theorem ciou_at_most_diou (atan : fl -> fl) (pi : Q) (x1y1x2y2 : bool)
        (a b : box) (t1 t2 : Q) :
  ordered (corners x1y1x2y2 a) -> ordered (corners x1y1x2y2 b) ->
  ~ pi == 0 ->
  atan (aspect (corners x1y1x2y2 a)) = Fin t1 ->
  atan (aspect (corners x1y1x2y2 b)) = Fin t2 ->
  exists d c,
    bbox_iou1 atan pi x1y1x2y2 false true false a b = Fin d /\
    bbox_iou1 atan pi x1y1x2y2 false false true a b = Fin c /\
    c <= d /\ (t1 == t2 -> c == d).
Proof.
  intros HA HB Hpi H1 H2. unfold bbox_iou1, ciou_v, ciou_alpha. cbv zeta. cbn [orb].
  set (A := corners x1y1x2y2 a) in *. set (B := corners x1y1x2y2 b) in *.
  change (qdiv (c2 A - c0 A) (c3 A - c1 A)) with (aspect A).
  change (qdiv (c2 B - c0 B) (c3 B - c1 B)) with (aspect B).
  rewrite H1, H2.
  destruct (bbox_union_pos A B HA HB) as [HU HIU].
  pose proof (bbox_inter_nonneg A B) as HI.
  pose proof eps16_pos as Heps.
  set (W := Qmax (c2 A) (c2 B) - Qmin (c0 A) (c0 B)) in *.
  set (H := Qmax (c3 A) (c3 B) - Qmin (c1 A) (c1 B)) in *.
  set (U := bbox_union A B) in *. set (I := bbox_inter A B) in *.
  set (rho2 := Qsqr (c0 B + c2 B - (c0 A + c2 A)) / 4 +
               Qsqr (c1 B + c3 B - (c1 A + c3 A)) / 4) in *.
  assert (HD : 0 < Qsqr W + Qsqr H + eps16) by (unfold Qsqr; nra).
  assert (Hpp : ~ Qsqr pi == 0) by (unfold Qsqr; nra).
  rewrite (qdiv_pos I U HU), (qdiv_pos _ _ HD), (qdiv_nonzero 4 _ Hpp).
  cbn [fsub fopp fadd fmul fdiv].
  pose proof (square_ratio_nonneg pi (t2 + - t1) Hpi) as Hv.
  set (v := 4 / Qsqr pi * ((t2 + - t1) * (t2 + - t1))) in *.
  destruct (quotient_unit_interval I U HI HU HIU) as [Q1 Q2].
  assert (Hden : 0 < 1 + - (I / U) + v + eps16) by lra.
  rewrite (qdiv_pos _ _ Hden). cbn [fsub fopp fadd fmul].
  do 2 eexists. split; [reflexivity|]. split; [reflexivity|].
  pose proof (penalty_nonneg v _ Hv Hden) as Hp.
  split.
  - set (pen := v * (v / (1 + - (I / U) + v + eps16))) in *.
    set (qi := I / U) in *. set (qd := rho2 / (Qsqr W + Qsqr H + eps16)) in *.
    clearbody pen qi qd. lra.
  - intro E.
    assert (Ev : v == 0).
    { unfold v. assert (E0 : t2 + - t1 == 0) by lra. rewrite E0. ring. }
    rewrite Ev. unfold Qdiv. ring.
Qed.

Lemma ciou_at_most_diou_witness :
  exists d c,
    bbox_iou1 ex_atan ex_pi true false true false ex_unit_box ex_far_box = Fin d /\
    bbox_iou1 ex_atan ex_pi true false false true ex_unit_box ex_far_box = Fin c /\
    c <= d /\ ((1 # 2) == (1 # 2) -> c == d).
Proof.
  apply (ciou_at_most_diou ex_atan ex_pi true ex_unit_box ex_far_box (1 # 2) (1 # 2)).
  - split; discriminate.
  - split; discriminate.
  - discriminate.
  - reflexivity.
  - reflexivity.
Defined.

(** ** [wh_iou]: range on positive shapes *)

Lemma wh_inter_cases (w1 h1 w2 h2 : Q) :
  0 < w1 -> 0 < h1 -> 0 < w2 -> 0 < h2 ->
  0 < Qmin w1 w2 * Qmin h1 h2 /\
  Qmin w1 w2 * Qmin h1 h2 <= w1 * h1 /\
  Qmin w1 w2 * Qmin h1 h2 <= w2 * h2 /\
  (w1 * h1 + w2 * h2 == 2 * (Qmin w1 w2 * Qmin h1 h2) -> w1 == w2 /\ h1 == h2).
Proof.
  intros Hw1 Hh1 Hw2 Hh2.
  destruct (Q.min_spec w1 w2) as [[Lw Ew]|[Lw Ew]];
    destruct (Q.min_spec h1 h2) as [[Lh Eh]|[Lh Eh]];
    rewrite Ew, Eh; repeat split; try nra; intro E; nra.
Qed.

(** X26. For two shapes with positive width and height [wh_iou] returns a
    number in (0, 1], and it is 1 exactly when the two shapes are equal. *)
Theorem wh_iou_positive_shapes (wh1 wh2 : Q * Q) :
  0 < fst wh1 -> 0 < snd wh1 -> 0 < fst wh2 -> 0 < snd wh2 ->
  exists q, wh_iou1 wh1 wh2 = Fin q /\ 0 < q /\ q <= 1 /\
            (q == 1 <-> fst wh1 == fst wh2 /\ snd wh1 == snd wh2).
Proof.
  destruct wh1 as [w1 h1], wh2 as [w2 h2]. cbn [fst snd].
  intros Hw1 Hh1 Hw2 Hh2. unfold wh_iou1, wh_iou_den, wh_inter. cbn [fst snd].
  destruct (wh_inter_cases w1 h1 w2 h2 Hw1 Hh1 Hw2 Hh2) as [Hi [La [Lb Heq]]].
  set (I := Qmin w1 w2 * Qmin h1 h2) in *.
  assert (Hd : 0 < w1 * h1 + w2 * h2 - I) by lra.
  rewrite (qdiv_pos _ _ Hd). eexists. split; [reflexivity|].
  split; [apply Qlt_shift_div_l; lra|].
  split; [apply Qle_shift_div_r; lra|].
  split.
  - intro E. apply Heq.
    assert (E' : I == 1 * (w1 * h1 + w2 * h2 - I)).
    { rewrite <- E. field. lra. }
    lra.
  - intros [Ew Eh].
    assert (EI : I == w1 * h1).
    { unfold I. rewrite <- Ew, <- Eh.
      rewrite (Q.min_l w1 w1), (Q.min_l h1 h1) by apply Qle_refl. reflexivity. }
    assert (E2 : w2 * h2 == w1 * h1) by (rewrite <- Ew, <- Eh; reflexivity).
    assert (Ed : w1 * h1 + w2 * h2 - I == I) by lra.
    rewrite Ed. field. lra.
Qed.

Lemma wh_iou_positive_shapes_witness :
  exists q, wh_iou1 (2, 3) (4, 1) = Fin q /\ 0 < q /\ q <= 1 /\
            (q == 1 <-> fst (2, 3) == fst (4, 1) /\ snd (2, 3) == snd (4, 1)).
Proof.
  apply (wh_iou_positive_shapes (2, 3) (4, 1)); reflexivity.
Defined.
